(** * ulhaq-fx: the five utility functions of [src/index.ts]

    A shallow embedding of [slugify], [resolveObjectPath], [extractNumber],
    [transformEmptyValues] and [replaceString], together with the part of
    the JavaScript runtime they call (strings, numbers, plain values and
    regular expressions), and the properties stated about them.

    Conventions of the runtime model.
    - A string is a sequence of UTF-16 code units.  The model covers the
      code units below 256 (the Latin-1 range), which is what [ascii]
      holds; [String.string] is the string type.
    - A number is an IEEE 754 binary64 value, represented by [spec_float]
      with precision 53 and maximal exponent 1024.
    - A value is a tree: [undefined], [null], a boolean, a number, a string,
      an array (a dense list) or a plain object (its own enumerable string
      keyed data properties in [Object.entries] order).  Functions, accessor
      properties, prototypes and cyclic structures are outside the model. *)

From Stdlib Require Import Bool Arith Lia List ZArith NArith.
From Stdlib Require Import Ascii String.
From Stdlib Require Import SpecFloat DecimalString.
Import ListNotations.

Local Open Scope list_scope.
Local Open Scope string_scope.

(* ================================================================== *)
(** * Code units *)
(* ================================================================== *)

Module Char.

Definition code (c : ascii) : N := N_of_ascii c.

Definition between (lo hi : N) (c : ascii) : bool :=
  (N.leb lo (code c) && N.leb (code c) hi)%bool.

(** [0-9] *)
Definition is_digit (c : ascii) : bool := between 48 57 c.
(** [A-Z] *)
Definition is_upper (c : ascii) : bool := between 65 90 c.
(** [a-z] *)
Definition is_lower (c : ascii) : bool := between 97 122 c.

(** [\w]: [A-Za-z0-9_]. *)
Definition is_word (c : ascii) : bool :=
  (is_lower c || is_upper c || is_digit c || N.eqb (code c) 95)%bool.

(** WhiteSpace and LineTerminator code units below 256: TAB, LF, VT, FF,
    CR, SP and NBSP.  This is the set [trim] strips and [\s] matches. *)
Definition is_space (c : ascii) : bool :=
  (between 9 13 c || N.eqb (code c) 32 || N.eqb (code c) 160)%bool.

(** LineTerminator code units below 256: the ones [.] does not match. *)
Definition is_line_terminator (c : ascii) : bool :=
  (N.eqb (code c) 10 || N.eqb (code c) 13)%bool.

(** Upper-case letters of Latin-1 beyond ASCII: U+00C0..U+00DE but U+00D7. *)
Definition is_upper_latin1 (c : ascii) : bool :=
  (between 192 222 c && negb (N.eqb (code c) 215))%bool.

(** Lower-case letters of Latin-1 whose upper case is 32 below them:
    U+00E0..U+00FE but U+00F7. *)
Definition is_lower_latin1 (c : ascii) : bool :=
  (between 224 254 c && negb (N.eqb (code c) 247))%bool.

(** [String.prototype.toLowerCase] on one code unit. *)
Definition toLowerCase (c : ascii) : ascii :=
  if (is_upper c || is_upper_latin1 c)%bool
  then ascii_of_N (code c + 32) else c.

(** [Canonicalize] of a pattern compiled with the [i] flag (not [u]):
    the code unit of the upper-case form when that is one code unit.
    U+00FF and U+00B5 have their upper case outside Latin-1 (U+0178 and
    U+039C); U+00DF has a two-unit upper case and stays. *)
Definition canonicalize (ignoreCase : bool) (c : ascii) : N :=
  if ignoreCase then
    if (is_lower c || is_lower_latin1 c)%bool then code c - 32
    else if N.eqb (code c) 255 then 376
    else if N.eqb (code c) 181 then 924
    else code c
  else code c.

End Char.

(* ================================================================== *)
(** * Strings *)
(* ================================================================== *)

Module Str.

Fixpoint map (f : ascii -> ascii) (s : string) : string :=
  match s with
  | EmptyString => EmptyString
  | String c s' => String (f c) (map f s')
  end.

Fixpoint all (p : ascii -> bool) (s : string) : bool :=
  match s with
  | EmptyString => true
  | String c s' => (p c && all p s')%bool
  end.

Fixpoint take (n : nat) (s : string) : string :=
  match n, s with
  | S n', String c s' => String c (take n' s')
  | _, _ => EmptyString
  end.

Fixpoint drop (n : nat) (s : string) : string :=
  match n, s with
  | S n', String _ s' => drop n' s'
  | _, _ => s
  end.

Definition is_empty (s : string) : bool :=
  match s with EmptyString => true | _ => false end.

(** The number of leading characters of [s] that satisfy [p]. *)
Fixpoint span (p : ascii -> bool) (s : string) : nat :=
  match s with
  | String c s' => if p c then S (span p s') else 0
  | EmptyString => 0
  end.

(** [s.toLowerCase()] *)
Definition toLowerCase (s : string) : string := map Char.toLowerCase s.

Fixpoint trimStart (s : string) : string :=
  match s with
  | EmptyString => EmptyString
  | String c s' => if Char.is_space c then trimStart s' else s
  end.

(** Strips trailing white space: a character is dropped when it is white
    space and everything after it has been dropped. *)
Fixpoint trimEnd (s : string) : string :=
  match s with
  | EmptyString => EmptyString
  | String c s' =>
      match trimEnd s' with
      | EmptyString => if Char.is_space c then EmptyString else String c EmptyString
      | t => String c t
      end
  end.

(** [s.trim()] *)
Definition trim (s : string) : string := trimEnd (trimStart s).

(** [s.split(sep)] for a one-unit separator: never the empty list. *)
Fixpoint split (sep : ascii) (s : string) : list string :=
  match s with
  | EmptyString => [EmptyString]
  | String c s' =>
      if Ascii.eqb c sep then EmptyString :: split sep s'
      else match split sep s' with
           | [] => [String c EmptyString]
           | w :: ws => String c w :: ws
           end
  end.

(** [parts.join(sep)] *)
Definition join (sep : string) (parts : list string) : string :=
  String.concat sep parts.

End Str.

(* ================================================================== *)
(** * Regular expressions *)
(* ================================================================== *)

(** The patterns of this program use literal characters, [.], character
    classes, the class escapes, groups, alternation and the quantifiers
    [*], [+] and [?].  None has a backreference, so captures are never
    observed and a capturing group matches like a non-capturing one. *)

Module Regex.

Inductive class_item : Type :=
| CChar (c : ascii)              (* one character *)
| CRange (lo hi : ascii)         (* lo-hi *)
| CDigit | CNotDigit             (* \d \D *)
| CWord | CNotWord               (* \w \W *)
| CSpace | CNotSpace.            (* \s \S *)

Inductive regex : Type :=
| REmpty                                   (* the empty alternative *)
| RChar (c : ascii)                        (* a pattern character *)
| RAny                                     (* . *)
| RClass (negated : bool) (items : list class_item)   (* [...] [^...] *)
| RSeq (r1 r2 : regex)                     (* r1 r2 *)
| RAlt (r1 r2 : regex)                     (* r1|r2 *)
| RStar (greedy : bool) (r : regex)        (* r* r*? *)
| RPlus (greedy : bool) (r : regex)        (* r+ r+? *)
| ROpt (greedy : bool) (r : regex)         (* r? r?? *)
| RGroup (r : regex).                      (* (r) (?:r) *)

Definition item_mem (it : class_item) (c : ascii) : bool :=
  match it with
  | CChar a => Ascii.eqb a c
  | CRange lo hi => Char.between (Char.code lo) (Char.code hi) c
  | CDigit => Char.is_digit c
  | CNotDigit => negb (Char.is_digit c)
  | CWord => Char.is_word c
  | CNotWord => negb (Char.is_word c)
  | CSpace => Char.is_space c
  | CNotSpace => negb (Char.is_space c)
  end.

Definition all_units : list ascii := List.map ascii_of_nat (seq 0 256).

(** CharacterSetMatcher: [c] is in the set when some member of the set
    has the canonical form of [c]. *)
Definition set_mem (ignoreCase : bool) (items : list class_item) (c : ascii) : bool :=
  if ignoreCase then
    existsb (fun a => (existsb (fun it => item_mem it a) items
                       && N.eqb (Char.canonicalize true a) (Char.canonicalize true c))%bool)
            all_units
  else existsb (fun it => item_mem it c) items.

Definition cont : Type := string -> option string.

(** RepeatMatcher with min 0 and no upper bound.  An iteration that
    consumes nothing is refused, so every iteration shortens the input
    and [n], which starts above the input's length, only bounds the
    number of iterations. *)
Fixpoint repeat_loop (m : string -> cont -> option string) (greedy : bool)
         (k : cont) (n : nat) (s : string) {struct n} : option string :=
  match n with
  | O => k s
  | S n' =>
      let again (s' : string) :=
        if Nat.ltb (String.length s') (String.length s) then repeat_loop m greedy k n' s'
        else None in
      if greedy then
        match m s again with
        | Some e => Some e
        | None => k s
        end
      else
        match k s with
        | Some e => Some e
        | None => m s again
        end
  end.

(** The backtracking matcher: [rmatch ic r s k] matches [r] at the front
    of [s] and hands what is left to the continuation [k]; alternatives
    are tried left to right and the first success is the result. *)
Fixpoint rmatch (ignoreCase : bool) (r : regex) {struct r} : string -> cont -> option string :=
  match r with
  | REmpty => fun s k => k s
  | RChar c => fun s k =>
      match s with
      | String a s' =>
          if N.eqb (Char.canonicalize ignoreCase c) (Char.canonicalize ignoreCase a)
          then k s' else None
      | EmptyString => None
      end
  | RAny => fun s k =>
      match s with
      | String a s' => if Char.is_line_terminator a then None else k s'
      | EmptyString => None
      end
  | RClass negated items => fun s k =>
      match s with
      | String a s' =>
          if xorb negated (set_mem ignoreCase items a) then k s' else None
      | EmptyString => None
      end
  | RSeq r1 r2 => fun s k =>
      rmatch ignoreCase r1 s (fun s' => rmatch ignoreCase r2 s' k)
  | RAlt r1 r2 => fun s k =>
      match rmatch ignoreCase r1 s k with
      | Some e => Some e
      | None => rmatch ignoreCase r2 s k
      end
  | RStar greedy r' => fun s k =>
      repeat_loop (rmatch ignoreCase r') greedy k (S (String.length s)) s
  | RPlus greedy r' => fun s k =>
      rmatch ignoreCase r' s
        (fun s' => repeat_loop (rmatch ignoreCase r') greedy k (S (String.length s')) s')
  | ROpt greedy r' => fun s k =>
      let once := rmatch ignoreCase r' s
                    (fun s' => if Nat.ltb (String.length s') (String.length s) then k s' else None) in
      if greedy then
        match once with
        | Some e => Some e
        | None => k s
        end
      else
        match k s with
        | Some e => Some e
        | None => once
        end
  | RGroup r' => fun s k => rmatch ignoreCase r' s k
  end.

(** The matcher of an atom that consumes one character satisfying [p]. *)
Definition one (p : ascii -> bool) : string -> cont -> option string :=
  fun s k =>
    match s with
    | String a s' => if p a then k s' else None
    | EmptyString => None
    end.

(** A compiled pattern with its flags. *)
Record RegExp : Type := mkRegExp {
  source : regex;
  global : bool;
  ignoreCase : bool
}.

(** The length of the match of [re] that starts at the front of [s]. *)
Definition match_here (re : RegExp) (s : string) : option nat :=
  match rmatch (ignoreCase re) (source re) s Some with
  | Some rest => Some (String.length s - String.length rest)
  | None => None
  end.

(** What a scan of the subject yields, left to right: text copied as it
    is and matches. *)
Inductive piece : Type :=
| Lit (text : string)
| Match (text : string).

(** The scan behind [replace] and [match].  [RegExpBuiltinExec] tries
    each start index from [lastIndex] on.  With the [g] flag the scan
    resumes where the match ended, one unit further after an empty
    match; without it the scan stops at the first match.  [skip] counts
    the units of the current match still to pass over. *)
Fixpoint scan (re : RegExp) (skip : nat) (s : string) {struct s} : list piece :=
  match skip with
  | S skip' =>
      match s with
      | EmptyString => []
      | String _ s' => scan re skip' s'
      end
  | O =>
      match match_here re s with
      | Some n =>
          Match (Str.take n s) ::
          (if global re then
             match s with
             | EmptyString => []
             | String c s' =>
                 match n with
                 | O => Lit (String c EmptyString) :: scan re 0 s'
                 | S n' => scan re n' s'
                 end
             end
           else [Lit (Str.drop n s)])
      | None =>
          match s with
          | EmptyString => []
          | String c s' => Lit (String c EmptyString) :: scan re 0 s'
          end
      end
  end.

Fixpoint matches_of (ps : list piece) : list string :=
  match ps with
  | [] => []
  | Lit _ :: ps' => matches_of ps'
  | Match m :: ps' => m :: matches_of ps'
  end.

Fixpoint splice (f : string -> string) (ps : list piece) : string :=
  match ps with
  | [] => EmptyString
  | Lit t :: ps' => t ++ splice f ps'
  | Match m :: ps' => f m ++ splice f ps'
  end.

(** [s.replace(re, f)] with a replacer function [f] of the matched text. *)
Definition replace (re : RegExp) (f : string -> string) (s : string) : string :=
  splice f (scan re 0 s).

(** [s.match(re)] for a pattern with the [g] flag: all the matches, or
    [null] ([None]) when there is none. *)
Definition match_all (re : RegExp) (s : string) : option (list string) :=
  match matches_of (scan re 0 s) with
  | [] => None
  | ms => Some ms
  end.

End Regex.

(* ================================================================== *)
(** * slugify *)
(* ================================================================== *)

Import Regex.

(** [/[^\w ]+/g] *)
Definition re_not_word_or_space : RegExp :=
  mkRegExp (RPlus true (RClass true [CWord; CChar " "])) true false.

(** [/ +/g] *)
Definition re_spaces : RegExp :=
  mkRegExp (RPlus true (RChar " ")) true false.

Definition slugify (text : string) : string :=
  Regex.replace re_spaces (fun _ => "-")
    (Regex.replace re_not_word_or_space (fun _ => "")
       (Str.toLowerCase text)).



(* ================================================================== *)
(** * Numbers *)
(* ================================================================== *)

Module Num.

(** A Number: an IEEE 754 binary64 value, with one NaN. *)
Definition number : Type := spec_float.

Definition prec : Z := 53.
Definition emax : Z := 1024.

Definition NaN : number := S754_nan.
Definition zero : number := S754_zero false.
Definition infinity (negative : bool) : number := S754_infinity negative.

(** [isNaN(x)] *)
Definition isNaN (x : number) : bool :=
  match x with S754_nan => true | _ => false end.

Definition is_zero (x : number) : bool :=
  match x with S754_zero _ => true | _ => false end.

(** The Number nearest to [m * 10^e], ties to even, for a natural [m];
    [negative] is the sign, kept on a zero. *)
Definition of_decimal (negative : bool) (m : N) (e : Z) : number :=
  match m with
  | N0 => S754_zero negative
  | Npos p =>
      match e with
      | Zneg d =>
          let '(q, e', l) :=
            SFdiv_core_binary prec emax (Zpos p) 0 (Z.pow_pos 10 d) 0 in
          binary_round_aux prec emax negative q e' l
      | _ => binary_normalize prec emax
               (cond_Zopp negative (Zpos p * 10 ^ e)) 0 negative
      end
  end.

(** The Number of an integer. *)
Definition of_Z (z : Z) : number :=
  of_decimal (Z.ltb z 0) (Z.abs_N z) 0.

Definition digit_value (c : ascii) : N := Char.code c - 48.

(** The value of a string of decimal digits, read after [acc]. *)
Fixpoint digits_value (acc : N) (s : string) : N :=
  match s with
  | EmptyString => acc
  | String c s' => digits_value (10 * acc + digit_value c) s'
  end.

(** The leading characters of [s] that satisfy [p]. *)
Fixpoint take_while (p : ascii -> bool) (s : string) : string :=
  match s with
  | String c s' => if p c then String c (take_while p s') else EmptyString
  | EmptyString => EmptyString
  end.

Fixpoint drop_while (p : ascii -> bool) (s : string) : string :=
  match s with
  | String c s' => if p c then drop_while p s' else s
  | EmptyString => EmptyString
  end.

(** An optional sign: whether it is a minus, and what follows it. *)
Definition read_sign (s : string) : bool * string :=
  match s with
  | String c s' =>
      if Ascii.eqb c "-" then (true, s')
      else if Ascii.eqb c "+" then (false, s')
      else (false, s)
  | EmptyString => (false, s)
  end.

(** The value of the longest run of decimal digits at the front of [body],
    NaN without a digit. *)
Definition integer_literal (negative : bool) (body : string) : number :=
  match take_while Char.is_digit body with
  | EmptyString => NaN
  | z => of_decimal negative (digits_value 0 z) 0
  end.

(** [parseInt(s, 10)]: leading white space is skipped, a sign is read,
    then the longest run of decimal digits; without a digit the result
    is NaN, and what follows the digits is ignored. *)
Definition parseInt10 (s : string) : number :=
  let '(negative, body) := read_sign (Str.trimStart s) in
  integer_literal negative body.

(** [s.startsWith(p)] *)
Fixpoint starts_with (p s : string) : bool :=
  match p, s with
  | EmptyString, _ => true
  | String a p', String b s' => (Ascii.eqb a b && starts_with p' s')%bool
  | String _ _, EmptyString => false
  end.

(** An ExponentPart at the front of [s]: [e] or [E], an optional sign and
    at least one digit; its value, or 0 when there is none. *)
Definition read_exponent (s : string) : Z :=
  match s with
  | String c s' =>
      if (Ascii.eqb c "e" || Ascii.eqb c "E")%bool then
        let '(negative, body) := read_sign s' in
        match take_while Char.is_digit body with
        | EmptyString => 0%Z
        | ds => cond_Zopp negative (Z.of_N (digits_value 0 ds))
        end
      else 0%Z
  | EmptyString => 0%Z
  end.

(** The value of a StrUnsignedDecimalLiteral at the front of [body], other
    than [Infinity]: digits, a dot and digits (one of the two runs of
    digits may be missing, not both), and an exponent part. *)
Definition decimal_literal (negative : bool) (body : string) : number :=
  let int_part := take_while Char.is_digit body in
  let after_int := drop_while Char.is_digit body in
  let has_dot := match after_int with
                 | String c _ => Ascii.eqb c "."
                 | EmptyString => false
                 end in
  let after_dot := Str.drop 1 after_int in
  let frac := if has_dot then take_while Char.is_digit after_dot else EmptyString in
  let after_frac := if has_dot then drop_while Char.is_digit after_dot else after_int in
  match int_part ++ frac with
  | EmptyString => NaN
  | digits => of_decimal negative (digits_value 0 digits)
                         (read_exponent after_frac - Z.of_nat (String.length frac))
  end.

(** The value of a StrUnsignedDecimalLiteral at the front of [body]. *)
Definition unsigned_literal (negative : bool) (body : string) : number :=
  if starts_with "Infinity" body then infinity negative
  else decimal_literal negative body.

(** [parseFloat(s)]: the value of the longest prefix of the trimmed
    string that is a StrDecimalLiteral, NaN when there is none. *)
Definition parseFloat (s : string) : number :=
  let '(negative, body) := read_sign (Str.trimStart s) in
  unsigned_literal negative body.

(** ** [Number::toString] *)

Definition same (x y : number) : bool :=
  match x, y with
  | S754_zero a, S754_zero b => Bool.eqb a b
  | S754_infinity a, S754_infinity b => Bool.eqb a b
  | S754_nan, S754_nan => true
  | S754_finite a m e, S754_finite b m' e' =>
      (Bool.eqb a b && Pos.eqb m m' && Z.eqb e e')%bool
  | _, _ => false
  end.

(** [num / den < 10^n] for positive [num] and [den]. *)
Definition below_pow10 (num den n : Z) : bool :=
  match n with
  | Zneg d => Z.ltb (num * Z.pow_pos 10 d) den
  | _ => Z.ltb num (den * 10 ^ n)
  end.

(** The least [n] from [n] on with [num / den < 10^n]. *)
Fixpoint decade (fuel : nat) (num den n : Z) : Z :=
  match fuel with
  | O => n
  | S fuel' => if below_pow10 num den n then n else decade fuel' num den (n + 1)
  end.

(** [floor (num / den * 10^e)] and whether twice the remainder is below,
    at or above the divisor. *)
Definition scaled (num den e : Z) : Z * comparison :=
  let '(a, b) := match e with
                 | Zneg d => (num, (den * Z.pow_pos 10 d)%Z)
                 | _ => ((num * 10 ^ e)%Z, den)
                 end in
  ((a / b)%Z, Z.compare (2 * (a mod b)) b).

(** The digits [s] and the exponent [n] of the shortest decimal
    [s * 10^(n-k)] that reads back as [x], searched from [k] digits on. *)
Fixpoint shortest (fuel : nat) (x : number) (num den n0 : Z) (k : Z) : Z * Z :=
  let '(lo, half) := scaled num den (k - n0) in
  let hi := (lo + 1)%Z in
  let ok (s : Z) := same (of_decimal false (Z.to_N s) (n0 - k)) x in
  let pick (s : Z) := if Z.eqb s (10 ^ k) then ((s / 10)%Z, (n0 + 1)%Z) else (s, n0) in
  let lo_ok := (Z.leb (10 ^ (k - 1)) lo && ok lo)%bool in
  match fuel with
  | O => pick lo
  | S fuel' =>
      match lo_ok, ok hi with
      | true, true =>
          match half with
          | Lt => pick lo
          | Gt => pick hi
          | Eq => if Z.even lo then pick lo else pick hi
          end
      | true, false => pick lo
      | false, true => pick hi
      | false, false => shortest fuel' x num den n0 (k + 1)
      end
  end.

Definition digits_of (z : Z) : string := NilEmpty.string_of_uint (N.to_uint (Z.to_N z)).

Fixpoint zeros (n : nat) : string :=
  match n with O => EmptyString | S n' => String "0" (zeros n') end.

Definition format (s n : Z) : string :=
  let ds := digits_of s in
  let k := Z.of_nat (String.length ds) in
  if (Z.leb k n && Z.leb n 21)%bool then ds ++ zeros (Z.to_nat (n - k))
  else if (Z.ltb 0 n && Z.leb n 21)%bool then
    Str.take (Z.to_nat n) ds ++ "." ++ Str.drop (Z.to_nat n) ds
  else if (Z.ltb (-6) n && Z.leb n 0)%bool then
    "0." ++ zeros (Z.to_nat (- n)) ++ ds
  else
    let e := (n - 1)%Z in
    let exponent := (if Z.ltb e 0 then "-" else "+") ++ digits_of (Z.abs e) in
    if Z.eqb k 1 then ds ++ "e" ++ exponent
    else Str.take 1 ds ++ "." ++ Str.drop 1 ds ++ "e" ++ exponent.

(** [String(x)] for a Number. *)
Definition toString (x : number) : string :=
  match x with
  | S754_nan => "NaN"
  | S754_zero _ => "0"
  | S754_infinity negative => if negative then "-Infinity" else "Infinity"
  | S754_finite negative m e =>
      let '(num, den) := match e with
                         | Zneg d => (Zpos m, Z.pow_pos 2 d)
                         | _ => ((Zpos m * 2 ^ e)%Z, 1%Z)
                         end in
      let n0 := decade 700 num den (-330) in
      let '(s, n) := shortest 17 (S754_finite false m e) num den n0 1 in
      (if negative then "-" else "") ++ format s n
  end.

End Num.

(* ================================================================== *)
(** * Values and exceptions *)
(* ================================================================== *)

Unset Elimination Schemes.

Inductive value : Type :=
| VUndefined
| VNull
| VBool (b : bool)
| VNum (x : Num.number)
| VStr (s : string)
| VArr (items : list value)
| VObj (props : list (string * value)).

Set Elimination Schemes.

(** Induction on a value, with the items of an array and the values of the
    properties of an object as smaller values. *)
Section ValueInduction.

Variable P : value -> Prop.
Hypothesis H_undefined : P VUndefined.
Hypothesis H_null : P VNull.
Hypothesis H_bool : forall b, P (VBool b).
Hypothesis H_num : forall x, P (VNum x).
Hypothesis H_str : forall s, P (VStr s).
Hypothesis H_arr : forall items, Forall P items -> P (VArr items).
Hypothesis H_obj : forall props, Forall (fun kv => P (snd kv)) props -> P (VObj props).

Fixpoint value_ind (v : value) : P v :=
  match v with
  | VUndefined => H_undefined
  | VNull => H_null
  | VBool b => H_bool b
  | VNum x => H_num x
  | VStr s => H_str s
  | VArr items =>
      H_arr items
        ((fix all (xs : list value) : Forall P xs :=
            match xs with
            | [] => Forall_nil P
            | x :: xs' => Forall_cons x (value_ind x) (all xs')
            end) items)
  | VObj props =>
      H_obj props
        ((fix all (xs : list (string * value)) : Forall (fun kv => P (snd kv)) xs :=
            match xs with
            | [] => Forall_nil _
            | kv :: xs' => Forall_cons kv (value_ind (snd kv)) (all xs')
            end) props)
  end.

End ValueInduction.

(** The exceptions this program can raise. *)
Inductive error : Type :=
| TypeError (message : string)
| SyntaxError (message : string)
| RangeError (message : string).

(** The outcome of a call: a returned value or a thrown exception.
    [Unmodelled] marks a call whose pattern lies outside the pattern syntax
    of the model; nothing is stated about such a call. *)
Inductive result (A : Type) : Type :=
| Ok (a : A)
| Throw (e : error)
| Unmodelled.

Arguments Ok {A} a.
Arguments Throw {A} e.
Arguments Unmodelled {A}.

Definition bind {A B : Type} (m : result A) (f : A -> result B) : result B :=
  match m with
  | Ok a => f a
  | Throw e => Throw e
  | Unmodelled => Unmodelled
  end.

Notation "x <- m ;; k" := (bind m (fun x => k))
  (at level 61, m at next level, right associativity).

(** [xs.map(f)] for a callback that may throw. *)
Fixpoint mapM {A B : Type} (f : A -> result B) (xs : list A) : result (list B) :=
  match xs with
  | [] => Ok []
  | x :: xs' => y <- f x ;; ys <- mapM f xs' ;; Ok (y :: ys)
  end.

Module Val.

Inductive type_name : Type :=
| TUndefined | TObject | TBoolean | TNumber | TString.

(** [typeof v] *)
Definition typeof (v : value) : type_name :=
  match v with
  | VUndefined => TUndefined
  | VNull => TObject
  | VBool _ => TBoolean
  | VNum _ => TNumber
  | VStr _ => TString
  | VArr _ => TObject
  | VObj _ => TObject
  end.

Definition type_eqb (a b : type_name) : bool :=
  match a, b with
  | TUndefined, TUndefined | TObject, TObject | TBoolean, TBoolean
  | TNumber, TNumber | TString, TString => true
  | _, _ => false
  end.

(** [Boolean(v)], the test of [if (v)] and [!v]. *)
Definition truthy (v : value) : bool :=
  match v with
  | VUndefined | VNull => false
  | VBool b => b
  | VNum x => negb (Num.is_zero x || Num.isNaN x)
  | VStr s => negb (Str.is_empty s)
  | VArr _ | VObj _ => true
  end.

(** [v === undefined] *)
Definition is_undefined (v : value) : bool :=
  match v with VUndefined => true | _ => false end.

(** [v === null] *)
Definition is_null (v : value) : bool :=
  match v with VNull => true | _ => false end.

(** [Array.isArray(v)] *)
Definition isArray (v : value) : bool :=
  match v with VArr _ => true | _ => false end.

(** The decimal numeral of a natural number. *)
Definition nat_to_string (n : nat) : string :=
  NilEmpty.string_of_uint (Nat.to_uint n).

(** The array index a property key denotes, when it is the canonical
    numeral of one. *)
Definition index_of_key (key : string) : option nat :=
  match NilEmpty.uint_of_string key with
  | Some u => let n := Nat.of_uint u in
              if String.eqb (nat_to_string n) key then Some n else None
  | None => None
  end.

Fixpoint lookup (key : string) (props : list (string * value)) : option value :=
  match props with
  | [] => None
  | (k, v) :: props' => if String.eqb k key then Some v else lookup key props'
  end.

Definition or_undefined (o : option value) : value :=
  match o with Some v => v | None => VUndefined end.

(** [o[key]]: reading a property throws on [null] and [undefined]; an
    object has its own properties, an array and a string their indices
    and [length]; any other read gives [undefined].  The properties that a
    value inherits from its prototype ([toString], [constructor] and the
    like) are built-in functions and objects, which the values of the
    model do not have: a read of such a name that finds no own property is
    outside the model. *)
Definition get (o : value) (key : string) : result value :=
  match o with
  | VUndefined | VNull =>
      Throw (TypeError "Cannot read properties of null or undefined")
  | VObj props => Ok (or_undefined (lookup key props))
  | VArr items =>
      if String.eqb key "length" then Ok (VNum (Num.of_Z (Z.of_nat (List.length items))))
      else match index_of_key key with
           | Some i => Ok (or_undefined (nth_error items i))
           | None => Ok VUndefined
           end
  | VStr s =>
      if String.eqb key "length" then Ok (VNum (Num.of_Z (Z.of_nat (String.length s))))
      else match index_of_key key with
           | Some i => match String.get i s with
                       | Some c => Ok (VStr (String c EmptyString))
                       | None => Ok VUndefined
                       end
           | None => Ok VUndefined
           end
  | VBool _ | VNum _ => Ok VUndefined
  end.

Fixpoint indexed {A : Type} (i : nat) (xs : list A) : list (string * A) :=
  match xs with
  | [] => []
  | x :: xs' => (nat_to_string i, x) :: indexed (S i) xs'
  end.

(** [Object.entries(o)] *)
Definition entries (o : value) : list (string * value) :=
  match o with
  | VObj props => props
  | VArr items => indexed 0 items
  | VStr s => indexed 0 (List.map (fun c => VStr (String c EmptyString))
                                  (list_ascii_of_string s))
  | _ => []
  end.

(** [Object.keys(o)] *)
Definition keys (o : value) : list string := List.map fst (entries o).

(** [xs.flat()]: one level of nesting is removed. *)
Fixpoint flat (xs : list value) : list value :=
  match xs with
  | [] => []
  | VArr items :: xs' => items ++ flat xs'
  | x :: xs' => x :: flat xs'
  end.

(** [String(v)] *)
Fixpoint toString (v : value) : string :=
  match v with
  | VUndefined => "undefined"
  | VNull => "null"
  | VBool b => if b then "true" else "false"
  | VNum x => Num.toString x
  | VStr s => s
  | VArr items =>
      Str.join "," (List.map (fun item =>
                                match item with
                                | VUndefined | VNull => EmptyString
                                | _ => toString item
                                end) items)
  | VObj _ => "[object Object]"
  end.

End Val.

(* ================================================================== *)
(** * resolveObjectPath *)
(* ================================================================== *)

(** The inner function [traverse(current, keyLeft)].  A call on an element
    of an array keeps [keyLeft] and a call on a property value drops its
    first key, so the recursion is on [keyLeft] and, within, on [current].
    A tree is finite and this version has no call stack; the version over
    the store, [Store.traverse], counts the frames and ends with the
    RangeError of a full stack. *)
Fixpoint traverse (current : value) (keyLeft : list string) {struct keyLeft} : result value :=
  (fix on_node (current : value) {struct current} : result value :=
     match current with
     | VNull | VUndefined => Ok VUndefined
     | VArr items =>
         (* Handle array of objects *)
         mapped <- mapM on_node items ;;
         let results := List.filter Val.truthy mapped in
         Ok (if Nat.eqb (List.length results) 0 then VUndefined
             else VArr (Val.flat results))
     | _ =>
         match keyLeft with
         | firstKey :: restKeys =>
             next <- Val.get current firstKey ;;
             if Val.is_undefined next then Ok VUndefined
             else if Nat.eqb (List.length restKeys) 0 then Ok next
             else traverse next restKeys
         | [] =>
             (* destructuring an empty list: firstKey is undefined *)
             next <- Val.get current "undefined" ;;
             if Val.is_undefined next then Ok VUndefined else Ok next
         end
     end) current.

Definition resolveObjectPath (data : value) (path : string) : result value :=
  if negb (Val.truthy data) then Ok VUndefined
  else if negb (Val.truthy (VStr path)) then Ok data
  else
    let keys := Str.split "." path in
    if existsb (fun key => negb (Val.truthy (VStr key))) keys
    then Ok VUndefined (* Invalid path format check *)
    else traverse data keys.

(* ================================================================== *)
(** * Compiling a pattern: [new RegExp(pattern, flags)] *)
(* ================================================================== *)

(** The pattern syntax of the model: pattern characters, [.], the escapes
    of a syntax character or another character that is not a letter or a
    digit, the class escapes [\d \D \w \W \s \S], the control escapes
    [\t \n \v \f \r], groups [( )] and [(?: )], alternation and the
    quantifiers [*], [+], [?] with their lazy forms.  Character classes,
    assertions, braced quantifiers, look-around, named groups and the other
    escapes are valid or not by rules the model does not have: a pattern
    that uses one compiles to [Unmodelled]. *)

Module Pattern.

(** The disjunction under construction inside one group: the finished
    alternatives and the terms of the current one, both latest first. *)
Record frame : Type := mkFrame {
  alts : list regex;
  terms : list regex
}.

Definition empty_frame : frame := mkFrame [] [].

(** What a quantifier could apply to at this point. *)
Inductive quantifiable : Type :=
| Nothing          (* no atom precedes: a quantifier has nothing to repeat *)
| AnAtom           (* an atom precedes *)
| AGreedy.         (* a quantified atom precedes: [?] makes it lazy *)

Definition seq_of (ts : list regex) : regex := fold_right RSeq REmpty ts.

Fixpoint alt_of (a : regex) (rest : list regex) : regex :=
  match rest with
  | [] => a
  | b :: rest' => RAlt a (alt_of b rest')
  end.

(** The disjunction a frame holds, alternatives in source order. *)
Definition close (f : frame) : regex :=
  match rev (seq_of (rev (terms f)) :: alts f) with
  | [] => REmpty
  | a :: rest => alt_of a rest
  end.

Definition push_term (t : regex) (f : frame) : frame :=
  mkFrame (alts f) (t :: terms f).

Definition quantify (q : ascii) (t : regex) : regex :=
  if Ascii.eqb q "*" then RStar true t
  else if Ascii.eqb q "+" then RPlus true t
  else ROpt true t.

Definition make_lazy (t : regex) : regex :=
  match t with
  | RStar _ r => RStar false r
  | RPlus _ r => RPlus false r
  | ROpt _ r => ROpt false r
  | _ => t
  end.

Definition is_quantifier (c : ascii) : bool :=
  (Ascii.eqb c "*" || Ascii.eqb c "+" || Ascii.eqb c "?")%bool.

Definition is_alphanumeric (c : ascii) : bool :=
  (Char.is_lower c || Char.is_upper c || Char.is_digit c)%bool.

(** The atom of an escape [\c], when the model has it. *)
Definition escape_atom (c : ascii) : option regex :=
  if Ascii.eqb c "d" then Some (RClass false [CDigit])
  else if Ascii.eqb c "D" then Some (RClass false [CNotDigit])
  else if Ascii.eqb c "w" then Some (RClass false [CWord])
  else if Ascii.eqb c "W" then Some (RClass false [CNotWord])
  else if Ascii.eqb c "s" then Some (RClass false [CSpace])
  else if Ascii.eqb c "S" then Some (RClass false [CNotSpace])
  else if Ascii.eqb c "t" then Some (RChar (ascii_of_nat 9))
  else if Ascii.eqb c "n" then Some (RChar (ascii_of_nat 10))
  else if Ascii.eqb c "v" then Some (RChar (ascii_of_nat 11))
  else if Ascii.eqb c "f" then Some (RChar (ascii_of_nat 12))
  else if Ascii.eqb c "r" then Some (RChar (ascii_of_nat 13))
  else if is_alphanumeric c then None
  else Some (RChar c).

(** Syntax characters whose rules the model does not have. *)
Definition beyond (c : ascii) : bool :=
  (Ascii.eqb c "[" || Ascii.eqb c "^" || Ascii.eqb c "$" || Ascii.eqb c "{")%bool.

(** One pass over the pattern.  [stack] holds the frames of the enclosing
    groups, innermost first, [cur] the frame of the group being read. *)
Fixpoint parse (p : string) (stack : list frame) (cur : frame)
         (q : quantifiable) {struct p} : result regex :=
  match p with
  | EmptyString =>
      match stack with
      | [] => Ok (close cur)
      | _ :: _ => Throw (SyntaxError "Unterminated group")
      end
  | String c p' =>
      if is_quantifier c then
        match q, terms cur with
        | AnAtom, t :: ts =>
            parse p' stack (mkFrame (alts cur) (quantify c t :: ts)) AGreedy
        | AGreedy, t :: ts =>
            if Ascii.eqb c "?"
            then parse p' stack (mkFrame (alts cur) (make_lazy t :: ts)) Nothing
            else Throw (SyntaxError "Nothing to repeat")
        | _, _ => Throw (SyntaxError "Nothing to repeat")
        end
      else if Ascii.eqb c "(" then
        match p' with
        | String "?" (String ":" p'') => parse p'' (cur :: stack) empty_frame Nothing
        | String "?" _ => Unmodelled
        | _ => parse p' (cur :: stack) empty_frame Nothing
        end
      else if Ascii.eqb c ")" then
        match stack with
        | [] => Throw (SyntaxError "Unmatched ')'")
        | outer :: stack' =>
            parse p' stack' (push_term (RGroup (close cur)) outer) AnAtom
        end
      else if Ascii.eqb c "|" then
        parse p' stack (mkFrame (seq_of (rev (terms cur)) :: alts cur) []) Nothing
      else if Ascii.eqb c "\" then
        match p' with
        | EmptyString => Throw (SyntaxError "\\ at end of pattern")
        | String e p'' =>
            match escape_atom e with
            | Some t => parse p'' stack (push_term t cur) AnAtom
            | None => Unmodelled
            end
        end
      else if Ascii.eqb c "." then parse p' stack (push_term RAny cur) AnAtom
      else if beyond c then Unmodelled
      else parse p' stack (push_term (RChar c) cur) AnAtom
  end.

Definition has_flag (f : ascii) (flags : string) : bool :=
  existsb (Ascii.eqb f) (list_ascii_of_string flags).

(** [new RegExp(pattern, flags)] for flags among [g] and [i]. *)
Definition RegExp_new (pattern flags : string) : result RegExp :=
  r <- parse pattern [] empty_frame Nothing ;;
  Ok (mkRegExp r (has_flag "g" flags) (has_flag "i" flags)).

End Pattern.

(* ================================================================== *)
(** * extractNumber *)
(* ================================================================== *)

(** The options of [extractNumber]; [None] is a field left out. *)
Record ExtractNumberOptions : Type := mkExtractNumberOptions {
  allowDecimals : option bool;
  allowNegative : option bool;
  defaultValue : option Num.number
}.

Definition default {A : Type} (d : A) (o : option A) : A :=
  match o with Some a => a | None => d end.

Definition extractNumber (str : value) (options : ExtractNumberOptions) : result Num.number :=
  (* Input validation *)
  match str with
  | VStr str =>
      (* Default options *)
      let allowDecimals := default false (allowDecimals options) in
      let allowNegative := default false (allowNegative options) in
      let defaultValue := default Num.zero (defaultValue options) in
      (* Early return for empty string *)
      if negb (Val.truthy (VStr (Str.trim str))) then Ok defaultValue
      else
        (* Build regex pattern based on options *)
        let pattern :=
          Str.join "" [ (if allowNegative then "-?" else "");
                        "\d+";
                        (if allowDecimals then "(?:\.\d+)?" else "") ] in
        regex <- Pattern.RegExp_new pattern "g" ;;
        match Regex.match_all regex str with
        | None => Ok defaultValue
        | Some matches =>
            (* Join all matches and convert to number *)
            let number := Str.join "" matches in
            let result := if allowDecimals then Num.parseFloat number
                          else Num.parseInt10 number in
            Ok (if Num.isNaN result then defaultValue else result)
        end
  | _ => Throw (TypeError "Input must be a string")
  end.

(* ================================================================== *)
(** * transformEmptyValues *)
(* ================================================================== *)

(** The options of [transformEmptyValues]; [None] is a field left out.
    [isEmptyFn] is a predicate: the truth value of what the callback
    returns. *)
Record ConversionOptions : Type := mkConversionOptions {
  replaceWith : option value;
  trimStrings : option bool;
  processEmptyArrays : option bool;
  isEmptyFn : option (value -> bool)
}.

(** [replaceWith = null]: the default also stands in for [undefined]. *)
Definition replaceWith_of (options : ConversionOptions) : value :=
  match replaceWith options with
  | None | Some VUndefined => VNull
  | Some v => v
  end.

(** The inner function [isEmpty]. *)
Definition isEmpty (options : ConversionOptions) (value : value) : bool :=
  let trimStrings := default true (trimStrings options) in
  let processEmptyArrays := default false (processEmptyArrays options) in
  match isEmptyFn options with
  | Some isEmptyFn => isEmptyFn value
  | None =>
      match value with
      | VStr s =>
          if trimStrings then String.eqb (Str.trim s) "" else String.eqb s ""
      | VArr items =>
          if processEmptyArrays then Nat.eqb (List.length items) 0 else false
      | _ => false
      end
  end.

(** [typeof v === "object" && v !== null] *)
Definition is_object (v : value) : bool :=
  (Val.type_eqb (Val.typeof v) Val.TObject && negb (Val.is_null v))%bool.

(** What both loops do with one element or property value:
    [typeof v === "object" && v !== null ? transformEmptyValues(v, options)
     : isEmpty(v) ? replaceWith : v], with [self] the recursive call. *)
Definition transform_item (self : value -> result value) (options : ConversionOptions)
           (v : value) : result value :=
  if is_object v then self v
  else if isEmpty options v then Ok (replaceWith_of options)
  else Ok v.

(** [for (const [key, value] of Object.entries(input)) result[key] = ...]:
    the keys of an object are distinct, so every assignment adds its key
    after the ones already there.  The one key for which an assignment
    adds no property is [__proto__], which goes to the setter of the
    prototype: an object with that key is outside the model. *)
Fixpoint assign_entries (f : value -> result value) (entries : list (string * value))
         (res : list (string * value)) {struct entries} : result value :=
  match entries with
  | [] => Ok (VObj res)
  | (key, val) :: entries' =>
      v <- f val ;;
      assign_entries f entries' (res ++ [(key, v)])%list
  end.

Fixpoint transformEmptyValues (input : value) (options : ConversionOptions)
         {struct input} : result value :=
  (* Validate input *)
  if (Val.is_null input || negb (Val.type_eqb (Val.typeof input) Val.TObject))%bool
  then Throw (TypeError "Input must be an object or array")
  else
    (* Check if input is empty first *)
    if isEmpty options input then Ok (replaceWith_of options)
    else
      match input with
      | VArr items =>
          (* Handle arrays *)
          mapped <- mapM (transform_item (fun item => transformEmptyValues item options)
                                         options) items ;;
          Ok (VArr mapped)
      | VObj props =>
          (* Handle objects *)
          assign_entries (transform_item (fun val => transformEmptyValues val options)
                                         options) props []
      | _ => Throw (TypeError "Input must be an object or array")
      end.

(* ================================================================== *)
(** * replaceString *)
(* ================================================================== *)

(** The options of [replaceString]; [None] is a field left out. *)
Record ReplaceOptions : Type := mkReplaceOptions {
  opt_ignoreCase : option bool;
  replaceAll : option bool;
  escapeRegex : option bool
}.

(** [{ ...acc, [key]: v }]: a present key keeps its place and takes the new
    value, a new key goes last. *)
Fixpoint assign {A : Type} (key : string) (v : A) (acc : list (string * A))
  : list (string * A) :=
  match acc with
  | [] => [(key, v)]
  | (k, x) :: acc' =>
      if String.eqb k key then (k, v) :: acc' else (k, x) :: assign key v acc'
  end.

(** Convert all values to strings *)
Definition stringReplacements (replacements : value) : list (string * string) :=
  fold_left (fun acc '(key, v) => assign key (Val.toString v) acc)
            (Val.entries replacements) [].

(** [/[.*+?^${}()|[\]\\]/g] *)
Definition re_special : RegExp :=
  mkRegExp
    (RClass false [CChar "."; CChar "*"; CChar "+"; CChar "?"; CChar "^";
                   CChar "$"; CChar "{"; CChar "}"; CChar "("; CChar ")";
                   CChar "|"; CChar "["; CChar "]"; CChar "\"])
    true false.

(** Escape special regex characters if needed: the replacement ["\\$&"] is
    a backslash and the matched text. *)
Definition escapeRegexStr (escapeRegex : bool) (str : string) : string :=
  if escapeRegex then Regex.replace re_special (fun matched => "\" ++ matched) str
  else str.

(** Build the regex pattern *)
Definition pattern_of (escapeRegex : bool) (keys : list string) : string :=
  Str.join "|" (List.map (escapeRegexStr escapeRegex) keys).

(** The replacer callback of the final [text.replace]. *)
Definition replacer (ignoreCase : bool) (stringReplacements : list (string * string))
           (matched : string) : string :=
  (* Handle case sensitivity *)
  let key :=
    if ignoreCase
    then List.find (fun k => String.eqb (Str.toLowerCase k) (Str.toLowerCase matched))
                   (List.map fst stringReplacements)
    else Some matched in
  match key with
  | Some key =>
      if Val.truthy (VStr key) then
        match List.find (fun kv => String.eqb (fst kv) key) stringReplacements with
        | Some (_, v) => v
        | None => "undefined"
        end
      else matched
  | None => matched
  end.

Definition replaceString (text : value) (replacements : value) (options : ReplaceOptions)
  : result string :=
  (* Input validation *)
  match text with
  | VStr text =>
      if (negb (Val.truthy replacements)
          || negb (Val.type_eqb (Val.typeof replacements) Val.TObject))%bool
      then Throw (TypeError "Replacements must be an object")
      else
        (* Early return for empty cases *)
        if (negb (Val.truthy (VStr text))
            || Nat.eqb (List.length (Val.keys replacements)) 0)%bool
        then Ok text
        else
          (* Default options *)
          let ignoreCase := default true (opt_ignoreCase options) in
          let replaceAll := default true (replaceAll options) in
          let escapeRegex := default true (escapeRegex options) in
          let stringReplacements := stringReplacements replacements in
          let pattern := pattern_of escapeRegex (List.map fst stringReplacements) in
          (* Create regex with appropriate flags *)
          let flags := (if replaceAll then "g" else "") ++ (if ignoreCase then "i" else "") in
          regex <- Pattern.RegExp_new pattern flags ;;
          (* Perform replacement *)
          Ok (Regex.replace regex (replacer ignoreCase stringReplacements) text)
  | _ => Throw (TypeError "Input text must be a string")
  end.

(* ================================================================== *)
(** * The vocabulary of the statements *)
(* ================================================================== *)

(** [a-z0-9_-] *)
Definition slug_char (c : ascii) : bool :=
  (Char.is_lower c || Char.is_digit c
   || Ascii.eqb c "_" || Ascii.eqb c "-")%bool.

(** The occurrences of a kind of text in [s], left to right and without
    overlap, where [here] gives the length of the occurrence at the front
    of a string.  A search that finds nothing moves on by one character;
    [fuel] bounds the number of steps and the length of [s] is enough. *)
Fixpoint occurrences (here : string -> option nat) (fuel : nat) (s : string)
  : list string :=
  match fuel with
  | O => []
  | S fuel' =>
      match here s with
      | Some n => Str.take n s :: occurrences here fuel' (Str.drop n s)
      | None =>
          match s with
          | EmptyString => []
          | String _ s' => occurrences here fuel' s'
          end
      end
  end.

(** The length of a decimal fraction at the front of [s]: a dot followed
    by one or more digits. *)
Definition fraction_length (s : string) : nat :=
  match s with
  | String c f =>
      if Ascii.eqb c "." then
        match Str.span Char.is_digit f with
        | O => 0
        | S d => S (S d)
        end
      else 0
  | EmptyString => 0
  end.

(** The length of the number-looking text at the front of [s]: an optional
    minus sign if [allowNegative], one or more digits, and an optional
    decimal fraction if [allowDecimals]. *)
Definition number_length (allowNegative allowDecimals : bool) (s : string) : option nat :=
  let '(sign, body) :=
    match s with
    | String c s' => if (allowNegative && Ascii.eqb c "-")%bool then (1, s') else (0, s)
    | EmptyString => (0, s)
    end in
  match Str.span Char.is_digit body with
  | O => None
  | S d =>
      Some (sign + S d +
            (if allowDecimals then fraction_length (Str.drop (S d) body) else 0))
  end.

(** The pattern [extractNumber] compiles, by its two switches. *)
Definition body_re (allowDecimals : bool) : regex :=
  RSeq (RPlus true (RClass false [CDigit]))
       (if allowDecimals
        then RSeq (ROpt true (RGroup (RSeq (RChar ".")
                                           (RSeq (RPlus true (RClass false [CDigit]))
                                                 REmpty))))
                  REmpty
        else REmpty).

Definition number_re (allowNegative allowDecimals : bool) : regex :=
  if allowNegative then RSeq (ROpt true (RChar "-")) (body_re allowDecimals)
  else body_re allowDecimals.

(** The longest numeric prefix of [t]: the number-looking text at its
    front, where a minus sign may lead. *)
Definition numeric_prefix (allowDecimals : bool) (t : string) : string :=
  match number_length true allowDecimals t with
  | Some n => Str.take n t
  | None => EmptyString
  end.

(** The characters a number-looking text is made of. *)
Definition number_char (c : ascii) : bool :=
  (Char.is_digit c || Ascii.eqb c "-" || Ascii.eqb c ".")%bool.

(** The number-looking texts of [s]. *)
Definition number_texts (allowNegative allowDecimals : bool) (s : string) : list string :=
  occurrences (number_length allowNegative allowDecimals) (String.length s) s.

(** [extractNumber] in the words of its description. *)
Definition extractNumber_spec (str : string) (options : ExtractNumberOptions) : Num.number :=
  let allowDecimals := default false (allowDecimals options) in
  let allowNegative := default false (allowNegative options) in
  let defaultValue := default Num.zero (defaultValue options) in
  if String.eqb (Str.trim str) "" then defaultValue
  else
    match number_texts allowNegative allowDecimals str with
    | [] => defaultValue
    | texts =>
        let number := String.concat "" texts in
        let parsed := if allowDecimals then Num.parseFloat number
                      else Num.parseInt10 number in
        if Num.isNaN parsed then defaultValue else parsed
    end.

(** The characters [escapeRegexStr] escapes: [. * + ? ^ $ { } ( ) | [ ] \]. *)
Definition special (c : ascii) : bool :=
  existsb (Ascii.eqb c)
          ["."; "*"; "+"; "?"; "^"; "$"; "{"; "}"; "("; ")"; "|"; "["; "]"; "\"]%char.

(** A key with a backslash before each of its special characters. *)
Fixpoint escaped (key : string) : string :=
  match key with
  | EmptyString => EmptyString
  | String c key' =>
      if special c then String "\" (String c (escaped key'))
      else String c (escaped key')
  end.

(** The pattern that matches the characters of [key] one after the other. *)
Definition literal (key : string) : regex :=
  Pattern.seq_of (List.map RChar (list_ascii_of_string key)).

(** The alternation of the literal keys, in their order. *)
Definition alternation (keys : list string) : regex :=
  match keys with
  | [] => REmpty
  | key :: keys' => Pattern.alt_of (literal key) (List.map literal keys')
  end.

(** [key] is at the front of [s], letter case aside when [ignoreCase]. *)
Fixpoint at_front (ignoreCase : bool) (key s : string) : bool :=
  match key, s with
  | EmptyString, _ => true
  | String a key', String b s' =>
      (N.eqb (Char.canonicalize ignoreCase a) (Char.canonicalize ignoreCase b)
       && at_front ignoreCase key' s')%bool
  | String _ _, EmptyString => false
  end.

(** The first key, in the order of the map, that is at the front of [s]. *)
Definition first_key (ignoreCase : bool) (keys : list string) (s : string) : option string :=
  List.find (fun key => at_front ignoreCase key s) keys.

(* ================================================================== *)
(** * The five functions over a store *)
(* ================================================================== *)

(** In the program an array or an object is held by reference and can be
    changed in place.  This second embedding keeps them in a store, so that
    what a call reads, allocates and writes is explicit.  A call that runs
    deeper than [fuel] nested calls ends with the RangeError of a full call
    stack. *)

Module Store.

(** A value as a variable holds it: a primitive or a reference. *)
Inductive rvalue : Type :=
| RUndefined
| RNull
| RBool (b : bool)
| RNum (x : Num.number)
| RStr (s : string)
| RRef (l : nat).

Inductive object : Type :=
| OArr (items : list rvalue)
| OObj (props : list (string * rvalue)).

(** The store: the object at each address. *)
Definition heap : Type := list object.

(** A computation: from a store to an outcome and the store it leaves, also
    when it throws. *)
Definition M (A : Type) : Type := heap -> result A * heap.

Definition ret {A : Type} (a : A) : M A := fun h => (Ok a, h).

Definition throw {A : Type} (e : error) : M A := fun h => (Throw e, h).

Definition bind {A B : Type} (m : M A) (k : A -> M B) : M B :=
  fun h =>
    match m h with
    | (Ok a, h') => k a h'
    | (Throw e, h') => (Throw e, h')
    | (Unmodelled, h') => (Unmodelled, h')
    end.

Notation "x <~ m ;; k" := (bind m (fun x => k))
  (at level 61, m at next level, right associativity).

(** A new object, at the first free address. *)
Definition alloc (o : object) : M rvalue :=
  fun h => (Ok (RRef (List.length h)), (h ++ [o])%list).

(** The object at an address. *)
Definition load (l : nat) : M object :=
  fun h =>
    match nth_error h l with
    | Some o => (Ok o, h)
    | None => (Unmodelled, h)
    end.

Fixpoint set_nth (l : nat) (o : object) (h : heap) : heap :=
  match l, h with
  | O, _ :: h' => o :: h'
  | S l', x :: h' => x :: set_nth l' o h'
  | _, [] => []
  end.

(** The object at an address is replaced. *)
Definition store (l : nat) (o : object) : M unit :=
  fun h => (Ok tt, set_nth l o h).

Fixpoint mapM {A B : Type} (f : A -> M B) (xs : list A) : M (list B) :=
  match xs with
  | [] => ret []
  | x :: xs' => y <~ f x ;; ys <~ mapM f xs' ;; ret (y :: ys)
  end.

(** ** Values *)

Definition typeof (v : rvalue) : Val.type_name :=
  match v with
  | RUndefined => Val.TUndefined
  | RNull => Val.TObject
  | RBool _ => Val.TBoolean
  | RNum _ => Val.TNumber
  | RStr _ => Val.TString
  | RRef _ => Val.TObject
  end.

Definition truthy (v : rvalue) : bool :=
  match v with
  | RUndefined | RNull => false
  | RBool b => b
  | RNum x => negb (Num.is_zero x || Num.isNaN x)
  | RStr s => negb (Str.is_empty s)
  | RRef _ => true
  end.

Definition is_undefined (v : rvalue) : bool :=
  match v with RUndefined => true | _ => false end.

Definition is_null (v : rvalue) : bool :=
  match v with RNull => true | _ => false end.

Definition is_object (v : rvalue) : bool :=
  (Val.type_eqb (typeof v) Val.TObject && negb (is_null v))%bool.

(** [Array.isArray(v)] *)
Definition isArray (v : rvalue) : M bool :=
  match v with
  | RRef l => o <~ load l ;; ret (match o with OArr _ => true | OObj _ => false end)
  | _ => ret false
  end.

Fixpoint lookup (key : string) (props : list (string * rvalue)) : option rvalue :=
  match props with
  | [] => None
  | (k, v) :: props' => if String.eqb k key then Some v else lookup key props'
  end.

Definition or_undefined (o : option rvalue) : rvalue :=
  match o with Some v => v | None => RUndefined end.

(** [o[key]] *)
Definition get (o : rvalue) (key : string) : M rvalue :=
  match o with
  | RUndefined | RNull =>
      throw (TypeError "Cannot read properties of null or undefined")
  | RRef l =>
      obj <~ load l ;;
      match obj with
      | OObj props => ret (or_undefined (lookup key props))
      | OArr items =>
          if String.eqb key "length"
          then ret (RNum (Num.of_Z (Z.of_nat (List.length items))))
          else match Val.index_of_key key with
               | Some i => ret (or_undefined (nth_error items i))
               | None => ret RUndefined
               end
      end
  | RStr s =>
      if String.eqb key "length" then ret (RNum (Num.of_Z (Z.of_nat (String.length s))))
      else match Val.index_of_key key with
           | Some i => match String.get i s with
                       | Some c => ret (RStr (String c EmptyString))
                       | None => ret RUndefined
                       end
           | None => ret RUndefined
           end
  | RBool _ | RNum _ => ret RUndefined
  end.

(** What [flat] puts in place of one element: the elements of an array,
    any other value as it is. *)
Definition spread (v : rvalue) (h : heap) : list rvalue :=
  match v with
  | RRef l => match nth_error h l with
              | Some (OArr inner) => inner
              | _ => [v]
              end
  | _ => [v]
  end.

(** [xs.flat()], into a new array. *)
Definition flat (xs : list rvalue) : M rvalue :=
  fun h => alloc (OArr (List.concat (List.map (fun x => spread x h) xs))) h.

(** ** resolveObjectPath *)

(** [traverse(current, keyLeft)].  The arrays that [map], [filter] and
    [flat] return are new objects; the lists of keys are not kept in the
    store. *)
Fixpoint traverse (fuel : nat) (current : rvalue) (keyLeft : list string)
         {struct fuel} : M rvalue :=
  match fuel with
  | O => throw (RangeError "Maximum call stack size exceeded")
  | S fuel' =>
      if (is_null current || is_undefined current)%bool then ret RUndefined
      else
        isArr <~ isArray current ;;
        if isArr then
          (* Handle array of objects *)
          items <~ (match current with
                    | RRef l => o <~ load l ;;
                                ret (match o with OArr items => items | OObj _ => [] end)
                    | _ => ret []
                    end) ;;
          mapped <~ mapM (fun item => traverse fuel' item keyLeft) items ;;
          _ <~ alloc (OArr mapped) ;;
          let results := List.filter truthy mapped in
          _ <~ alloc (OArr results) ;;
          if Nat.eqb (List.length results) 0 then ret RUndefined
          else flat results
        else
          match keyLeft with
          | firstKey :: restKeys =>
              next <~ get current firstKey ;;
              if is_undefined next then ret RUndefined
              else if Nat.eqb (List.length restKeys) 0 then ret next
              else traverse fuel' next restKeys
          | [] =>
              next <~ get current "undefined" ;;
              if is_undefined next then ret RUndefined else ret next
          end
  end.

Definition resolveObjectPath (fuel : nat) (data : rvalue) (path : string) : M rvalue :=
  if negb (truthy data) then ret RUndefined
  else if negb (truthy (RStr path)) then ret data
  else
    let keys := Str.split "." path in
    if existsb (fun key => negb (truthy (RStr key))) keys
    then ret RUndefined
    else traverse fuel data keys.

(** ** transformEmptyValues *)

(** The options of [transformEmptyValues].  [isEmptyFn] looks at a value
    and at the store and answers; it changes nothing. *)
Record ConversionOptions : Type := mkConversionOptions {
  replaceWith : option rvalue;
  trimStrings : option bool;
  processEmptyArrays : option bool;
  isEmptyFn : option (heap -> rvalue -> bool)
}.

Definition replaceWith_of (options : ConversionOptions) : rvalue :=
  match replaceWith options with
  | None | Some RUndefined => RNull
  | Some v => v
  end.

Definition isEmpty (options : ConversionOptions) (v : rvalue) : M bool :=
  let trimStrings := default true (trimStrings options) in
  let processEmptyArrays := default false (processEmptyArrays options) in
  match isEmptyFn options with
  | Some isEmptyFn => fun h => (Ok (isEmptyFn h v), h)
  | None =>
      match v with
      | RStr s =>
          ret (if trimStrings then String.eqb (Str.trim s) "" else String.eqb s "")
      | RRef l =>
          if processEmptyArrays then
            o <~ load l ;;
            ret (match o with
                 | OArr items => Nat.eqb (List.length items) 0
                 | OObj _ => false
                 end)
          else ret false
      | _ => ret false
      end
  end.

Definition transform_item (self : rvalue -> M rvalue) (options : ConversionOptions)
           (v : rvalue) : M rvalue :=
  if is_object v then self v
  else
    empty <~ isEmpty options v ;;
    if empty then ret (replaceWith_of options) else ret v.

(** [result[key] = v] on the object at [l]. *)
Definition set_prop (l : nat) (key : string) (v : rvalue) : M unit :=
  o <~ load l ;;
  match o with
  | OObj props => store l (OObj (assign key v props))
  | OArr _ => fun h => (Unmodelled, h)
  end.

(** The loop over the entries, assigning into the object at [res]. *)
Fixpoint assign_entries (f : rvalue -> M rvalue) (entries : list (string * rvalue))
         (res : nat) {struct entries} : M rvalue :=
  match entries with
  | [] => ret (RRef res)
  | (key, val) :: entries' =>
      v <~ f val ;;
      _ <~ set_prop res key v ;;
      assign_entries f entries' res
  end.

Fixpoint transformEmptyValues (fuel : nat) (input : rvalue) (options : ConversionOptions)
         {struct fuel} : M rvalue :=
  match fuel with
  | O => throw (RangeError "Maximum call stack size exceeded")
  | S fuel' =>
      match input with
      | RRef l =>
          empty <~ isEmpty options input ;;
          if empty then ret (replaceWith_of options)
          else
            o <~ load l ;;
            let item := transform_item
                          (fun v => transformEmptyValues fuel' v options) options in
            match o with
            | OArr items =>
                mapped <~ mapM item items ;;
                alloc (OArr mapped)
            | OObj props =>
                res <~ alloc (OObj []) ;;
                match res with
                | RRef r => assign_entries item props r
                | _ => ret res
                end
            end
      | _ => throw (TypeError "Input must be an object or array")
      end
  end.

(** ** replaceString *)

(** [Object.entries(o)] *)
Definition entries (o : rvalue) : M (list (string * rvalue)) :=
  match o with
  | RRef l =>
      obj <~ load l ;;
      ret (match obj with
           | OObj props => props
           | OArr items => Val.indexed 0 items
           end)
  | RStr s => ret (Val.indexed 0 (List.map (fun c => RStr (String c EmptyString))
                                           (list_ascii_of_string s)))
  | _ => ret []
  end.

(** [String(v)] for the values a replacement map holds: strings, numbers
    and booleans. *)
Definition toString (v : rvalue) : M string :=
  match v with
  | RUndefined => ret "undefined"
  | RNull => ret "null"
  | RBool b => ret (if b then "true" else "false")
  | RNum x => ret (Num.toString x)
  | RStr s => ret s
  | RRef _ => fun h => (Unmodelled, h)
  end.

(** The [reduce] that converts all values to strings: every step spreads
    the accumulator into a new object. *)
Fixpoint stringReplacements (entries : list (string * rvalue))
         (acc : list (string * rvalue)) {struct entries} : M (list (string * rvalue)) :=
  match entries with
  | [] => ret acc
  | (key, v) :: entries' =>
      s <~ toString v ;;
      let acc' := assign key (RStr s) acc in
      _ <~ alloc (OObj acc') ;;
      stringReplacements entries' acc'
  end.

Definition strings_of (props : list (string * rvalue)) : list (string * string) :=
  List.map (fun kv => (fst kv, match snd kv with RStr s => s | _ => EmptyString end)) props.

Definition replaceString (text : rvalue) (replacements : rvalue) (options : ReplaceOptions)
  : M string :=
  match text with
  | RStr text =>
      if (negb (truthy replacements)
          || negb (Val.type_eqb (typeof replacements) Val.TObject))%bool
      then throw (TypeError "Replacements must be an object")
      else
        keys <~ entries replacements ;;
        if (negb (truthy (RStr text)) || Nat.eqb (List.length keys) 0)%bool
        then ret text
        else
          let ignoreCase := default true (opt_ignoreCase options) in
          let replaceAll := default true (replaceAll options) in
          let escapeRegex := default true (escapeRegex options) in
          _ <~ alloc (OObj []) ;;
          acc <~ stringReplacements keys [] ;;
          let stringReplacements := strings_of acc in
          let pattern := pattern_of escapeRegex (List.map fst stringReplacements) in
          let flags := (if replaceAll then "g" else "") ++ (if ignoreCase then "i" else "") in
          match Pattern.RegExp_new pattern flags with
          | Ok regex =>
              ret (Regex.replace regex (replacer ignoreCase stringReplacements) text)
          | Throw e => throw e
          | Unmodelled => fun h => (Unmodelled, h)
          end
  | _ => throw (TypeError "Input text must be a string")
  end.

(** ** slugify and extractNumber *)

(** A string is a primitive value: [slugify] reads no object. *)
Definition slugify (text : string) : M string := ret (slugify text).

(** [extractNumber] reads its string and the fields of its options, which
    the model passes by value. *)
Definition extractNumber (str : rvalue) (options : ExtractNumberOptions) : M Num.number :=
  match str with
  | RStr s =>
      match extractNumber (VStr s) options with
      | Ok x => ret x
      | Throw e => throw e
      | Unmodelled => fun h => (Unmodelled, h)
      end
  | _ => throw (TypeError "Input must be a string")
  end.

(** ** What a store holds *)

(** [repr_in P h v t]: in the store [h] the value [v] is the tree [t], and
    every address followed on the way satisfies [P]; the keys of an object
    are distinct. *)
Unset Elimination Schemes.

Inductive repr_in (P : nat -> Prop) (h : heap) : rvalue -> value -> Prop :=
| repr_undefined : repr_in P h RUndefined VUndefined
| repr_null : repr_in P h RNull VNull
| repr_bool (b : bool) : repr_in P h (RBool b) (VBool b)
| repr_num (x : Num.number) : repr_in P h (RNum x) (VNum x)
| repr_str (s : string) : repr_in P h (RStr s) (VStr s)
| repr_arr (l : nat) (items : list rvalue) (ts : list value) :
    P l ->
    nth_error h l = Some (OArr items) ->
    Forall2 (repr_in P h) items ts ->
    repr_in P h (RRef l) (VArr ts)
| repr_obj (l : nat) (props : list (string * rvalue)) (tps : list (string * value)) :
    P l ->
    nth_error h l = Some (OObj props) ->
    NoDup (List.map fst props) ->
    Forall2 (fun p tp => fst p = fst tp /\ repr_in P h (snd p) (snd tp)) props tps ->
    repr_in P h (RRef l) (VObj tps).

Set Elimination Schemes.

(** [repr h v t]: in the store [h] the value [v] is the tree [t]. *)
Definition repr (h : heap) (v : rvalue) (t : value) : Prop :=
  repr_in (fun _ => True) h v t.

(** The store [h'] holds at every address of [h] what [h] holds there. *)
Definition extends (h h' : heap) : Prop := exists fresh, h' = (h ++ fresh)%list.

End Store.

(** The depth of nesting of a tree. *)
Fixpoint depth (t : value) : nat :=
  match t with
  | VArr items => S (fold_right (fun item d => Nat.max (depth item) d) 0 items)
  | VObj props => S (fold_right (fun kv d => Nat.max (depth (snd kv)) d) 0 props)
  | _ => 0
  end.

(* ================================================================== *)
(** * The vocabulary of the statements about the store *)
(* ================================================================== *)

(** The same call made again, in the store that the first call left. *)
Definition second {A : Type} (c : Store.M A) (h : Store.heap) : result A * Store.heap :=
  c (snd (c h)).

(** What a call returned, read in the store that it left: the tree of the
    value returned, or the exception thrown. *)
Definition returned (out : result Store.rvalue * Store.heap) (r : result value) : Prop :=
  match fst out, r with
  | Ok v, Ok t => Store.repr (snd out) v t
  | Throw e, Throw e' => e = e'
  | _, _ => False
  end.

(** The options of a call in the store [h] say what the options [o] say:
    the replacement is the tree of [o], the flags are those of [o], and
    the predicate, which is given the value and the store to read, answers
    by the tree of the value. *)
Definition same_options (h : Store.heap) (oH : Store.ConversionOptions)
           (o : ConversionOptions) : Prop :=
  match Store.replaceWith oH, replaceWith o with
  | None, None => True
  | Some v, Some t => Store.repr h v t
  | _, _ => False
  end /\
  Store.trimStrings oH = trimStrings o /\
  Store.processEmptyArrays oH = processEmptyArrays o /\
  match Store.isEmptyFn oH, isEmptyFn o with
  | None, None => True
  | Some fH, Some f => forall h' v t, Store.repr h' v t -> fH h' v = f t
  | _, _ => False
  end.

(** A value that is no array and no other object. *)
Definition primitive (t : value) : bool := negb (is_object t).

(* ================================================================== *)
(** * The vocabulary of the proofs about the store *)
(* ================================================================== *)

(** [keeps n c]: the computation [c] changes nothing below the address [n]
    and frees nothing. *)
Definition keeps {A : Type} (n : nat) (c : Store.M A) : Prop :=
  forall h, n <= List.length h ->
            n <= List.length (snd (c h)) /\
            firstn n (snd (c h)) = firstn n h.

(** [over h0 h]: the store [h] has the objects of [h0] at their addresses. *)
Definition over (h0 h : Store.heap) : Prop := firstn (List.length h0) h = h0.

(** What a call on a value held in [h0] is to return, from a store [h] over
    [h0]: the value of the tree, held by [h0] and the objects added. *)
Definition returns_tree (h0 : Store.heap)
           (c : Store.heap -> result Store.rvalue * Store.heap)
           (r : result value) : Prop :=
  forall h, over h0 h ->
    exists out fresh t',
      c h = (Ok out, h ++ fresh)%list /\ r = Ok t' /\
      Store.repr_in (fun l => l < List.length h0 \/ List.length h <= l)
                    (h ++ fresh)%list out t'.

From Stdlib Require Import DecimalNat.

(* ================================================================== *)
(** * More vocabulary: what the functions compute, said directly *)
(* ================================================================== *)

(** The characters of [s] that satisfy [p], in their order. *)
Fixpoint keep (p : ascii -> bool) (s : string) : string :=
  match s with
  | EmptyString => EmptyString
  | String c s' => if p c then String c (keep p s') else keep p s'
  end.

(** [s] with every maximal run of [p]-characters replaced by [t];
    [in_run] says that the character before [s] belonged to a run. *)
Fixpoint squeeze (p : ascii -> bool) (t : string) (in_run : bool) (s : string) : string :=
  match s with
  | EmptyString => EmptyString
  | String c s' =>
      if p c then (if in_run then squeeze p t true s' else t ++ squeeze p t true s')
      else String c (squeeze p t false s')
  end.

(** A letter, a digit, an underscore or a space. *)
Definition word_or_space (c : ascii) : bool :=
  (Char.is_word c || Ascii.eqb c " ")%bool.

(** Every run of spaces turned into one hyphen. *)
Definition hyphenate (s : string) : string :=
  squeeze (fun c => Ascii.eqb c " ") "-" false s.

(** [c] occurs twice in a row somewhere in [s]. *)
Fixpoint doubled (c : ascii) (s : string) : bool :=
  match s with
  | String a ((String b _) as s') =>
      ((Ascii.eqb a c && Ascii.eqb b c) || doubled c s')%bool
  | _ => false
  end.

(** [s] starts with the character [c]. *)
Definition starts (c : ascii) (s : string) : bool :=
  match s with String a _ => Ascii.eqb a c | EmptyString => false end.

(** A segment of a path: not empty and without a dot. *)
Definition segment (key : string) : bool :=
  (negb (Str.is_empty key) && Str.all (fun c => negb (Ascii.eqb c ".")) key)%bool.

(** The value reached from [t] by reading the keys one after the other as
    own properties of nested objects. *)
Fixpoint follow (t : value) (keys : list string) : option value :=
  match keys with
  | [] => Some t
  | key :: keys' =>
      match t with
      | VObj props =>
          match Val.lookup key props with
          | Some v => follow v keys'
          | None => None
          end
      | _ => None
      end
  end.

(** The same in a store: what the last property holds, a reference when it
    holds an array or an object. *)
Fixpoint follow_in (h : Store.heap) (v : Store.rvalue) (keys : list string)
  : option Store.rvalue :=
  match keys with
  | [] => Some v
  | key :: keys' =>
      match v with
      | Store.RRef l =>
          match nth_error h l with
          | Some (Store.OObj props) =>
              match Store.lookup key props with
              | Some v' => follow_in h v' keys'
              | None => None
              end
          | _ => None
          end
      | _ => None
      end
  end.

(** The sign bit of a number: set on the negative numbers and on [-0]. *)
Definition is_negative (x : Num.number) : bool :=
  match x with
  | S754_zero s | S754_infinity s | S754_finite s _ _ => s
  | S754_nan => false
  end.

(** Nothing in [t] is judged empty: not [t] itself, no element and no
    property value at any depth. *)
Fixpoint no_empty (o : ConversionOptions) (t : value) : bool :=
  (negb (isEmpty o t) &&
   match t with
   | VArr items => forallb (no_empty o) items
   | VObj props => forallb (fun kv => no_empty o (snd kv)) props
   | _ => true
   end)%bool.

(** What a call on a value held in [h0] is to return, from a store [h]
    over [h0], when every object of the result is to be new or one of [Q]:
    the value of the tree, held by the objects of [Q] and the objects
    added. *)
Definition returns_new (h0 : Store.heap) (Q : nat -> Prop)
           (c : Store.heap -> result Store.rvalue * Store.heap)
           (r : result value) : Prop :=
  forall h, over h0 h ->
    exists out fresh t',
      c h = (Ok out, h ++ fresh)%list /\ r = Ok t' /\
      Store.repr_in (fun l => Q l \/ List.length h <= l) (h ++ fresh)%list out t'.





(** No object of [t], at any depth, has a property named [__proto__]: an
    assignment [result[key] = v] with that key sets no property. *)
Fixpoint plain_keys (t : value) : bool :=
  match t with
  | VArr items => forallb plain_keys items
  | VObj props =>
      forallb (fun kv => (negb (String.eqb (fst kv) "__proto__")
                          && plain_keys (snd kv))%bool) props
  | _ => true
  end.

(** Arrays nested [n] deep, [[[...[]...]]], and a store that holds them:
    the array at address [i] has the array at address [i + 1] as its one
    element, and the last one is empty. *)
Fixpoint nest (n : nat) : value :=
  match n with
  | O => VArr []
  | S n' => VArr [nest n']
  end.


(* ================================================================== *)
(** * Facts about strings and the matcher *)
(* ================================================================== *)

Section StringFacts.

Lemma length_drop (n : nat) (s : string) :
  String.length (Str.drop n s) = String.length s - n.
Proof.
  revert s; induction n as [|n IH]; intros [|c s]; simpl; auto.
Qed.

Lemma take_drop (n : nat) (s : string) : Str.take n s ++ Str.drop n s = s.
Proof.
  revert s; induction n as [|n IH]; intros [|c s]; simpl; auto.
  now rewrite IH.
Qed.

Lemma drop_0 (s : string) : Str.drop 0 s = s.
Proof. now destruct s. Qed.

Lemma append_nil_r (s : string) : s ++ "" = s.
Proof. induction s; simpl; congruence. Qed.

Lemma append_assoc (a b c : string) : (a ++ b) ++ c = a ++ (b ++ c).
Proof. induction a; simpl; congruence. Qed.

Lemma all_append (p : ascii -> bool) (a b : string) :
  Str.all p (a ++ b) = (Str.all p a && Str.all p b)%bool.
Proof. induction a; simpl; auto. now rewrite IHa, andb_assoc. Qed.

End StringFacts.

Module RegexFacts.

Lemma span_le (p : ascii -> bool) (s : string) : Str.span p s <= String.length s.
Proof. induction s as [|c s IH]; simpl; [lia|destruct (p c); lia]. Qed.

(** A greedy loop over a one-character matcher runs to the end of the
    longest run when the continuation accepts there. *)
Lemma repeat_loop_one_greedy (p : ascii -> bool) (k : cont) (e : string) :
  forall n s,
    String.length s < n ->
    k (Str.drop (Str.span p s) s) = Some e ->
    repeat_loop (one p) true k n s = Some e.
Proof.
  induction n as [|n IH]; intros s Hn Hk; [lia|].
  destruct s as [|c s]; simpl in *.
  - now rewrite Hk.
  - destruct (p c) eqn:Hp; simpl in *.
    + assert (Hlt : Nat.ltb (String.length s) (S (String.length s)) = true)
        by (apply Nat.ltb_lt; lia).
      rewrite Hlt, (IH s); auto; lia.
    + now rewrite Hk.
Qed.

(** The scan passes over [skip] units and goes on from there. *)
Lemma scan_skip (re : RegExp) :
  forall skip s, skip <= String.length s ->
    scan re skip s = scan re 0 (Str.drop skip s).
Proof.
  induction skip as [|k IH]; intros s Hk.
  - now rewrite drop_0.
  - destruct s as [|c s]; simpl in Hk; [lia|].
    simpl. apply IH. lia.
Qed.

Lemma scan_nil (re : RegExp) :
  scan re 0 "" =
  match match_here re "" with
  | Some n => Match (Str.take n "") :: (if global re then [] else [Lit (Str.drop n "")])
  | None => []
  end.
Proof. reflexivity. Qed.

(** The scan at a start index, by the outcome of the match there. *)
Lemma scan_cons (re : RegExp) (c : ascii) (s : string) :
  scan re 0 (String c s) =
  match match_here re (String c s) with
  | Some n =>
      Match (Str.take n (String c s)) ::
      (if global re then
         match n with
         | O => Lit (String c "") :: scan re 0 s
         | S n' => scan re n' s
         end
       else [Lit (Str.drop n (String c s))])
  | None => Lit (String c "") :: scan re 0 s
  end.
Proof. reflexivity. Qed.

(** What [r+] matches when [r] consumes one character satisfying [p]:
    the longest run, which must not be empty. *)
Lemma plus_one_run (p : ascii -> bool) (s : string) :
  one p s (fun s' => repeat_loop (one p) true Some (S (String.length s')) s') =
  match Str.span p s with
  | O => None
  | S _ => Some (Str.drop (Str.span p s) s)
  end.
Proof.
  destruct s as [|c s]; cbn [one Str.span]; auto.
  destruct (p c); auto.
  cbn [Str.drop]. apply repeat_loop_one_greedy; auto.
Qed.

Lemma match_here_plus_one (p : ascii -> bool) (x : regex) (g ic : bool) (s : string) :
  rmatch ic x = one p ->
  match_here (mkRegExp (RPlus true x) g ic) s =
  match Str.span p s with
  | O => None
  | S n => Some (S n)
  end.
Proof.
  intros Hx. unfold match_here; simpl. rewrite Hx, plus_one_run.
  pose proof (span_le p s) as Hle.
  destruct (Str.span p s) as [|n] eqn:Hs; auto.
  rewrite length_drop. f_equal. lia.
Qed.

Lemma all_drop (q : ascii -> bool) (n : nat) (s : string) :
  Str.all q s = true -> Str.all q (Str.drop n s) = true.
Proof.
  revert s; induction n as [|n IH]; intros [|c s]; simpl; auto.
  intros H; apply andb_prop in H; apply IH, H.
Qed.

(** Replacing every run of [p]-characters: when the replacement text
    satisfies [q] throughout, and so does every character of the subject
    outside the runs, the result satisfies [q] throughout. *)
Lemma replace_plus_one_all (p : ascii -> bool) (x : regex) (ic : bool)
      (f : string -> string) (q r : ascii -> bool) :
  rmatch ic x = one p ->
  (forall m, Str.all q (f m) = true) ->
  (forall c, p c = false -> r c = true -> q c = true) ->
  forall s, Str.all r s = true ->
    Str.all q (replace (mkRegExp (RPlus true x) true ic) f s) = true.
Proof.
  intros Hx Hf Hq s. unfold replace.
  remember (String.length s) as n eqn:Hn.
  assert (Hlen : String.length s <= n) by lia. clear Hn.
  revert s Hlen. induction n as [|n IH]; intros s Hlen Hr.
  - destruct s; simpl in Hlen; [|lia].
    rewrite scan_nil, (match_here_plus_one p x true ic "" Hx). reflexivity.
  - destruct s as [|c s].
    + rewrite scan_nil, (match_here_plus_one p x true ic "" Hx). reflexivity.
    + simpl in Hlen, Hr. apply andb_prop in Hr. destruct Hr as [Hc Hr].
      rewrite scan_cons, (match_here_plus_one p x true ic _ Hx).
      cbn [Str.span global]. destruct (p c) eqn:Hp.
      * cbn [splice]. rewrite all_append, Hf. cbn [andb].
        rewrite scan_skip by apply span_le.
        apply IH; [rewrite length_drop; lia | now apply all_drop].
      * cbn [splice Str.all String.append]. rewrite (Hq c Hp Hc). cbn [andb].
        apply IH; [lia | assumption].
Qed.

Lemma span_ext (p q : ascii -> bool) (s : string) :
  (forall c, p c = q c) -> Str.span p s = Str.span q s.
Proof.
  intros H. induction s as [|c s IH]; simpl; auto.
  rewrite H, IH. reflexivity.
Qed.

(** [r+] followed by [k], when [r] consumes one character satisfying [p]
    and [k] accepts at the end of the longest run. *)
Lemma plus_one_greedy (p : ascii -> bool) (k : cont) (e : string) (s : string) :
  k (Str.drop (Str.span p s) s) = Some e ->
  one p s (fun s' => repeat_loop (one p) true k (S (String.length s')) s') =
  match Str.span p s with
  | O => None
  | S _ => Some e
  end.
Proof.
  destruct s as [|c s]; cbn [one Str.span]; auto.
  destruct (p c); auto.
  cbn [Str.drop]. intros Hk. apply repeat_loop_one_greedy; auto.
Qed.

Lemma length_sub_drop (n : nat) (s : string) :
  n <= String.length s ->
  String.length s - String.length (Str.drop n s) = n.
Proof. intros H. rewrite length_drop. lia. Qed.

Lemma drop_drop (n m : nat) (s : string) :
  Str.drop m (Str.drop n s) = Str.drop (n + m) s.
Proof.
  revert s; induction n as [|n IH]; intros s.
  - now rewrite drop_0.
  - destruct s as [|c s]; simpl; auto. now destruct m.
Qed.

(** The matches of a scan with the [g] flag are the occurrences of what the
    pattern matches at the front of a string, when no match is empty. *)
Lemma scan_occurrences (re : RegExp) (here : string -> option nat) :
  global re = true ->
  (forall s, match_here re s = here s) ->
  (forall s n, here s = Some n -> 1 <= n <= String.length s) ->
  forall fuel s, String.length s <= fuel ->
    matches_of (scan re 0 s) = occurrences here fuel s.
Proof.
  intros Hg Hm Hn. induction fuel as [|fuel IH]; intros s Hlen.
  - destruct s; simpl in Hlen; [|lia].
    rewrite scan_nil, Hm. destruct (here "") as [n|] eqn:E; auto.
    apply Hn in E. simpl in E. lia.
  - destruct s as [|c s].
    + rewrite scan_nil, Hm. cbn [occurrences].
      destruct (here "") as [n|] eqn:E; auto.
      apply Hn in E. simpl in E. lia.
    + rewrite scan_cons, Hm, Hg. cbn [occurrences]. simpl in Hlen.
      destruct (here (String c s)) as [n|] eqn:E.
      * pose proof (Hn _ _ E) as Hb. simpl in Hb.
        destruct n as [|n]; [lia|].
        cbn [matches_of Str.drop]. f_equal.
        rewrite scan_skip by lia.
        apply IH. rewrite length_drop. lia.
      * cbn [matches_of]. apply IH. lia.
Qed.

End RegexFacts.

(* ================================================================== *)
(** * slugify: the characters of a slug *)
(* ================================================================== *)

Section Slug.

Import RegexFacts.

Lemma ascii_cases (P : ascii -> Prop) :
  (forall n, (n < 256)%N -> P (ascii_of_N n)) -> forall c, P c.
Proof.
  intros H c. rewrite <- (ascii_N_embedding c). apply H, N_ascii_bounded.
Qed.

Lemma toLowerCase_not_upper (c : ascii) :
  Char.is_upper (Char.toLowerCase c) = false.
Proof.
  destruct c as [[] [] [] [] [] [] [] []]; reflexivity.
Qed.

Lemma slug_char_not_space (c : ascii) :
  slug_char c = true -> Char.is_space c = false.
Proof.
  destruct c as [[] [] [] [] [] [] [] []]; cbv; congruence.
Qed.

Lemma word_or_space_slug (c : ascii) :
  Ascii.eqb " " c = false ->
  ((Char.is_word c || Ascii.eqb c " ") && negb (Char.is_upper c))%bool = true ->
  slug_char c = true.
Proof.
  destruct c as [[] [] [] [] [] [] [] []]; cbv; congruence.
Qed.

Lemma all_toLowerCase (s : string) :
  Str.all (fun c => negb (Char.is_upper c)) (Str.toLowerCase s) = true.
Proof.
  induction s as [|c s IH]; auto.
  cbn [Str.toLowerCase Str.map Str.all].
  rewrite toLowerCase_not_upper. exact IH.
Qed.

End Slug.

(** C7: for every string, no character of its slug is white space and every
    character of its slug is one of [a-z], [0-9], [_] and [-]. *)
Theorem slugify_charset (text : string) (c : ascii) :
  In c (list_ascii_of_string (slugify text)) ->
  Char.is_space c = false /\
  (Char.is_lower c = true \/ Char.is_digit c = true \/ c = "_"%char \/ c = "-"%char).
Proof.
  intros Hin.
  assert (Hall : Str.all slug_char (slugify text) = true).
  { unfold slugify, re_spaces, re_not_word_or_space.
    apply (RegexFacts.replace_plus_one_all
             (fun a => N.eqb (Char.code " ") (Char.code a)) _ false _ slug_char
             (fun a => ((Char.is_word a || Ascii.eqb a " ") && negb (Char.is_upper a))%bool)).
    - reflexivity.
    - reflexivity.
    - intros a Ha Hr. apply word_or_space_slug; auto.
      destruct a as [[] [] [] [] [] [] [] []]; cbv in Ha |- *; congruence.
    - apply (RegexFacts.replace_plus_one_all
               (fun a => xorb true (set_mem false [CWord; CChar " "] a)) _ false _ _
               (fun a => negb (Char.is_upper a))).
      + reflexivity.
      + reflexivity.
      + intros a Ha Hr. rewrite Hr, andb_true_r.
        unfold set_mem in Ha. cbn [existsb item_mem] in Ha.
        rewrite orb_false_r in Ha. rewrite (Ascii.eqb_sym a " ").
        now destruct (Char.is_word a || Ascii.eqb " " a)%bool.
      + apply all_toLowerCase. }
  revert Hin Hall. generalize (slugify text) as s.
  induction s as [|a s IH]; simpl; [tauto|].
  intros [->|Hin] Hall; apply andb_prop in Hall; destruct Hall as [Ha Hs]; auto.
  split; [now apply slug_char_not_space|].
  unfold slug_char in Ha.
  repeat (apply orb_prop in Ha; destruct Ha as [Ha|Ha]); auto.
  - apply Ascii.eqb_eq in Ha; auto.
  - apply Ascii.eqb_eq in Ha; auto.
Qed.

(* ================================================================== *)
(** * Values: induction and the result monad *)
(* ================================================================== *)

Section MapM.

Context {A B : Type}.


Lemma mapM_total (f : A -> result B) (xs : list A) :
  Forall (fun x => exists y, f x = Ok y) xs ->
  exists ys, mapM f xs = Ok ys /\ Forall2 (fun x y => f x = Ok y) xs ys.
Proof.
  induction 1 as [|x xs [y Hy] _ [ys [IH1 IH2]]]; simpl.
  - exists []. split; auto.
  - exists (y :: ys). rewrite Hy, IH1. split; auto.
Qed.

Lemma mapM_ext (f g : A -> result B) (xs : list A) :
  Forall (fun x => f x = g x) xs -> mapM f xs = mapM g xs.
Proof.
  induction 1 as [|x xs Hx _ IH]; simpl; auto.
  now rewrite Hx, IH.
Qed.

End MapM.

(* ================================================================== *)
(** * resolveObjectPath *)
(* ================================================================== *)

Section ResolveObjectPath.

(** The body of [traverse], one call deep. *)
Lemma traverse_eq (current : value) (keyLeft : list string) :
  traverse current keyLeft =
  match current with
  | VNull | VUndefined => Ok VUndefined
  | VArr items =>
      mapped <- mapM (fun item => traverse item keyLeft) items ;;
      let results := List.filter Val.truthy mapped in
      Ok (if Nat.eqb (List.length results) 0 then VUndefined
          else VArr (Val.flat results))
  | _ =>
      match keyLeft with
      | firstKey :: restKeys =>
          next <- Val.get current firstKey ;;
          if Val.is_undefined next then Ok VUndefined
          else if Nat.eqb (List.length restKeys) 0 then Ok next
          else traverse next restKeys
      | [] =>
          next <- Val.get current "undefined" ;;
          if Val.is_undefined next then Ok VUndefined else Ok next
      end
  end.
Proof. destruct keyLeft; destruct current; reflexivity. Qed.

Lemma get_total (o : value) (key : string) :
  Val.is_null o = false -> Val.is_undefined o = false ->
  exists v, Val.get o key = Ok v.
Proof.
  destruct o; simpl; try discriminate; intros _ _; eauto.
  - destruct (String.eqb key "length"); eauto.
    destruct (Val.index_of_key key); eauto.
    destruct (String.get n s); eauto.
  - destruct (String.eqb key "length"); eauto.
    destruct (Val.index_of_key key); eauto.
Qed.

(** [traverse] returns on every node and every list of keys. *)
Lemma traverse_total (keyLeft : list string) :
  forall current, exists v, traverse current keyLeft = Ok v.
Proof.
  induction keyLeft as [|firstKey restKeys IHk];
    induction current as [| |b|x|s|items IHi|props _] using value_ind;
    rewrite traverse_eq; eauto;
    try (destruct (mapM_total _ _ IHi) as [ys [-> _]]; simpl; eauto).
  all: match goal with
       | |- context [Val.get ?o ?k] =>
           destruct (get_total o k eq_refl eq_refl) as [next ->]
       end; simpl.
  all: destruct (Val.is_undefined next); eauto.
  all: destruct (Nat.eqb (List.length restKeys) 0); eauto.
Qed.

Lemma split_cons (sep c : ascii) (s : string) :
  Str.split sep (String c s) =
  if Ascii.eqb c sep then "" :: Str.split sep s
  else match Str.split sep s with
       | [] => [String c ""]
       | w :: ws => String c w :: ws
       end.
Proof. reflexivity. Qed.

Lemma split_not_nil (sep : ascii) (s : string) : Str.split sep s <> [].
Proof.
  induction s as [|c s IH]; [discriminate|].
  rewrite split_cons. destruct (Ascii.eqb c sep); [discriminate|].
  destruct (Str.split sep s); [contradiction|discriminate].
Qed.

(** Splitting at a separator puts the segments of both sides in a row. *)
Lemma split_app (sep : ascii) (a b : string) :
  Str.split sep (a ++ String sep b) = (Str.split sep a ++ Str.split sep b)%list.
Proof.
  induction a as [|c a IH].
  - simpl. now rewrite Ascii.eqb_refl.
  - change (String c a ++ String sep b) with (String c (a ++ String sep b)).
    rewrite !split_cons, IH. destruct (Ascii.eqb c sep); auto.
    pose proof (split_not_nil sep a) as Hne.
    destruct (Str.split sep a); [contradiction|reflexivity].
Qed.

Lemma split_nil (sep : ascii) : Str.split sep "" = [""].
Proof. reflexivity. Qed.



End ResolveObjectPath.

(** C1: at an array node [traverse] maps the keys that are left over every
    element on its own, keeps the truthy results, flattens them one level
    and returns [undefined] when none is left; the documented call on
    [user.addresses.city] returns the two cities. *)
Theorem traverse_array_fans_out (items : list value) (keyLeft : list string) :
  (exists mapped : list value,
      Forall2 (fun item r => traverse item keyLeft = Ok r) items mapped /\
      traverse (VArr items) keyLeft =
      Ok (match List.filter Val.truthy mapped with
          | [] => VUndefined
          | results =>
              VArr (List.concat
                      (List.map (fun r => match r with
                                          | VArr inner => inner
                                          | _ => [r]
                                          end) results))
          end)) /\
  resolveObjectPath
    (VObj [("user", VObj [("addresses", VArr [VObj [("city", VStr "NY")];
                                              VObj [("city", VStr "LA")]])])])
    "user.addresses.city"
  = Ok (VArr [VStr "NY"; VStr "LA"]).
Proof.
  split; [|reflexivity].
  destruct (mapM_total (fun item => traverse item keyLeft) items) as [mapped [Hm HF]].
  { apply Forall_forall. intros item _. apply traverse_total. }
  exists mapped. split; auto.
  rewrite traverse_eq, Hm. simpl.
  assert (Hflat : forall rs, Val.flat rs =
            List.concat (List.map (fun r => match r with
                                            | VArr inner => inner
                                            | _ => [r]
                                            end) rs)).
  { induction rs as [|r rs IH]; simpl; auto. destruct r; simpl; now rewrite IH. }
  destruct (List.filter Val.truthy mapped) as [|r rs] eqn:E; auto.
  cbn [List.length Nat.eqb]. now rewrite Hflat.
Qed.

(* ================================================================== *)
(** * transformEmptyValues *)
(* ================================================================== *)

Section TransformEmptyValues.

Variable options : ConversionOptions.

Let step : value -> result value :=
  transform_item (fun v => transformEmptyValues v options) options.

(** The body of [transformEmptyValues], one call deep. *)
Lemma transformEmptyValues_eq (input : value) :
  transformEmptyValues input options =
  if negb (is_object input)
  then Throw (TypeError "Input must be an object or array")
  else if isEmpty options input then Ok (replaceWith_of options)
  else match input with
       | VArr items => mapped <- mapM step items ;; Ok (VArr mapped)
       | VObj props => assign_entries step props []
       | _ => Throw (TypeError "Input must be an object or array")
       end.
Proof. destruct input; reflexivity. Qed.

(** The loop over the entries of an object maps the values and keeps the
    keys in order. *)
Lemma assign_entries_map (f : value -> result value) (entries res : list (string * value)) :
  assign_entries f entries res =
  vs <- mapM (fun kv => v <- f (snd kv) ;; Ok (fst kv, v)) entries ;;
  Ok (VObj (res ++ vs)%list).
Proof.
  revert res. induction entries as [|[key val] entries IH]; intros res; simpl.
  - now rewrite app_nil_r.
  - destruct (f val) as [v| |]; simpl; auto.
    rewrite IH.
    destruct (mapM _ entries) as [vs| |]; simpl; auto.
    now rewrite <- app_assoc.
Qed.

Lemma is_object_cases (v : value) :
  is_object v = true -> (exists items, v = VArr items) \/ (exists props, v = VObj props).
Proof. destruct v; try discriminate; eauto. Qed.

(** On an array or an object the call returns. *)
Lemma transformEmptyValues_total (input : value) :
  is_object input = true -> exists y, transformEmptyValues input options = Ok y.
Proof.
  induction input as [| |b|x|s|items IH|props IH] using value_ind;
    try discriminate; intros _; rewrite transformEmptyValues_eq; cbn [is_object Val.typeof Val.type_eqb Val.is_null andb negb].
  - destruct (isEmpty options (VArr items)); eauto.
    destruct (mapM_total step items) as [ys [-> _]]; simpl; eauto.
    apply Forall_forall. intros v Hv. unfold step, transform_item.
    destruct (is_object v) eqn:Hobj.
    + rewrite Forall_forall in IH. now apply IH.
    + destruct (isEmpty options v); eauto.
  - destruct (isEmpty options (VObj props)); eauto.
    rewrite assign_entries_map.
    destruct (mapM_total (fun kv => v <- step (snd kv) ;; Ok (fst kv, v)) props)
      as [ys [-> _]]; simpl; eauto.
    apply Forall_forall. intros [k v] Hv. unfold step, transform_item. simpl.
    destruct (is_object v) eqn:Hobj.
    + rewrite Forall_forall in IH. specialize (IH _ Hv). simpl in IH.
      destruct (IH Hobj) as [y ->]. simpl; eauto.
    + destruct (isEmpty options v); simpl; eauto.
Qed.

End TransformEmptyValues.

(** With [isEmptyFn] given, the other two switches play no part, at the top
    and in every nested call. *)
Lemma transformEmptyValues_isEmptyFn_alone (f : value -> bool) (o1 o2 : ConversionOptions) :
  isEmptyFn o1 = Some f -> isEmptyFn o2 = Some f ->
  replaceWith_of o1 = replaceWith_of o2 ->
  forall input, transformEmptyValues input o1 = transformEmptyValues input o2.
Proof.
  intros H1 H2 Hr.
  assert (HE : forall v, isEmpty o1 v = isEmpty o2 v).
  { intros v. unfold isEmpty. now rewrite H1, H2. }
  induction input as [| |b|x|s|items IH|props IH] using value_ind;
    rewrite !transformEmptyValues_eq; auto;
    cbn [is_object Val.typeof Val.type_eqb Val.is_null andb negb];
    rewrite HE, Hr; destruct (isEmpty o2 _); auto.
  - rewrite (mapM_ext _ (transform_item (fun v => transformEmptyValues v o2) o2)); auto.
    eapply Forall_impl; [|exact IH]. intros v Hv. unfold transform_item.
    now rewrite Hv, HE, Hr.
  - rewrite !assign_entries_map.
    rewrite (mapM_ext _ (fun kv => v <- transform_item (fun v => transformEmptyValues v o2) o2 (snd kv) ;;
                                   Ok (fst kv, v))); auto.
    eapply Forall_impl; [|exact IH]. intros [k v] Hv. unfold transform_item. simpl in *.
    now rewrite Hv, HE, Hr.
Qed.

(** C4: without [isEmptyFn] a value is empty exactly when it is a string
    that is empty, after trimming when [trimStrings] holds, or an array
    without elements while [processEmptyArrays] holds, so a number, a
    boolean, [null] and an object never are; with [isEmptyFn] that function
    alone decides, at the top and in the nested calls. *)
Theorem isEmpty_rule (options : ConversionOptions) :
  (isEmptyFn options = None ->
   (forall v, isEmpty options v = true <->
              (exists s, v = VStr s /\
                         (if default true (trimStrings options) then Str.trim s else s) = "")
              \/ (default false (processEmptyArrays options) = true /\ v = VArr [])) /\
   (forall x, isEmpty options (VNum x) = false) /\
   (forall b, isEmpty options (VBool b) = false) /\
   isEmpty options VNull = false /\
   (forall props, isEmpty options (VObj props) = false)) /\
  (forall f, isEmptyFn options = Some f ->
             (forall v, isEmpty options v = f v) /\
             (forall o' input,
                 isEmptyFn o' = Some f -> replaceWith_of o' = replaceWith_of options ->
                 transformEmptyValues input o' = transformEmptyValues input options)).
Proof.
  split.
  - intros Hnone. unfold isEmpty. rewrite Hnone. repeat split; auto.
    + destruct v; try discriminate.
      * intros H. left. exists s. split; auto.
        destruct (default true (trimStrings options)); now apply String.eqb_eq.
      * intros H. right.
        destruct (default false (processEmptyArrays options)); [|discriminate].
        split; auto. destruct items; [reflexivity|discriminate].
    + intros [[s [-> Hs]]|[Hp ->]].
      * destruct (default true (trimStrings options)); now apply String.eqb_eq.
      * now rewrite Hp.
  - intros f Hf. split.
    + intros v. unfold isEmpty. now rewrite Hf.
    + intros o' input Hf' Hr.
      now apply (transformEmptyValues_isEmptyFn_alone f).
Qed.

Section Idempotence.

Variable options : ConversionOptions.

(** The replacement is not an array or an object. *)
Hypothesis replacement_is_scalar : is_object (replaceWith_of options) = false.

(** Emptiness is decided by the built-in rule, or by a function that finds
    no array and no object empty. *)
Hypothesis structures_stay :
  isEmptyFn options = None \/
  (forall v, is_object v = true -> isEmpty options v = false).

Let step : value -> result value :=
  transform_item (fun v => transformEmptyValues v options) options.

(** A second run leaves the result of a first run as it is. *)
Let settled (x : value) : Prop :=
  is_object x = true -> isEmpty options x = false ->
  exists y, transformEmptyValues x options = Ok y /\
            is_object y = true /\ isEmpty options y = false /\
            transformEmptyValues y options = Ok y.

Lemma mapM_Forall2 {A B : Type} (f : A -> result B) (xs : list A) (ys : list B) :
  Forall2 (fun x y => f x = Ok y) xs ys -> mapM f xs = Ok ys.
Proof.
  induction 1 as [|x y xs ys Hxy _ IH]; simpl; auto.
  now rewrite Hxy, IH.
Qed.

Lemma Forall_exists_Forall2 {A B : Type} (R : A -> B -> Prop) (xs : list A) :
  Forall (fun x => exists y, R x y) xs -> exists ys, Forall2 R xs ys.
Proof.
  induction 1 as [|x xs [y Hy] _ [ys IH]]; eauto.
Qed.

Lemma step_replacement : step (replaceWith_of options) = Ok (replaceWith_of options).
Proof.
  unfold step, transform_item. rewrite replacement_is_scalar.
  now destruct (isEmpty options (replaceWith_of options)).
Qed.

Lemma step_settles (v : value) :
  settled v -> exists w, step v = Ok w /\ step w = Ok w.
Proof.
  intros Hv. unfold step at 1. unfold transform_item.
  destruct (is_object v) eqn:Hobj.
  - destruct (isEmpty options v) eqn:He.
    + exists (replaceWith_of options). split; [|apply step_replacement].
      rewrite transformEmptyValues_eq, Hobj, He. reflexivity.
    + destruct (Hv Hobj He) as [y [H1 [H2 [H3 H4]]]].
      exists y. split; auto. unfold step, transform_item. now rewrite H2.
  - destruct (isEmpty options v) eqn:He.
    + exists (replaceWith_of options). split; [reflexivity|apply step_replacement].
    + exists v. split; auto. unfold step, transform_item. now rewrite Hobj, He.
Qed.

Lemma array_not_empty (items mapped : list value) :
  List.length items = List.length mapped ->
  isEmpty options (VArr items) = false -> isEmpty options (VArr mapped) = false.
Proof.
  intros Hlen He. destruct structures_stay as [Hnone|Hf]; [|now apply Hf].
  unfold isEmpty in *. rewrite Hnone in *. now rewrite <- Hlen.
Qed.

Lemma object_not_empty (props vs : list (string * value)) :
  isEmpty options (VObj props) = false -> isEmpty options (VObj vs) = false.
Proof.
  intros He. destruct structures_stay as [Hnone|Hf]; [|now apply Hf].
  unfold isEmpty. now rewrite Hnone.
Qed.

Lemma transformEmptyValues_settled (x : value) : settled x.
Proof.
  induction x as [| |b|n|s|items IH|props IH] using value_ind;
    intros Hobj He; try discriminate.
  - assert (Hall : Forall (fun v => exists w, step v = Ok w /\ step w = Ok w) items).
    { eapply Forall_impl; [|exact IH]. intros v. apply step_settles. }
    destruct (Forall_exists_Forall2 _ _ Hall) as [mapped HF].
    assert (H1 : mapM step items = Ok mapped).
    { apply mapM_Forall2. eapply Forall2_impl; [|exact HF]. now intros v w [? _]. }
    assert (H2 : mapM step mapped = Ok mapped).
    { apply mapM_Forall2. clear -HF.
      induction HF as [|v w vs ws [_ Hw] _ IH']; constructor; auto. }
    assert (He' : isEmpty options (VArr mapped) = false).
    { eapply array_not_empty; [|exact He]. eapply Forall2_length, HF. }
    exists (VArr mapped). repeat split; auto.
    + rewrite transformEmptyValues_eq, Hobj, He. cbn [negb]. fold step.
      now rewrite H1.
    + rewrite transformEmptyValues_eq, He'. cbn [is_object Val.typeof Val.type_eqb Val.is_null andb negb].
      fold step. now rewrite H2.
  - set (f := fun kv : string * value => v <- step (snd kv) ;; Ok (fst kv, v)).
    assert (Hall : Forall (fun kv => exists kw, f kv = Ok kw /\ f kw = Ok kw) props).
    { eapply Forall_impl; [|exact IH]. intros [k v] Hv. simpl in Hv.
      destruct (step_settles v Hv) as [w [Hw1 Hw2]].
      exists (k, w). unfold f. simpl. now rewrite Hw1, Hw2. }
    destruct (Forall_exists_Forall2 _ _ Hall) as [vs HF].
    assert (H1 : mapM f props = Ok vs).
    { apply mapM_Forall2. eapply Forall2_impl; [|exact HF]. now intros v w [? _]. }
    assert (H2 : mapM f vs = Ok vs).
    { apply mapM_Forall2. clear -HF.
      induction HF as [|v w vs' ws [_ Hw] _ IH']; constructor; auto. }
    assert (He' : isEmpty options (VObj vs) = false)
      by (eapply object_not_empty; exact He).
    exists (VObj vs). repeat split; auto.
    + rewrite transformEmptyValues_eq, Hobj, He. cbn [negb]. fold step.
      rewrite assign_entries_map. fold f. now rewrite H1.
    + rewrite transformEmptyValues_eq, He'. cbn [is_object Val.typeof Val.type_eqb Val.is_null andb negb].
      fold step. rewrite assign_entries_map. fold f. now rewrite H2.
Qed.

End Idempotence.

(** C2, as the code has it: for an array or object that is not itself empty,
    with a replacement that is not an array or object, and emptiness decided
    by the built-in rule or by an [isEmptyFn] that finds no array and no
    object empty, a second run on the result of the first returns that
    result unchanged. *)
Theorem transformEmptyValues_idempotent (input : value) (options : ConversionOptions) :
  is_object input = true ->
  isEmpty options input = false ->
  is_object (replaceWith_of options) = false ->
  (isEmptyFn options = None \/
   (forall v, is_object v = true -> isEmpty options v = false)) ->
  exists y, transformEmptyValues input options = Ok y /\
            transformEmptyValues y options = Ok y.
Proof.
  intros Hobj He Hr Hs.
  destruct (transformEmptyValues_settled options Hr Hs input Hobj He)
    as [y [H1 [_ [_ H2]]]].
  eauto.
Qed.

Lemma transformEmptyValues_idempotent_witness :
  exists y,
    transformEmptyValues
      (VObj [("name", VStr ""); ("tags", VArr [VStr " "; VArr []])])
      (mkConversionOptions None None (Some true) None) = Ok y /\
    transformEmptyValues y (mkConversionOptions None None (Some true) None) = Ok y.
Proof.
  apply transformEmptyValues_idempotent.
  - reflexivity.
  - reflexivity.
  - reflexivity.
  - left. reflexivity.
Defined.

(** C2 as stated fails: an empty array, with [processEmptyArrays], is
    replaced by [null], and [null] is not an input the function takes. *)
Lemma transformEmptyValues_not_idempotent :
  transformEmptyValues (VArr []) (mkConversionOptions None None (Some true) None)
  = Ok VNull /\
  transformEmptyValues VNull (mkConversionOptions None None (Some true) None)
  = Throw (TypeError "Input must be an object or array") /\
  (y <- transformEmptyValues (VArr []) (mkConversionOptions None None (Some true) None) ;;
   transformEmptyValues y (mkConversionOptions None None (Some true) None))
  <> transformEmptyValues (VArr []) (mkConversionOptions None None (Some true) None).
Proof.
  repeat split. discriminate.
Qed.

(* ================================================================== *)
(** * extractNumber *)
(* ================================================================== *)

Section NumberPattern.

Import RegexFacts.

(** [\d] *)
Let D : regex := RClass false [CDigit].
(** [(?:\.\d+)?] *)
Let FRAC : regex := ROpt true (RGroup (RSeq (RChar ".") (RSeq (RPlus true D) REmpty))).

Let pD : ascii -> bool := fun a => xorb false (set_mem false [CDigit] a).

Lemma pD_is_digit (c : ascii) : pD c = Char.is_digit c.
Proof.
  unfold pD, set_mem. cbn [existsb item_mem].
  now rewrite orb_false_r, xorb_false_l.
Qed.

Lemma canonicalize_eqb (c a : ascii) :
  N.eqb (Char.canonicalize false c) (Char.canonicalize false a) = Ascii.eqb c a.
Proof.
  unfold Char.canonicalize, Char.code.
  destruct (Ascii.eqb_spec c a) as [->|Hne].
  - apply N.eqb_refl.
  - apply N.eqb_neq. intros H. apply Hne.
    rewrite <- (ascii_N_embedding c), <- (ascii_N_embedding a). now f_equal.
Qed.

(** [\d+] followed by [k], when [k] accepts after the longest run of
    digits. *)
Lemma digits_then (k : cont) (e : string) (s : string) :
  k (Str.drop (Str.span Char.is_digit s) s) = Some e ->
  rmatch false (RPlus true D) s k =
  match Str.span Char.is_digit s with
  | O => None
  | S _ => Some e
  end.
Proof.
  intros Hk.
  change (rmatch false (RPlus true D) s k)
    with (one pD s (fun s' => repeat_loop (one pD) true k (S (String.length s')) s')).
  rewrite <- (span_ext pD Char.is_digit s pD_is_digit) in Hk |- *.
  now apply plus_one_greedy.
Qed.

Lemma fraction_match (t : string) :
  rmatch false (RSeq FRAC REmpty) t Some = Some (Str.drop (fraction_length t) t).
Proof.
  unfold FRAC. cbn [rmatch].
  destruct t as [|a f]; [reflexivity|].
  rewrite canonicalize_eqb, (Ascii.eqb_sym "." a). unfold fraction_length.
  destruct (Ascii.eqb a "."); [|reflexivity].
  match goal with
  | |- context [rmatch false D f ?k] =>
      match k with
      | (fun s'0 => repeat_loop _ _ ?k' _ _) =>
          change (rmatch false D f k) with (rmatch false (RPlus true D) f k');
          rewrite (digits_then k' (Str.drop (Str.span Char.is_digit f) f))
      end
  end.
  - destruct (Str.span Char.is_digit f); reflexivity.
  - cbv beta. rewrite length_drop.
    assert (H : Nat.ltb (String.length f - Str.span Char.is_digit f)
                        (String.length (String a f)) = true)
      by (apply Nat.ltb_lt; simpl; lia).
    now rewrite H.
Qed.

Lemma body_match (allowDecimals : bool) (s : string) :
  rmatch false (body_re allowDecimals) s Some =
  match Str.span Char.is_digit s with
  | O => None
  | S d =>
      Some (Str.drop (S d + (if allowDecimals
                             then fraction_length (Str.drop (S d) s) else 0)) s)
  end.
Proof.
  destruct allowDecimals.
  - change (rmatch false (body_re true) s Some)
      with (rmatch false (RPlus true D) s
              (fun s' => rmatch false (RSeq FRAC REmpty) s' Some)).
    erewrite digits_then by apply fraction_match.
    destruct (Str.span Char.is_digit s); auto.
    now rewrite drop_drop.
  - change (rmatch false (body_re false) s Some)
      with (rmatch false (RPlus true D) s (fun s' => Some s')).
    erewrite digits_then by reflexivity.
    destruct (Str.span Char.is_digit s); auto.
    now rewrite Nat.add_0_r.
Qed.

Lemma sign_match (body : regex) (s : string) :
  rmatch false (RSeq (ROpt true (RChar "-")) body) s Some =
  match s with
  | String c s' =>
      if Ascii.eqb c "-" then
        match rmatch false body s' Some with
        | Some e => Some e
        | None => rmatch false body s Some
        end
      else rmatch false body s Some
  | EmptyString => rmatch false body s Some
  end.
Proof.
  cbn [rmatch]. destruct s as [|c s']; [reflexivity|].
  rewrite canonicalize_eqb, (Ascii.eqb_sym "-" c).
  destruct (Ascii.eqb c "-"); [|reflexivity].
  assert (H : Nat.ltb (String.length s') (String.length (String c s')) = true)
    by (apply Nat.ltb_lt; simpl; lia).
  now rewrite H.
Qed.

Lemma fraction_length_le (t : string) : fraction_length t <= String.length t.
Proof.
  destruct t as [|c f]; simpl; [lia|].
  destruct (Ascii.eqb c "."); [|lia].
  pose proof (span_le Char.is_digit f).
  destruct (Str.span Char.is_digit f); lia.
Qed.

Lemma number_length_bounds (an ad : bool) (s : string) (n : nat) :
  number_length an ad s = Some n -> 1 <= n <= String.length s.
Proof.
  unfold number_length.
  assert (Hb : forall body d,
             Str.span Char.is_digit body = S d ->
             S d + (if ad then fraction_length (Str.drop (S d) body) else 0)
             <= String.length body).
  { intros body d Hd.
    pose proof (span_le Char.is_digit body) as H1.
    pose proof (fraction_length_le (Str.drop (S d) body)) as H2.
    rewrite length_drop in H2. destruct ad; lia. }
  destruct s as [|c s'].
  - simpl. discriminate.
  - destruct (an && Ascii.eqb c "-")%bool.
    + destruct (Str.span Char.is_digit s') as [|d] eqn:E; [discriminate|].
      intros H. assert (Hn : n = 1 + S d + (if ad then fraction_length (Str.drop (S d) s') else 0))
        by congruence.
      specialize (Hb _ _ E). cbn [String.length]. lia.
    + destruct (Str.span Char.is_digit (String c s')) as [|d] eqn:E; [discriminate|].
      intros H. assert (Hn : n = 0 + S d + (if ad then fraction_length (Str.drop (S d) (String c s')) else 0))
        by congruence.
      specialize (Hb _ _ E). lia.
Qed.

(** What the compiled pattern matches at the front of a string is the
    number-looking text there. *)
Lemma match_here_number (an ad : bool) (s : string) :
  match_here (mkRegExp (number_re an ad) true false) s = number_length an ad s.
Proof.
  assert (Hbody : forall t,
             match rmatch false (body_re ad) t Some with
             | Some rest => Some (String.length t - String.length rest)
             | None => None
             end = number_length false ad t).
  { intros t. rewrite body_match. unfold number_length.
    replace (match t with
             | String c s' => if (false && Ascii.eqb c "-")%bool then (1, s') else (0, t)
             | EmptyString => (0, t)
             end) with (0, t) by (now destruct t).
    destruct (Str.span Char.is_digit t) as [|d] eqn:E; auto.
    f_equal. apply length_sub_drop.
    assert (Hn : number_length false ad t
                 = Some (0 + S d + (if ad then fraction_length (Str.drop (S d) t) else 0))).
    { unfold number_length.
      replace (match t with
               | String c s' => if (false && Ascii.eqb c "-")%bool then (1, s') else (0, t)
               | EmptyString => (0, t)
               end) with (0, t) by (now destruct t).
      now rewrite E. }
    apply number_length_bounds in Hn. lia. }
  unfold match_here, number_re. cbn [source ignoreCase].
  destruct an; [|apply Hbody].
  rewrite sign_match. destruct s as [|c s']; [apply Hbody|].
  unfold number_length. cbn [andb].
  destruct (Ascii.eqb c "-") eqn:Ec; [|apply Hbody].
  apply Ascii.eqb_eq in Ec. subst c.
  rewrite !body_match. cbn [Str.span]. 
  change (Char.is_digit "-") with false. cbv iota.
  destruct (Str.span Char.is_digit s') as [|d] eqn:E; auto.
  f_equal.
  assert (Hn : number_length false ad s'
               = Some (0 + S d + (if ad then fraction_length (Str.drop (S d) s') else 0))).
  { unfold number_length.
    replace (match s' with
             | String c s'0 => if (false && Ascii.eqb c "-")%bool then (1, s'0) else (0, s')
             | EmptyString => (0, s')
             end) with (0, s') by (now destruct s').
    now rewrite E. }
  apply number_length_bounds in Hn.
  cbn [String.length]. rewrite length_drop. lia.
Qed.

Lemma number_pattern_compiles (an ad : bool) :
  Pattern.RegExp_new
    (Str.join "" [ (if an then "-?" else ""); "\d+"; (if ad then "(?:\.\d+)?" else "") ])
    "g"
  = Ok (mkRegExp (number_re an ad) true false).
Proof. destruct an, ad; reflexivity. Qed.

End NumberPattern.

(** The steps of [extractNumber], with the texts found by the search. *)
Lemma extractNumber_steps (str : string) (options : ExtractNumberOptions) :
  extractNumber (VStr str) options = Ok (extractNumber_spec str options).
Proof.
  unfold extractNumber, extractNumber_spec.
  replace (negb (Val.truthy (VStr (Str.trim str)))) with (String.eqb (Str.trim str) "")
    by (destruct (Str.trim str); reflexivity).
  destruct (String.eqb (Str.trim str) ""); [reflexivity|].
  rewrite number_pattern_compiles. cbn [bind].
  unfold Regex.match_all, number_texts.
  rewrite (RegexFacts.scan_occurrences _
             (number_length (default false (allowNegative options))
                            (default false (allowDecimals options))))
    with (fuel := String.length str); auto.
  - destruct (occurrences _ _ _); reflexivity.
  - apply match_here_number.
  - apply number_length_bounds.
Qed.

(** C3: [extractNumber] returns the default for a blank string; otherwise
    it takes the number-looking texts of the string (an optional minus sign
    if negatives are allowed, digits, an optional fraction if decimals are
    allowed), all of them and without overlap, joins them, parses the joined
    text as a float or as a base-10 integer, and returns the default when
    there is no such text or the parse is not a number.  The documented
    calls on "Price is $123.45" return 12345 and 123.45. *)
Theorem extractNumber_meets_spec (str : string) (options : ExtractNumberOptions) :
  extractNumber (VStr str) options = Ok (extractNumber_spec str options) /\
  extractNumber (VStr "Price is $123.45") (mkExtractNumberOptions None None None)
  = Ok (Num.of_Z 12345) /\
  extractNumber (VStr "Price is $123.45") (mkExtractNumberOptions (Some true) None None)
  = Ok (Num.of_decimal false 12345 (-2)).
Proof.
  split; [apply extractNumber_steps|split; reflexivity].
Qed.

(* ================================================================== *)
(** * Numbers: a parsed numeral is a number *)
(* ================================================================== *)

Section NumberFacts.

Local Open Scope Z_scope.

Lemma shr_1_nonneg (mrs : shr_record) : 0 <= shr_m mrs -> 0 <= shr_m (shr_1 mrs).
Proof.
  destruct mrs as [m r s]. simpl.
  destruct m as [|[p|p|]|[p|p|]]; simpl; lia.
Qed.

Lemma iter_shr_1_nonneg (p : positive) :
  forall mrs, 0 <= shr_m mrs -> 0 <= shr_m (iter_pos shr_1 p mrs).
Proof.
  induction p as [p IH|p IH|]; intros mrs H; simpl.
  - apply IH, IH, shr_1_nonneg, H.
  - apply IH, IH, H.
  - apply shr_1_nonneg, H.
Qed.

Lemma shr_fexp_nonneg (m e : Z) (l : location) :
  0 <= m -> 0 <= shr_m (fst (shr_fexp Num.prec Num.emax m e l)).
Proof.
  intros H. unfold shr_fexp, shr.
  assert (H0 : 0 <= shr_m (shr_record_of_loc m l))
    by (destruct l as [|[]]; exact H).
  destruct (fexp Num.prec Num.emax (Zdigits2 m + e) - e); simpl; auto.
  now apply iter_shr_1_nonneg.
Qed.

Lemma round_nearest_even_nonneg (m : Z) (l : location) :
  0 <= m -> 0 <= round_nearest_even m l.
Proof.
  intros H. unfold round_nearest_even.
  destruct l as [|[]]; try lia. destruct (Z.even m); lia.
Qed.

(** Rounding a mantissa that is not negative gives a number. *)
Lemma binary_round_aux_number (sx : bool) (mx ex : Z) (lx : location) :
  0 <= mx -> Num.isNaN (binary_round_aux Num.prec Num.emax sx mx ex lx) = false.
Proof.
  intros H. unfold binary_round_aux.
  pose proof (shr_fexp_nonneg mx ex lx H) as H1.
  destruct (shr_fexp Num.prec Num.emax mx ex lx) as [mrs' e']. simpl in H1.
  pose proof (shr_fexp_nonneg _ e' loc_Exact
                (round_nearest_even_nonneg _ (loc_of_shr_record mrs') H1)) as H2.
  destruct (shr_fexp Num.prec Num.emax _ e' loc_Exact) as [mrs'' e'']. simpl in H2.
  destruct (shr_m mrs'') as [|m|m]; auto; [|lia].
  now destruct (e'' <=? Num.emax - Num.prec).
Qed.

Lemma binary_normalize_number (m e : Z) (szero : bool) :
  Num.isNaN (binary_normalize Num.prec Num.emax m e szero) = false.
Proof.
  unfold binary_normalize, binary_round.
  destruct m as [|p|p]; auto.
  - destruct (shl_align p e _) as [mz ez]. now apply binary_round_aux_number.
  - destruct (shl_align p e _) as [mz ez]. now apply binary_round_aux_number.
Qed.

(** The value of a decimal numeral is never NaN. *)
Lemma of_decimal_number (negative : bool) (m : N) (e : Z) :
  Num.isNaN (Num.of_decimal negative m e) = false.
Proof.
  unfold Num.of_decimal. destruct m as [|p]; auto.
  destruct e as [|d|d]; try apply binary_normalize_number.
  unfold SFdiv_core_binary.
  set (m' := match _ with Z0 => Zpos p | Zpos _ => _ | Zneg _ => _ end).
  assert (Hm : 0 <= m').
  { unfold m'. destruct (_ - _ - _); try lia. apply Z.shiftl_nonneg. lia. }
  assert (Hq : 0 <= fst (Z.div_eucl m' (Z.pow_pos 10 d))).
  { change (fst (Z.div_eucl m' (Z.pow_pos 10 d))) with (m' / Z.pow_pos 10 d).
    apply Z.div_pos; auto. rewrite Z.pow_pos_fold. apply Z.pow_pos_nonneg; lia. }
  destruct (Z.div_eucl m' (Z.pow_pos 10 d)) as [q r]. simpl in Hq.
  now apply binary_round_aux_number.
Qed.

End NumberFacts.

(* ================================================================== *)
(** * extractNumber: what the parse reads of the joined text *)
(* ================================================================== *)

Section NumericPrefix.

Import RegexFacts.

Lemma take_while_span (p : ascii -> bool) (s : string) :
  Num.take_while p s = Str.take (Str.span p s) s.
Proof. induction s as [|c s IH]; simpl; auto. destruct (p c); simpl; congruence. Qed.

Lemma drop_while_span (p : ascii -> bool) (s : string) :
  Num.drop_while p s = Str.drop (Str.span p s) s.
Proof. induction s as [|c s IH]; simpl; auto. destruct (p c); simpl; congruence. Qed.

Lemma head_drop_span (p : ascii -> bool) (s : string) :
  match Str.drop (Str.span p s) s with
  | String c _ => p c = false
  | EmptyString => True
  end.
Proof. induction s as [|c s IH]; simpl; auto. destruct (p c) eqn:E; simpl; auto. Qed.

Lemma all_take_span (p : ascii -> bool) (s : string) :
  Str.all p (Str.take (Str.span p s) s) = true.
Proof. induction s as [|c s IH]; simpl; auto. destruct (p c) eqn:E; simpl; auto. now rewrite E. Qed.

Lemma length_take (n : nat) (s : string) :
  n <= String.length s -> String.length (Str.take n s) = n.
Proof.
  revert s; induction n as [|n IH]; intros [|c s]; simpl; auto; try lia.
  intros H. rewrite IH; lia.
Qed.

Lemma span_all (p : ascii -> bool) (s : string) :
  Str.all p s = true -> Str.span p s = String.length s.
Proof.
  induction s as [|c s IH]; simpl; auto.
  intros H. apply andb_prop in H. destruct H as [-> H]. now rewrite IH.
Qed.

Lemma take_all (s : string) : Str.take (String.length s) s = s.
Proof. induction s; simpl; congruence. Qed.

Lemma drop_all (s : string) : Str.drop (String.length s) s = "".
Proof. induction s; simpl; congruence. Qed.

Lemma span_app (p : ascii -> bool) (a b : string) :
  Str.all p a = true ->
  Str.span p (a ++ b) = String.length a + Str.span p b.
Proof.
  induction a as [|c a IH]; simpl; auto.
  intros H. apply andb_prop in H. destruct H as [-> H]. now rewrite IH.
Qed.

Lemma take_app (a b : string) (k : nat) :
  Str.take (String.length a + k) (a ++ b) = a ++ Str.take k b.
Proof. induction a as [|c a IH]; simpl; congruence. Qed.

Lemma drop_app (a b : string) (k : nat) :
  Str.drop (String.length a + k) (a ++ b) = Str.drop k b.
Proof. induction a as [|c a IH]; simpl; congruence. Qed.

Lemma span_head_false (p : ascii -> bool) (s : string) :
  match s with String c _ => p c = false | EmptyString => True end ->
  Str.span p s = 0.
Proof. destruct s as [|c s]; simpl; auto. now intros ->. Qed.

(** ** Characters *)

Lemma digit_is_number_char (c : ascii) : Char.is_digit c = true -> number_char c = true.
Proof. unfold number_char. now intros ->. Qed.

Lemma number_char_plain (c : ascii) :
  number_char c = true ->
  Char.is_space c = false /\ Ascii.eqb c "+" = false /\
  (Ascii.eqb c "e" || Ascii.eqb c "E")%bool = false.
Proof. destruct c as [[] [] [] [] [] [] [] []]; cbv; intuition congruence. Qed.

Lemma digit_plain (c : ascii) :
  Char.is_digit c = true ->
  Ascii.eqb c "-" = false /\ Ascii.eqb c "." = false /\ c <> "I"%char.
Proof. destruct c as [[] [] [] [] [] [] [] []]; cbv; intuition congruence. Qed.

Lemma read_exponent_none (s : string) :
  Str.all number_char s = true -> Num.read_exponent s = 0%Z.
Proof.
  destruct s as [|c s]; simpl; auto.
  intros H. apply andb_prop in H. destruct H as [H _].
  apply number_char_plain in H. destruct H as [_ [_ H]].
  unfold Num.read_exponent. now rewrite H.
Qed.

(** ** The value of a decimal literal, by its digits and what follows *)

Lemma decimal_literal_split (negative : bool) (i r : string) :
  Str.all Char.is_digit i = true -> i <> "" ->
  match r with String c _ => Char.is_digit c = false | EmptyString => True end ->
  Num.decimal_literal negative (i ++ r) =
  let has_dot := match r with String c _ => Ascii.eqb c "." | EmptyString => false end in
  let after_dot := Str.drop 1 r in
  let frac := if has_dot
              then Str.take (Str.span Char.is_digit after_dot) after_dot else "" in
  let after_frac := if has_dot
                    then Str.drop (Str.span Char.is_digit after_dot) after_dot else r in
  Num.of_decimal negative (Num.digits_value 0 (i ++ frac))
                 (Num.read_exponent after_frac - Z.of_nat (String.length frac)).
Proof.
  intros Hi Hne Hr. unfold Num.decimal_literal.
  rewrite !take_while_span, !drop_while_span.
  rewrite (span_app _ i r Hi), (span_head_false _ r Hr).
  rewrite take_app, drop_app, drop_0. cbn [Str.take]. 
  replace (Str.take 0 r) with "" by (now destruct r).
  rewrite append_nil_r. cbv zeta.
  destruct i as [|a i']; [contradiction|]. reflexivity.
Qed.

(** What follows the number-looking text at the front does not change the
    value read. *)
Lemma decimal_literal_prefix_app (negative : bool) (i r : string) :
  Str.all Char.is_digit i = true -> i <> "" ->
  match r with String c _ => Char.is_digit c = false | EmptyString => True end ->
  Str.all number_char r = true ->
  Num.decimal_literal negative (i ++ r) =
  Num.decimal_literal negative (i ++ Str.take (fraction_length r) r) /\
  Num.isNaN (Num.decimal_literal negative (i ++ r)) = false.
Proof.
  intros Hi Hne Hr Hallr.
  rewrite (decimal_literal_split negative i r Hi Hne Hr).
  split; [|cbv zeta; apply of_decimal_number].
  destruct r as [|c r'].
  - cbn [fraction_length Str.take].
    now rewrite (decimal_literal_split negative i "" Hi Hne I).
  - cbn [fraction_length]. cbn [Str.all] in Hallr.
    apply andb_prop in Hallr. destruct Hallr as [Hc Hallr'].
    destruct (Ascii.eqb c ".") eqn:Ec.
    + apply Ascii.eqb_eq in Ec. subst c.
      change (Str.drop 1 (String "." r')) with r'.
      pose proof (all_take_span Char.is_digit r') as Hf.
      destruct (Str.span Char.is_digit r') as [|f] eqn:Ef.
      * cbn [Str.take].
        rewrite (decimal_literal_split negative i "" Hi Hne I).
        cbv zeta. cbn [Str.take Str.drop String.length].
        now rewrite (read_exponent_none r' Hallr').
      * change (Str.take (S (S f)) (String "." r')) with (String "." (Str.take (S f) r')).
        rewrite (decimal_literal_split negative i (String "." (Str.take (S f) r')) Hi Hne eq_refl).
        cbv zeta.
        change (Str.drop 1 (String "." (Str.take (S f) r'))) with (Str.take (S f) r').
        rewrite Ascii.eqb_refl.
        rewrite (span_all _ _ Hf), take_all, drop_all.
        rewrite (read_exponent_none (Str.drop (S f) r'))
          by (now apply all_drop).
        reflexivity.
    + cbn [Str.take].
      rewrite (decimal_literal_split negative i "" Hi Hne I).
      cbv zeta.
      rewrite (read_exponent_none (String c r')); [reflexivity|].
      cbn [Str.all]. now rewrite Hc, Hallr'.
Qed.

Lemma decimal_literal_prefix (negative : bool) (body : string) (d : nat) :
  Str.all number_char body = true ->
  Str.span Char.is_digit body = S d ->
  Num.decimal_literal negative body =
  Num.decimal_literal negative
    (Str.take (S d + fraction_length (Str.drop (S d) body)) body) /\
  Num.isNaN (Num.decimal_literal negative body) = false.
Proof.
  intros Hall Hd.
  pose proof (all_take_span Char.is_digit body) as Hi.
  pose proof (head_drop_span Char.is_digit body) as Hr.
  pose proof (span_le Char.is_digit body) as Hle.
  pose proof (all_drop number_char (S d) body Hall) as Hallr.
  rewrite Hd in Hi, Hr.
  assert (Hlen : String.length (Str.take (S d) body) = S d)
    by (apply length_take; lia).
  assert (Hne : Str.take (S d) body <> "")
    by (intros E; rewrite E in Hlen; discriminate).
  destruct (decimal_literal_prefix_app negative _ _ Hi Hne Hr Hallr) as [H1 H2].
  rewrite take_drop in H1, H2. split; auto.
  rewrite H1. f_equal.
  pose proof (take_app (Str.take (S d) body) (Str.drop (S d) body)
                       (fraction_length (Str.drop (S d) body))) as H.
  rewrite take_drop, Hlen in H. now rewrite H.
Qed.

Lemma span_take_more (p : ascii -> bool) (s : string) (k : nat) :
  Str.span p (Str.take (Str.span p s + k) s) = Str.span p s.
Proof.
  induction s as [|c s IH]; simpl.
  - now destruct k.
  - destruct (p c) eqn:E; simpl.
    + now rewrite E, IH.
    + destruct k; simpl; auto. now rewrite E.
Qed.

Lemma starts_with_digit (body : string) (d : nat) :
  Str.span Char.is_digit body = S d -> Num.starts_with "Infinity" body = false.
Proof.
  destruct body as [|c body]; cbn [Str.span]; [discriminate|].
  destruct (Char.is_digit c) eqn:E; [|discriminate]. intros _.
  destruct (digit_plain c E) as [_ [_ Hne]].
  change (Num.starts_with "Infinity" (String c body))
    with (Ascii.eqb "I" c && Num.starts_with "nfinity" body)%bool.
  destruct (Ascii.eqb_spec "I" c) as [<-|]; [contradiction|reflexivity].
Qed.

(** After the sign, the parse of a text that starts with digits is the
    parse of its number-looking front. *)
Lemma literal_prefix (ad negative : bool) (body : string) (d : nat) :
  Str.all number_char body = true ->
  Str.span Char.is_digit body = S d ->
  let literal := if ad then Num.unsigned_literal else Num.integer_literal in
  let n := S d + (if ad then fraction_length (Str.drop (S d) body) else 0) in
  literal negative body = literal negative (Str.take n body) /\
  Num.isNaN (literal negative body) = false.
Proof.
  intros Hall Hd literal n. unfold literal, n. clear literal n.
  assert (Hd' : forall k, Str.span Char.is_digit (Str.take (S d + k) body) = S d).
  { intros k. rewrite <- Hd. apply span_take_more. }
  destruct ad.
  - unfold Num.unsigned_literal.
    rewrite (starts_with_digit _ _ Hd), (starts_with_digit _ _ (Hd' _)).
    now apply decimal_literal_prefix.
  - unfold Num.integer_literal. rewrite !take_while_span, Hd, Hd'.
    pose proof (span_le Char.is_digit body) as Hle.
    assert (Hlen : String.length (Str.take (S d) body) = S d)
      by (apply length_take; lia).
    rewrite Nat.add_0_r.
    assert (Ht : Str.take (S d) (Str.take (S d) body) = Str.take (S d) body).
    { rewrite <- Hlen at 1. apply take_all. }
    rewrite Ht.
    destruct (Str.take (S d) body) as [|a z]; [discriminate|].
    split; [reflexivity|apply of_decimal_number].
Qed.

(** The parse of a text of number characters that starts like a number is
    the parse of its longest numeric prefix, and is a number. *)
Lemma parse_numeric_prefix (ad : bool) (t : string) (n : nat) :
  Str.all number_char t = true ->
  number_length true ad t = Some n ->
  let parse := if ad then Num.parseFloat else Num.parseInt10 in
  parse t = parse (Str.take n t) /\ Num.isNaN (parse t) = false.
Proof.
  intros Hall Hn.
  assert (Hparse : forall s,
             (if ad then Num.parseFloat else Num.parseInt10) s =
             let '(negative, body) := Num.read_sign (Str.trimStart s) in
             (if ad then Num.unsigned_literal else Num.integer_literal) negative body)
    by (intros s; destruct ad; reflexivity).
  cbv zeta. rewrite !Hparse. clear Hparse.
  destruct t as [|c s']; [discriminate|].
  unfold number_length in Hn. cbn [andb] in Hn.
  cbn [Str.all] in Hall. apply andb_prop in Hall. destruct Hall as [Hc Hall].
  destruct (number_char_plain c Hc) as [Hsp [Hplus _]].
  destruct (Ascii.eqb c "-") eqn:Ec.
  - destruct (Str.span Char.is_digit s') as [|d] eqn:Ed; [discriminate|].
    assert (En : n = S (S d + (if ad then fraction_length (Str.drop (S d) s') else 0)))
      by (injection Hn as <-; reflexivity).
    rewrite En. cbn [Str.take Str.trimStart]. rewrite Hsp.
    unfold Num.read_sign. rewrite Ec.
    exact (literal_prefix ad true s' d Hall Ed).
  - destruct (Str.span Char.is_digit (String c s')) as [|d] eqn:Ed; [discriminate|].
    assert (En : n = S d + (if ad then fraction_length (Str.drop (S d) (String c s')) else 0))
      by (injection Hn as <-; reflexivity).
    assert (Hall' : Str.all number_char (String c s') = true)
      by (cbn [Str.all]; now rewrite Hc, Hall).
    destruct (literal_prefix ad false (String c s') d Hall' Ed) as [H1 H2].
    rewrite En.
    assert (Hs : forall x, Num.read_sign (Str.trimStart (String c x)) = (false, String c x)).
    { intros x. cbn [Str.trimStart]. rewrite Hsp. unfold Num.read_sign.
      now rewrite Ec, Hplus. }
    rewrite Hs.
    change (Str.take (S d + ?k) (String c s')) with (String c (Str.take (d + k) s')) in *.
    rewrite Hs. auto.
Qed.

End NumericPrefix.

Section NumberTexts.

Import RegexFacts.

Lemma all_impl (p q : ascii -> bool) (s : string) :
  (forall c, p c = true -> q c = true) -> Str.all p s = true -> Str.all q s = true.
Proof.
  intros H. induction s as [|c s IH]; simpl; auto.
  intros Hs. apply andb_prop in Hs. destruct Hs as [Hc Hs].
  now rewrite (H c Hc), IH.
Qed.

Lemma take_add (n k : nat) (s : string) :
  Str.take (n + k) s = Str.take n s ++ Str.take k (Str.drop n s).
Proof.
  revert s; induction n as [|n IH]; intros s.
  - now rewrite drop_0.
  - destruct s as [|c s]; simpl.
    + now destruct k.
    + now rewrite IH.
Qed.

Lemma concat_cons (m : string) (ms : list string) :
  String.concat "" (m :: ms) = m ++ String.concat "" ms.
Proof. destruct ms; simpl; auto. now rewrite append_nil_r. Qed.

Lemma all_concat (p : ascii -> bool) (ms : list string) :
  Forall (fun m => Str.all p m = true) ms -> Str.all p (String.concat "" ms) = true.
Proof.
  induction 1 as [|m ms Hm _ IH]; auto.
  now rewrite concat_cons, all_append, Hm, IH.
Qed.

(** Every occurrence is what [here] finds at the front of some string. *)
Lemma occurrences_found (here : string -> option nat) (fuel : nat) :
  forall s, Forall (fun m => exists s' n, here s' = Some n /\ m = Str.take n s')
                   (occurrences here fuel s).
Proof.
  induction fuel as [|fuel IH]; intros s; simpl; [constructor|].
  destruct (here s) as [n|] eqn:E.
  - constructor; eauto.
  - destruct s; [constructor|apply IH].
Qed.

Lemma fraction_chars (r : string) :
  Str.all number_char (Str.take (fraction_length r) r) = true.
Proof.
  destruct r as [|c r']; auto. cbn [fraction_length].
  destruct (Ascii.eqb c ".") eqn:Ec; auto.
  pose proof (all_take_span Char.is_digit r') as H.
  destruct (Str.span Char.is_digit r') as [|f]; auto.
  cbn [Str.take Str.all]. unfold number_char at 1. rewrite Ec, orb_true_r.
  apply (all_impl _ _ _ digit_is_number_char H).
Qed.

Lemma body_chars (ad : bool) (body : string) (d : nat) :
  Str.span Char.is_digit body = S d ->
  Str.all number_char
    (Str.take (S d + (if ad then fraction_length (Str.drop (S d) body) else 0)) body)
  = true.
Proof.
  intros Hd. rewrite take_add, all_append.
  pose proof (all_take_span Char.is_digit body) as H. rewrite Hd in H.
  rewrite (all_impl _ _ _ digit_is_number_char H).
  destruct ad; [apply fraction_chars|reflexivity].
Qed.

(** A number-looking text is made of digits, minus signs and dots. *)
Lemma number_length_chars (an ad : bool) (s : string) (n : nat) :
  number_length an ad s = Some n -> Str.all number_char (Str.take n s) = true.
Proof.
  unfold number_length. destruct s as [|c s']; [discriminate|].
  destruct (an && Ascii.eqb c "-")%bool eqn:Ec.
  - destruct (Str.span Char.is_digit s') as [|d] eqn:Ed; [discriminate|].
    intros Hn.
    assert (En : n = S (S d + (if ad then fraction_length (Str.drop (S d) s') else 0)))
      by (injection Hn as <-; reflexivity).
    rewrite En. cbn [Str.take Str.all].
    apply andb_prop in Ec. destruct Ec as [_ Ec].
    unfold number_char at 1. rewrite Ec, orb_true_r. cbn [andb].
    now apply body_chars.
  - destruct (Str.span Char.is_digit (String c s')) as [|d] eqn:Ed; [discriminate|].
    intros Hn.
    assert (En : n = S d + (if ad then fraction_length (Str.drop (S d) (String c s')) else 0))
      by (injection Hn as <-; reflexivity).
    rewrite En. now apply body_chars.
Qed.

Lemma span_app_positive (p : ascii -> bool) (a b : string) (d : nat) :
  Str.span p a = S d -> exists d', Str.span p (a ++ b) = S d'.
Proof.
  destruct a as [|c a]; simpl; [discriminate|].
  destruct (p c); [eauto|discriminate].
Qed.

Lemma span_take_positive (p : ascii -> bool) (s : string) (d k : nat) :
  Str.span p s = S d -> exists d', Str.span p (Str.take (S k) s) = S d'.
Proof.
  destruct s as [|c s]; simpl; [discriminate|].
  destruct (p c); [eauto|discriminate].
Qed.

(** A text that starts with a number-looking text starts like a number. *)
Lemma number_length_front (an ad : bool) (s rest : string) (n : nat) :
  number_length an ad s = Some n ->
  exists n', number_length true ad (Str.take n s ++ rest) = Some n'.
Proof.
  unfold number_length. destruct s as [|c s']; [discriminate|].
  destruct (an && Ascii.eqb c "-")%bool eqn:Ec.
  - destruct (Str.span Char.is_digit s') as [|d] eqn:Ed; [discriminate|].
    intros Hn.
    assert (En : n = S (S d + (if ad then fraction_length (Str.drop (S d) s') else 0)))
      by (injection Hn as <-; reflexivity).
    rewrite En. apply andb_prop in Ec. destruct Ec as [_ Ec].
    change (Str.take (S ?k) (String c s') ++ rest)
      with (String c (Str.take k s' ++ rest)).
    cbn [andb]. rewrite Ec.
    destruct (span_take_positive _ s' d
                (d + (if ad then fraction_length (Str.drop (S d) s') else 0)) Ed)
      as [d1 H1].
    destruct (span_app_positive _ _ rest _ H1) as [d2 H2].
    cbn [Nat.add] in H2 |- *. rewrite H2. eauto.
  - destruct (Str.span Char.is_digit (String c s')) as [|d] eqn:Ed; [discriminate|].
    intros Hn.
    assert (En : n = S d + (if ad then fraction_length (Str.drop (S d) (String c s')) else 0))
      by (injection Hn as <-; reflexivity).
    rewrite En.
    destruct (span_take_positive _ (String c s') d
                (d + (if ad then fraction_length (Str.drop (S d) (String c s')) else 0)) Ed)
      as [d1 H1].
    destruct (span_app_positive _ _ rest _ H1) as [d2 H2].
    cbn [Nat.add] in H1, H2 |- *.
    assert (Hdig : Char.is_digit c = true).
    { cbn [Str.span] in Ed. destruct (Char.is_digit c); [reflexivity|discriminate]. }
    destruct (digit_plain c Hdig) as [Hm _].
    change (Str.take (S ?k) (String c s') ++ rest)
      with (String c (Str.take k s' ++ rest)) in *.
    cbn [andb]. rewrite Hm, H2. eauto.
Qed.

End NumberTexts.

(** C10: when the string has a number-looking text, [extractNumber] returns
    the parse of the longest numeric prefix of the joined texts, which is a
    number and so never gives way to the default, also when the joined text
    goes on with a minus sign or a second dot; the call on "3 -4" with
    negatives allowed returns 3. *)
Theorem extractNumber_numeric_prefix :
  (forall (str : string) (options : ExtractNumberOptions),
      let an := default false (allowNegative options) in
      let ad := default false (allowDecimals options) in
      let text := String.concat "" (number_texts an ad str) in
      let parse := if ad then Num.parseFloat else Num.parseInt10 in
      String.eqb (Str.trim str) "" = false ->
      number_texts an ad str <> [] ->
      numeric_prefix ad text <> "" /\
      Num.isNaN (parse (numeric_prefix ad text)) = false /\
      extractNumber (VStr str) options = Ok (parse (numeric_prefix ad text))) /\
  number_texts true false "3 -4" = ["3"; "-4"] /\
  numeric_prefix false "3-4" = "3" /\
  extractNumber (VStr "3 -4") (mkExtractNumberOptions None (Some true) None)
  = Ok (Num.of_Z 3).
Proof.
  split; [|repeat split; reflexivity].
  intros str options an ad text parse Htrim Htexts.
  rewrite extractNumber_steps. unfold extractNumber_spec. rewrite Htrim.
  fold an ad. fold text.
  pose proof (occurrences_found (number_length an ad) (String.length str) str) as Hfound.
  fold (number_texts an ad str) in Hfound.
  assert (Hchars : Str.all number_char text = true).
  { apply all_concat. eapply Forall_impl; [|exact Hfound].
    intros m [s' [n [Hn ->]]]. eapply number_length_chars, Hn. }
  assert (Hfront : exists n, number_length true ad text = Some n).
  { unfold text. destruct (number_texts an ad str) as [|m ms]; [contradiction|].
    rewrite concat_cons. inversion Hfound as [|? ? [s' [n [Hn ->]]] _]; subst.
    eapply number_length_front, Hn. }
  destruct Hfront as [n Hn].
  destruct (parse_numeric_prefix ad text n Hchars Hn) as [Hp Hnan].
  fold parse in Hp, Hnan.
  unfold numeric_prefix. rewrite Hn, <- Hp.
  repeat split; auto.
  - intros E. rewrite E in Hp. rewrite Hp in Hnan.
    destruct ad; discriminate.
  - assert (Hres : (if ad then Num.parseFloat text else Num.parseInt10 text) = parse text)
      by (unfold parse; destruct ad; reflexivity).
    clearbody parse. unfold text in *.
    destruct (number_texts an ad str); [contradiction|].
    cbv zeta. now rewrite Hres, Hnan.
Qed.

(* ================================================================== *)
(** * The statements at concrete inputs *)
(* ================================================================== *)

Lemma slugify_charset_witness :
  In "h"%char (list_ascii_of_string (slugify "Hello, World!")) /\
  (Char.is_space "h" = false /\
   (Char.is_lower "h" = true \/ Char.is_digit "h" = true \/
    "h"%char = "_"%char \/ "h"%char = "-"%char)).
Proof.
  split.
  - vm_compute. auto.
  - apply (slugify_charset "Hello, World!"). vm_compute. auto.
Defined.

Lemma extractNumber_numeric_prefix_witness :
  numeric_prefix true "1.23.4" <> "" /\
  Num.isNaN (Num.parseFloat (numeric_prefix true "1.23.4")) = false /\
  extractNumber (VStr "a 1.2 and 3.4") (mkExtractNumberOptions (Some true) None None)
  = Ok (Num.parseFloat (numeric_prefix true "1.23.4")).
Proof.
  apply (proj1 extractNumber_numeric_prefix "a 1.2 and 3.4"
               (mkExtractNumberOptions (Some true) None None)).
  - reflexivity.
  - discriminate.
Defined.

(* ================================================================== *)
(** * replaceString: the pattern of the keys *)
(* ================================================================== *)

Section KeyPattern.

Import RegexFacts.

Lemma special_class (c : ascii) :
  xorb false (set_mem false
                (List.map CChar ["."; "*"; "+"; "?"; "^"; "$"; "{"; "}"; "("; ")";
                                 "|"; "["; "]"; "\"]%char) c) = special c.
Proof. destruct c as [[] [] [] [] [] [] [] []]; reflexivity. Qed.

(** [escapeRegexStr] puts a backslash before each special character and
    leaves the others. *)
Lemma escapeRegexStr_escaped (key : string) : escapeRegexStr true key = escaped key.
Proof.
  unfold escapeRegexStr, Regex.replace.
  induction key as [|c key IH]; [reflexivity|].
  rewrite scan_cons. unfold match_here.
  change (rmatch (ignoreCase re_special) (source re_special) (String c key) Some)
    with (if xorb false (set_mem false
                (List.map CChar ["."; "*"; "+"; "?"; "^"; "$"; "{"; "}"; "("; ")";
                                 "|"; "["; "]"; "\"]%char) c)
          then Some key else None).
  rewrite special_class. cbn [escaped].
  destruct (special c).
  - cbn [String.length]. replace (S (String.length key) - String.length key) with 1 by lia.
    cbn [global re_special splice Str.take]. now rewrite IH.
  - cbn [splice]. now rewrite IH.
Qed.

Lemma parse_plain (c : ascii) (p : string) (stack : list Pattern.frame)
      (cur : Pattern.frame) (q : Pattern.quantifiable) :
  special c = false ->
  Pattern.parse (String c p) stack cur q =
  Pattern.parse p stack (Pattern.push_term (RChar c) cur) Pattern.AnAtom.
Proof.
  destruct c as [[] [] [] [] [] [] [] []]; intros H;
    first [discriminate H | reflexivity].
Qed.

Lemma parse_special (c : ascii) (p : string) (stack : list Pattern.frame)
      (cur : Pattern.frame) (q : Pattern.quantifiable) :
  special c = true ->
  Pattern.parse (String "\" (String c p)) stack cur q =
  Pattern.parse p stack (Pattern.push_term (RChar c) cur) Pattern.AnAtom.
Proof.
  destruct c as [[] [] [] [] [] [] [] []]; intros H;
    first [discriminate H | reflexivity].
Qed.

(** An escaped key is read as its characters, one literal each. *)
Lemma parse_escaped (key p : string) :
  forall (stack : list Pattern.frame) (cur : Pattern.frame) (q : Pattern.quantifiable),
    Pattern.parse (escaped key ++ p) stack cur q =
    Pattern.parse p stack
      (Pattern.mkFrame (Pattern.alts cur)
         (rev (List.map RChar (list_ascii_of_string key)) ++ Pattern.terms cur)%list)
      (match key with EmptyString => q | _ => Pattern.AnAtom end).
Proof.
  induction key as [|c key IH]; intros stack cur q.
  - now destruct cur.
  - cbn [escaped list_ascii_of_string List.map rev].
    destruct (special c) eqn:E.
    + change (String "\" (String c (escaped key)) ++ p)
        with (String "\" (String c (escaped key ++ p))).
      rewrite (parse_special c _ stack cur q E), IH.
      cbn [Pattern.push_term Pattern.alts Pattern.terms].
      rewrite <- app_assoc. cbn [app]. now destruct key.
    + change (String c (escaped key) ++ p) with (String c (escaped key ++ p)).
      rewrite (parse_plain c _ stack cur q E), IH.
      cbn [Pattern.push_term Pattern.alts Pattern.terms].
      rewrite <- app_assoc. cbn [app]. now destruct key.
Qed.

Lemma join_cons (sep x y : string) (l : list string) :
  Str.join sep (x :: y :: l) = x ++ sep ++ Str.join sep (y :: l).
Proof. reflexivity. Qed.

(** The pattern of escaped keys compiles to the alternation of the
    literal keys, in the order of the keys. *)
Lemma parse_keys (keys : list string) :
  forall (key : string) (done : list regex) (q : Pattern.quantifiable),
    Pattern.parse (pattern_of true (key :: keys)) [] (Pattern.mkFrame done []) q =
    Ok (match (rev done ++ List.map literal (key :: keys))%list with
        | [] => REmpty
        | a :: rest => Pattern.alt_of a rest
        end).
Proof.
  unfold pattern_of.
  induction keys as [|key' keys IH]; intros key done q.
  - cbn [List.map Str.join String.concat].
    rewrite escapeRegexStr_escaped, <- (append_nil_r (escaped key)), parse_escaped.
    cbn [Pattern.parse]. unfold Pattern.close.
    cbn [Pattern.alts Pattern.terms].
    rewrite app_nil_r, rev_involutive. cbn [rev]. reflexivity.
  - cbn [List.map]. rewrite join_cons, escapeRegexStr_escaped, parse_escaped.
    change ("|" ++ ?x) with (String "|" x).
    cbn [Pattern.alts Pattern.terms].
    change (Pattern.parse (String "|" ?x) [] ?cur ?q')
      with (Pattern.parse x []
              (Pattern.mkFrame (Pattern.seq_of (rev (Pattern.terms cur)) :: Pattern.alts cur) [])
              Pattern.Nothing).
    cbn [Pattern.alts Pattern.terms].
    rewrite app_nil_r, rev_involutive.
    pose proof (IH key' (literal key :: done) Pattern.Nothing) as H.
    cbn [List.map rev] in H. rewrite <- app_assoc in H. exact H.
Qed.

Lemma compile_keys (key : string) (keys : list string) (flags : string) :
  Pattern.RegExp_new (pattern_of true (key :: keys)) flags =
  Ok (mkRegExp (alternation (key :: keys))
               (Pattern.has_flag "g" flags) (Pattern.has_flag "i" flags)).
Proof.
  unfold Pattern.RegExp_new.
  change Pattern.empty_frame with (Pattern.mkFrame [] []).
  now rewrite parse_keys.
Qed.

End KeyPattern.

Section KeyMatching.

Import RegexFacts.

Variable ic : bool.

(** A literal key matches exactly its own characters. *)
Lemma literal_match (key : string) :
  forall (s : string) (k : cont),
    rmatch ic (literal key) s k =
    if at_front ic key s then k (Str.drop (String.length key) s) else None.
Proof.
  unfold literal.
  induction key as [|a key IH]; intros s k.
  - cbn [list_ascii_of_string List.map Pattern.seq_of fold_right rmatch at_front
         String.length].
    now rewrite drop_0.
  - cbn [list_ascii_of_string List.map Pattern.seq_of fold_right rmatch].
    destruct s as [|b s]; [reflexivity|].
    cbn [at_front String.length Str.drop].
    destruct (N.eqb _ _); [|reflexivity].
    cbn [andb]. apply IH.
Qed.

Lemma at_front_length (key s : string) :
  at_front ic key s = true -> String.length key <= String.length s.
Proof.
  revert s; induction key as [|a key IH]; intros [|b s]; simpl; try lia; try discriminate.
  intros H. apply andb_prop in H. destruct H as [_ H]. apply IH in H. lia.
Qed.

(** An alternation of literal keys matches the first key, in order, that
    is at the front. *)
Lemma alternation_match (keys : list string) :
  forall (key : string) (s : string),
    rmatch ic (alternation (key :: keys)) s Some =
    match first_key ic (key :: keys) s with
    | Some found => Some (Str.drop (String.length found) s)
    | None => None
    end.
Proof.
  unfold alternation, first_key.
  induction keys as [|key' keys IH]; intros key s; cbn [List.map Pattern.alt_of List.find].
  - rewrite literal_match. now destruct (at_front ic key s).
  - cbn [rmatch]. rewrite literal_match.
    destruct (at_front ic key s); [reflexivity|].
    apply IH.
Qed.

Lemma match_here_alternation (g : bool) (key : string) (keys : list string) (s : string) :
  match_here (mkRegExp (alternation (key :: keys)) g ic) s =
  option_map String.length (first_key ic (key :: keys) s).
Proof.
  unfold match_here. cbn [source ignoreCase]. rewrite alternation_match.
  destruct (first_key ic (key :: keys) s) as [found|] eqn:E; [|reflexivity].
  cbn [option_map]. f_equal. apply length_sub_drop.
  apply find_some in E. destruct E as [_ E]. now apply at_front_length.
Qed.

End KeyMatching.

(** C5, as the code has it: a text that is not a string, and replacements
    that are [null], [undefined] or not of type object, are refused with a
    TypeError; with [escapeRegex] the pattern of the keys compiles to the
    alternation of the keys taken literally, whatever characters they hold;
    without it, for a text that is not empty and replacements that have a
    key, a pattern of the keys that is not valid syntax makes the call fail
    with that SyntaxError, as a bare [+] does. *)
Theorem replaceString_errors :
  (forall text replacements options,
      Val.typeof text <> Val.TString ->
      replaceString text replacements options
      = Throw (TypeError "Input text must be a string")) /\
  (forall s replacements options,
      Val.truthy replacements = false \/ Val.typeof replacements <> Val.TObject ->
      replaceString (VStr s) replacements options
      = Throw (TypeError "Replacements must be an object")) /\
  (forall key keys flags,
      Pattern.RegExp_new (pattern_of true (key :: keys)) flags
      = Ok (mkRegExp (alternation (key :: keys))
                     (Pattern.has_flag "g" flags) (Pattern.has_flag "i" flags))) /\
  (forall ic key s k,
      rmatch ic (literal key) s k =
      if at_front ic key s then k (Str.drop (String.length key) s) else None) /\
  (forall s replacements options e,
      s <> "" -> is_object replacements = true -> Val.keys replacements <> [] ->
      escapeRegex options = Some false ->
      Pattern.parse (pattern_of false (List.map fst (stringReplacements replacements)))
                    [] Pattern.empty_frame Pattern.Nothing
      = Throw (SyntaxError e) ->
      replaceString (VStr s) replacements options = Throw (SyntaxError e)) /\
  replaceString (VStr "1 + 1 = 2") (VObj [("+", VStr "plus")])
                (mkReplaceOptions None None (Some false))
  = Throw (SyntaxError "Nothing to repeat").
Proof.
  repeat split.
  - intros text replacements options H. destruct text; try reflexivity.
    exfalso. now apply H.
  - intros s replacements options [H|H]; unfold replaceString.
    + now rewrite H.
    + assert (E : Val.type_eqb (Val.typeof replacements) Val.TObject = false)
        by (destruct replacements; try reflexivity; exfalso; now apply H).
      now rewrite E, orb_true_r.
  - intros. apply compile_keys.
  - intros. apply literal_match.
  - intros s replacements options e Hs Hobj Hkeys Hesc Hparse.
    unfold replaceString.
    assert (H1 : (negb (Val.truthy replacements)
                  || negb (Val.type_eqb (Val.typeof replacements) Val.TObject))%bool = false)
      by (destruct replacements; try discriminate; reflexivity).
    rewrite H1.
    assert (H2 : (negb (Val.truthy (VStr s))
                  || Nat.eqb (List.length (Val.keys replacements)) 0)%bool = false).
    { destruct s; [contradiction|]. destruct (Val.keys replacements); [contradiction|].
      reflexivity. }
    rewrite H2, Hesc. cbn [default]. unfold Pattern.RegExp_new. now rewrite Hparse.
Qed.

(** C5 as stated fails: with an empty text the call returns before any
    pattern is built, so a bare [+] key raises nothing, and an array passes
    for replacements. *)
Lemma replaceString_no_error :
  Pattern.RegExp_new "+" "gi" = Throw (SyntaxError "Nothing to repeat") /\
  replaceString (VStr "") (VObj [("+", VStr "plus")])
                (mkReplaceOptions None None (Some false)) = Ok "" /\
  replaceString (VStr "a") (VArr []) (mkReplaceOptions None None None) = Ok "a".
Proof. repeat split. Qed.

(* ================================================================== *)
(** * replaceString: which key a match resolves to *)
(* ================================================================== *)

Section LetterCase.








End LetterCase.

Section StringReplacements.

Lemma assign_fresh {A : Type} (key : string) (v : A) (acc : list (string * A)) :
  ~ In key (List.map fst acc) -> assign key v acc = (acc ++ [(key, v)])%list.
Proof.
  induction acc as [|[k x] acc IH]; intros H; simpl; auto.
  destruct (String.eqb_spec k key) as [->|Hne].
  - exfalso. apply H. now left.
  - rewrite IH; auto. intros Hin. apply H. now right.
Qed.

Lemma fold_assign (props : list (string * value)) :
  forall acc : list (string * string),
    NoDup (List.map fst acc ++ List.map fst props) ->
    fold_left (fun acc '(key, v) => assign key (Val.toString v) acc) props acc =
    (acc ++ List.map (fun kv => (fst kv, Val.toString (snd kv))) props)%list.
Proof.
  induction props as [|[k v] props IH]; intros acc Hnd; simpl.
  - now rewrite app_nil_r.
  - simpl in Hnd.
    rewrite assign_fresh.
    + rewrite IH.
      * now rewrite <- app_assoc.
      * rewrite List.map_app, <- app_assoc. exact Hnd.
    + apply NoDup_remove_2 in Hnd. intros Hin. apply Hnd, in_or_app. now left.
Qed.

(** The keys of an object are distinct, so its string replacements are its
    entries with the values turned into strings. *)
Lemma stringReplacements_map (props : list (string * value)) :
  NoDup (List.map fst props) ->
  stringReplacements (VObj props) =
  List.map (fun kv => (fst kv, Val.toString (snd kv))) props.
Proof.
  intros Hnd. unfold stringReplacements. cbn [Val.entries].
  now rewrite (fold_assign props []).
Qed.



Lemma toLowerCase_length (s : string) :
  String.length (Str.toLowerCase s) = String.length s.
Proof. induction s; simpl; auto. Qed.


Lemma replacer_empty (ic : bool) (sr : list (string * string)) : replacer ic sr "" = "".
Proof.
  unfold replacer. destruct ic; [|reflexivity].
  destruct (List.find _ _) as [k|] eqn:E; [|reflexivity].
  apply find_some in E. destruct E as [_ E]. apply String.eqb_eq in E.
  destruct k; [reflexivity|discriminate].
Qed.

End StringReplacements.

Section ReplaceSteps.

Import RegexFacts.

Variables (g ic : bool) (key0 : string) (keys : list string).
Variable f : string -> string.
Hypothesis f_empty : f "" = "".

Let re : RegExp := mkRegExp (alternation (key0 :: keys)) g ic.

Lemma replace_empty : Regex.replace re f "" = "".
Proof.
  unfold Regex.replace. rewrite scan_nil. unfold re.
  rewrite match_here_alternation.
  destruct (first_key ic (key0 :: keys) "") as [found|] eqn:E; [|reflexivity].
  apply find_some in E. destruct E as [_ E].
  destruct found; [|discriminate].
  cbn [option_map String.length Str.take Str.drop global splice].
  rewrite f_empty. now destruct g.
Qed.


(** No key at the front: the character is kept and the scan moves on. *)
Lemma replace_step_none (c : ascii) (text : string) :
  first_key ic (key0 :: keys) (String c text) = None ->
  Regex.replace re f (String c text) = String c (Regex.replace re f text).
Proof.
  intros Hkey. unfold Regex.replace.
  rewrite scan_cons. unfold re at 1. rewrite match_here_alternation, Hkey.
  reflexivity.
Qed.

End ReplaceSteps.

Lemma flags_read (a i : bool) :
  Pattern.has_flag "g" ((if a then "g" else "") ++ (if i then "i" else "")) = a /\
  Pattern.has_flag "i" ((if a then "g" else "") ++ (if i then "i" else "")) = i.
Proof. destruct a, i; split; reflexivity. Qed.

(** With escaping on, the call is one scan of the text for the alternation
    of the keys in the order of the map. *)
Lemma replaceString_scan (options : ReplaceOptions) (key0 : string) (v0 : value)
      (props' : list (string * value)) (text : string) :
  NoDup (List.map fst ((key0, v0) :: props')) ->
  escapeRegex options <> Some false ->
  replaceString (VStr text) (VObj ((key0, v0) :: props')) options =
  Ok (Regex.replace
        (mkRegExp (alternation (List.map fst ((key0, v0) :: props')))
                  (default true (replaceAll options))
                  (default true (opt_ignoreCase options)))
        (replacer (default true (opt_ignoreCase options))
                  (List.map (fun kv => (fst kv, Val.toString (snd kv)))
                            ((key0, v0) :: props')))
        text).
Proof.
  intros keys_distinct escaping. unfold replaceString.
  cbn [Val.truthy Val.typeof Val.type_eqb negb orb Val.keys Val.entries].
  destruct text as [|c text].
  - cbn [Val.truthy Str.is_empty negb orb List.map].
    now rewrite replace_empty by apply replacer_empty.
  - cbn [Val.truthy Str.is_empty negb orb].
    change (Nat.eqb (List.length (List.map fst ((key0, v0) :: props'))) 0) with false.
    cbv iota.
    rewrite (stringReplacements_map _ keys_distinct).
    rewrite List.map_map.
    assert (Hesc : default true (escapeRegex options) = true).
    { destruct (escapeRegex options) as [[|]|]; auto; exfalso; now apply escaping. }
    rewrite Hesc.
    replace (List.map (fun x => fst (fst x, Val.toString (snd x))) ((key0, v0) :: props'))
      with (List.map fst ((key0, v0) :: props'))
      by (apply List.map_ext; reflexivity).
    cbn [List.map fst]. rewrite compile_keys. cbn [bind].
    destruct (flags_read (default true (replaceAll options))
                         (default true (opt_ignoreCase options))) as [-> ->].
    reflexivity.
Qed.



(* ================================================================== *)
(** * The store: what a call leaves untouched *)
(* ================================================================== *)

Local Open Scope list_scope.

Module StoreFacts.

Import Store.

Section Keeps.

Context {A B : Type}.
Variable n : nat.

Lemma keeps_observe (r : heap -> result A) : keeps n (fun h => (r h, h)).
Proof. intros h Hn. simpl. auto. Qed.

Lemma keeps_ret (a : A) : keeps n (ret a).
Proof. apply (keeps_observe (fun _ => Ok a)). Qed.

Lemma keeps_throw (e : error) : keeps n (@throw A e).
Proof. apply (keeps_observe (fun _ => Throw e)). Qed.

Lemma keeps_bind (m : M A) (k : A -> M B) :
  keeps n m -> (forall a, keeps n (k a)) -> keeps n (bind m k).
Proof.
  intros Hm Hk h Hn. unfold bind.
  destruct (Hm h Hn) as [H1 H2].
  destruct (m h) as [[a|e|] h']; simpl in *; auto.
  destruct (Hk a h' H1) as [H3 H4]. split; auto. congruence.
Qed.

End Keeps.

Lemma keeps_alloc (n : nat) (o : object) : keeps n (alloc o).
Proof.
  intros h Hn. unfold alloc. simpl. rewrite length_app. split; [lia|].
  now rewrite firstn_app, (proj2 (Nat.sub_0_le n (List.length h)) Hn), app_nil_r.
Qed.

(** After [alloc], the new address is not below [n]. *)
Lemma keeps_alloc_bind {B : Type} (n : nat) (o : object) (k : rvalue -> M B) :
  (forall r, n <= r -> keeps n (k (RRef r))) -> keeps n (bind (alloc o) k).
Proof.
  intros Hk h Hn. unfold bind, alloc.
  assert (Hn' : n <= List.length (h ++ [o])) by (rewrite length_app; lia).
  destruct (Hk (List.length h) Hn (h ++ [o])%list Hn') as [H1 H2].
  split; auto. rewrite H2.
  now rewrite firstn_app, (proj2 (Nat.sub_0_le n (List.length h)) Hn), app_nil_r.
Qed.

Lemma keeps_load (n l : nat) : keeps n (load l).
Proof.
  intros h Hn. unfold load. destruct (nth_error h l); simpl; auto.
Qed.

Lemma length_set_nth (l : nat) (o : object) (h : heap) :
  List.length (set_nth l o h) = List.length h.
Proof.
  revert h; induction l as [|l IH]; intros [|x h]; simpl; auto.
Qed.

Lemma firstn_set_nth (n l : nat) (o : object) (h : heap) :
  n <= l -> firstn n (set_nth l o h) = firstn n h.
Proof.
  revert n h; induction l as [|l IH]; intros n h Hn.
  - assert (n = 0) by lia. subst. reflexivity.
  - destruct h as [|x h]; [reflexivity|].
    destruct n as [|n]; [reflexivity|]. simpl. rewrite IH; auto. lia.
Qed.

(** A write at an address that is not below [n]. *)
Lemma keeps_store (n l : nat) (o : object) : n <= l -> keeps n (store l o).
Proof.
  intros Hl h Hn. unfold store. simpl.
  rewrite length_set_nth. split; auto. now apply firstn_set_nth.
Qed.

Lemma keeps_mapM {A B : Type} (n : nat) (f : A -> M B) (xs : list A) :
  (forall x, keeps n (f x)) -> keeps n (mapM f xs).
Proof.
  intros Hf. induction xs as [|x xs IH]; simpl.
  - apply keeps_ret.
  - apply keeps_bind; auto. intros y.
    apply keeps_bind; auto. intros ys. apply keeps_ret.
Qed.

Create HintDb keeps.
#[local] Hint Resolve keeps_ret keeps_throw keeps_alloc keeps_load keeps_store
  keeps_mapM : keeps.

Ltac keeps_tac :=
  repeat first
    [ apply keeps_ret | apply keeps_throw | apply keeps_alloc | apply keeps_load
    | apply keeps_observe
    | apply keeps_bind; [|intros ?]
    | match goal with
      | |- keeps _ (if ?b then _ else _) => destruct b
      | |- keeps _ (match ?x with _ => _ end) => destruct x
      end ].

Lemma keeps_isArray (n : nat) (v : rvalue) : keeps n (isArray v).
Proof. unfold isArray. keeps_tac. Qed.

Lemma keeps_get (n : nat) (o : rvalue) (key : string) : keeps n (get o key).
Proof. unfold get. keeps_tac. Qed.

Lemma keeps_flat (n : nat) (xs : list rvalue) : keeps n (flat xs).
Proof. intros h Hn. unfold flat. now apply keeps_alloc. Qed.

Lemma keeps_traverse (n fuel : nat) :
  forall current keyLeft, keeps n (traverse fuel current keyLeft).
Proof.
  induction fuel as [|fuel IH]; intros current keyLeft; simpl.
  - apply keeps_throw.
  - destruct (is_null current || is_undefined current)%bool; [apply keeps_ret|].
    apply keeps_bind; [apply keeps_isArray|]. intros [|].
    + apply keeps_bind; [keeps_tac|]. intros items.
      apply keeps_bind; [apply keeps_mapM; intros; apply IH|]. intros mapped.
      apply keeps_bind; [apply keeps_alloc|]. intros _.
      apply keeps_bind; [apply keeps_alloc|]. intros _.
      destruct (Nat.eqb _ 0); [apply keeps_ret|apply keeps_flat].
    + destruct keyLeft as [|firstKey restKeys].
      * apply keeps_bind; [apply keeps_get|]. intros next. keeps_tac.
      * apply keeps_bind; [apply keeps_get|]. intros next.
        destruct (is_undefined next); [apply keeps_ret|].
        destruct (Nat.eqb _ 0); [apply keeps_ret|apply IH].
Qed.

Lemma keeps_resolveObjectPath (n fuel : nat) (data : rvalue) (path : string) :
  keeps n (resolveObjectPath fuel data path).
Proof.
  unfold resolveObjectPath.
  destruct (negb (truthy data)); [apply keeps_ret|].
  destruct (negb (truthy (RStr path))); [apply keeps_ret|].
  destruct (existsb _ _); [apply keeps_ret|apply keeps_traverse].
Qed.

Lemma keeps_isEmpty (n : nat) (options : ConversionOptions) (v : rvalue) :
  keeps n (isEmpty options v).
Proof. unfold isEmpty. keeps_tac. Qed.

Lemma keeps_set_prop (n l : nat) (key : string) (v : rvalue) :
  n <= l -> keeps n (set_prop l key v).
Proof.
  intros Hl. unfold set_prop. apply keeps_bind; [apply keeps_load|].
  intros [items|props]; [apply keeps_observe|now apply keeps_store].
Qed.

Lemma keeps_assign_entries (n : nat) (f : rvalue -> M rvalue)
      (entries : list (string * rvalue)) (res : nat) :
  (forall v, keeps n (f v)) -> n <= res -> keeps n (assign_entries f entries res).
Proof.
  intros Hf Hres. induction entries as [|[key val] entries IH]; simpl.
  - apply keeps_ret.
  - apply keeps_bind; auto. intros v.
    apply keeps_bind; [now apply keeps_set_prop|]. intros _. exact IH.
Qed.

Lemma keeps_transform_item (n : nat) (self : rvalue -> M rvalue)
      (options : ConversionOptions) (v : rvalue) :
  (forall x, keeps n (self x)) -> keeps n (transform_item self options v).
Proof.
  intros Hs. unfold transform_item. destruct (is_object v); auto.
  apply keeps_bind; [apply keeps_isEmpty|]. intros [|]; apply keeps_ret.
Qed.

Lemma keeps_transformEmptyValues (n fuel : nat) (options : ConversionOptions) :
  forall input, keeps n (transformEmptyValues fuel input options).
Proof.
  induction fuel as [|fuel IH]; intros input; simpl.
  - apply keeps_throw.
  - destruct input; try apply keeps_throw.
    apply keeps_bind; [apply keeps_isEmpty|]. intros [|]; [apply keeps_ret|].
    apply keeps_bind; [apply keeps_load|]. intros [items|props].
    + apply keeps_bind; [|intros; apply keeps_alloc].
      apply keeps_mapM. intros v. now apply keeps_transform_item.
    + apply keeps_alloc_bind. intros r Hr.
      apply keeps_assign_entries; auto.
      intros v. now apply keeps_transform_item.
Qed.

Lemma keeps_entries (n : nat) (o : rvalue) : keeps n (entries o).
Proof. unfold entries. keeps_tac. Qed.

Lemma keeps_toString (n : nat) (v : rvalue) : keeps n (toString v).
Proof. unfold toString. keeps_tac. Qed.

Lemma keeps_stringReplacements (n : nat) (es : list (string * rvalue)) :
  forall acc, keeps n (stringReplacements es acc).
Proof.
  induction es as [|[key v] es IH]; intros acc; simpl.
  - apply keeps_ret.
  - apply keeps_bind; [apply keeps_toString|]. intros s.
    apply keeps_bind; [apply keeps_alloc|]. intros _. apply IH.
Qed.

Lemma keeps_replaceString (n : nat) (text replacements : rvalue) (options : ReplaceOptions) :
  keeps n (replaceString text replacements options).
Proof.
  unfold replaceString. destruct text; try apply keeps_throw.
  destruct (_ || _)%bool; [apply keeps_throw|].
  apply keeps_bind; [apply keeps_entries|]. intros keys.
  destruct (_ || _)%bool; [apply keeps_ret|].
  apply keeps_bind; [apply keeps_alloc|]. intros _.
  apply keeps_bind; [apply keeps_stringReplacements|]. intros acc.
  destruct (Pattern.RegExp_new _ _); keeps_tac.
Qed.

(** A computation that keeps the whole store only adds to it. *)
Lemma keeps_extends {A : Type} (c : M A) (h : heap) :
  keeps (List.length h) c -> extends h (snd (c h)).
Proof.
  intros Hk. destruct (Hk h (le_n _)) as [_ H2].
  exists (skipn (List.length h) (snd (c h))).
  rewrite firstn_all in H2. rewrite <- H2 at 2.
  symmetry. apply firstn_skipn.
Qed.

End StoreFacts.

(* ================================================================== *)
(** * The store: the trees it holds *)
(* ================================================================== *)

Module ReprFacts.

Lemma Forall2_by_right {A B : Type} (R R' : A -> B -> Prop) (xs : list A) (ys : list B) :
  Forall (fun y => forall x, R x y -> R' x y) ys ->
  Forall2 R xs ys -> Forall2 R' xs ys.
Proof.
  intros HF H2. induction H2 as [|x y xs ys Hxy _ IH]; constructor.
  - inversion HF; subst. auto.
  - inversion HF; subst. auto.
Qed.

(** A tree is held as well by a store that has the same objects at the
    addresses followed. *)
Lemma repr_in_agree (P Q : nat -> Prop) (h h' : Store.heap) :
  (forall l, P l -> Q l) ->
  (forall l, P l -> l < List.length h -> nth_error h' l = nth_error h l) ->
  forall t v, Store.repr_in P h v t -> Store.repr_in Q h' v t.
Proof.
  intros HPQ Hag.
  induction t as [| |b|x|s|ts IH|tps IH] using value_ind;
    intros v Hr; inversion Hr; subst; try constructor.
  - eapply Store.repr_arr; eauto.
    + rewrite Hag; eauto. apply nth_error_Some. congruence.
    + eapply Forall2_by_right; [|eassumption]. exact IH.
  - eapply Store.repr_obj; eauto.
    + rewrite Hag; eauto. apply nth_error_Some. congruence.
    + eapply Forall2_by_right; [|eassumption].
      eapply Forall_impl; [|exact IH]. intros [k t] Ht p [Hk Hp]. auto.
Qed.

Lemma repr_mono (h fresh : Store.heap) (v : Store.rvalue) (t : value) :
  Store.repr h v t -> Store.repr (h ++ fresh) v t.
Proof.
  apply repr_in_agree; auto. intros l _ Hl. now apply nth_error_app1.
Qed.

Lemma repr_in_repr (P : nat -> Prop) (h : Store.heap) (v : Store.rvalue) (t : value) :
  Store.repr_in P h v t -> Store.repr h v t.
Proof. apply repr_in_agree; auto. Qed.

Lemma repr_below (h : Store.heap) (v : Store.rvalue) (t : value) :
  Store.repr h v t -> Store.repr_in (fun l => l < List.length h) h v t.
Proof.
  revert v. induction t as [| |b|x|s|ts IH|tps IH] using value_ind;
    intros v Hr; inversion Hr; subst; try constructor.
  - eapply Store.repr_arr; eauto.
    + apply nth_error_Some. congruence.
    + eapply Forall2_by_right; [|eassumption]. exact IH.
  - eapply Store.repr_obj; eauto.
    + apply nth_error_Some. congruence.
    + eapply Forall2_by_right; [|eassumption].
      eapply Forall_impl; [|exact IH]. intros [k t] Ht p [Hk Hp]. auto.
Qed.

Section Agreement.

Variables (P : nat -> Prop) (h : Store.heap) (v : Store.rvalue) (t : value).
Hypothesis Hr : Store.repr_in P h v t.

Lemma repr_truthy : Store.truthy v = Val.truthy t.
Proof. now inversion Hr. Qed.

Lemma repr_typeof : Store.typeof v = Val.typeof t.
Proof. now inversion Hr. Qed.

Lemma repr_is_null : Store.is_null v = Val.is_null t.
Proof. now inversion Hr. Qed.

Lemma repr_is_undefined : Store.is_undefined v = Val.is_undefined t.
Proof. now inversion Hr. Qed.

Lemma repr_is_object : Store.is_object v = is_object t.
Proof. now inversion Hr. Qed.

End Agreement.

Lemma Forall2_filter {A B : Type} (R : A -> B -> Prop) (p : A -> bool) (q : B -> bool)
      (xs : list A) (ys : list B) :
  (forall x y, R x y -> p x = q y) ->
  Forall2 R xs ys -> Forall2 R (List.filter p xs) (List.filter q ys).
Proof.
  intros Hpq. induction 1 as [|x y xs ys Hxy _ IH]; simpl; auto.
  rewrite (Hpq x y Hxy). destruct (q y); auto.
Qed.

Lemma Forall2_nth_error {A B : Type} (R : A -> B -> Prop) (xs : list A) (ys : list B) (i : nat) :
  Forall2 R xs ys ->
  match nth_error xs i, nth_error ys i with
  | Some x, Some y => R x y
  | None, None => True
  | _, _ => False
  end.
Proof.
  intros H. revert i. induction H as [|x y xs ys Hxy _ IH]; intros [|i]; simpl; auto.
  apply IH.
Qed.

Lemma lookup_repr (P : nat -> Prop) (h : Store.heap) (key : string)
      (props : list (string * Store.rvalue)) (tps : list (string * value)) :
  Forall2 (fun p tp => fst p = fst tp /\ Store.repr_in P h (snd p) (snd tp)) props tps ->
  match Store.lookup key props, Val.lookup key tps with
  | Some x, Some y => Store.repr_in P h x y /\ In y (List.map snd tps)
  | None, None => True
  | _, _ => False
  end.
Proof.
  induction 1 as [|[k x] [k' y] props tps [Hk Hxy] _ IH]; simpl; auto.
  simpl in Hk. subst k'. destruct (String.eqb k key); auto.
  destruct (Store.lookup key props), (Val.lookup key tps); auto.
  destruct IH. auto.
Qed.

(** ** Depth *)

Lemma depth_item (ts : list value) (t : value) :
  In t ts -> depth t < depth (VArr ts).
Proof.
  simpl. induction ts as [|x ts IH]; simpl; [tauto|].
  intros [->|Hin]; [lia|]. specialize (IH Hin). lia.
Qed.

Lemma depth_prop (tps : list (string * value)) (t : value) :
  In t (List.map snd tps) -> depth t < depth (VObj tps).
Proof.
  simpl. induction tps as [|[k x] tps IH]; simpl; [tauto|].
  intros [->|Hin]; [lia|]. specialize (IH Hin). lia.
Qed.

End ReprFacts.

(* ================================================================== *)
(** * The store: resolveObjectPath returns what it returns on the tree *)
(* ================================================================== *)

Module TraverseFacts.

Import ReprFacts.

Lemma bind_ok {A B : Type} (m : Store.M A) (k : A -> Store.M B) (h h' : Store.heap) (a : A) :
  m h = (Ok a, h') -> Store.bind m k h = k a h'.
Proof. intros H. unfold Store.bind. now rewrite H. Qed.

Lemma Forall2_repr_mono (h fresh : Store.heap) (vs : list Store.rvalue) (ts : list value) :
  Forall2 (Store.repr h) vs ts -> Forall2 (Store.repr (h ++ fresh)) vs ts.
Proof.
  intros H. eapply Forall2_impl; [|exact H]. intros v t. apply repr_mono.
Qed.

(** [o[key]] in the store is [o[key]] on the tree. *)
Lemma get_refines (h : Store.heap) (o : Store.rvalue) (t : value) (key : string) :
  Store.repr h o t ->
  Val.is_null t = false -> Val.is_undefined t = false ->
  exists r tn,
    Store.get o key h = (Ok r, h) /\ Val.get t key = Ok tn /\
    Store.repr h r tn /\ depth tn <= depth t.
Proof.
  intros Hr Hn Hu. inversion Hr; subst; try discriminate.
  - exists Store.RUndefined, VUndefined. repeat split; auto. constructor.
  - exists Store.RUndefined, VUndefined. repeat split; auto. constructor.
  - cbn [Store.get Val.get].
    destruct (String.eqb key "length").
    + eexists _, _. repeat split; auto. constructor.
    + destruct (Val.index_of_key key) as [i|].
      * destruct (String.get i s).
        -- eexists _, _. repeat split; auto. constructor.
        -- exists Store.RUndefined, VUndefined. repeat split; auto. constructor.
      * exists Store.RUndefined, VUndefined. repeat split; auto. constructor.
  - cbn [Store.get Val.get]. unfold Store.bind, Store.load. rewrite H0.
    rewrite (Forall2_length H1).
    destruct (String.eqb key "length").
    + eexists _, _. repeat split; auto; [constructor|simpl; lia].
    + destruct (Val.index_of_key key) as [i|].
      * pose proof (Forall2_nth_error _ _ _ i H1) as Hi.
        destruct (nth_error items i) as [x|] eqn:Ex;
          destruct (nth_error ts i) as [y|] eqn:Ey; try contradiction.
        -- exists x, y. repeat split; auto.
           apply Nat.lt_le_incl, depth_item. eapply nth_error_In, Ey.
        -- exists Store.RUndefined, VUndefined. repeat split; auto;
             [constructor|simpl; lia].
      * exists Store.RUndefined, VUndefined. repeat split; auto;
          [constructor|simpl; lia].
  - cbn [Store.get Val.get]. unfold Store.bind, Store.load. rewrite H0.
    pose proof (lookup_repr _ h key _ _ H2) as Hl.
    destruct (Store.lookup key props) as [x|];
      destruct (Val.lookup key tps) as [y|]; try contradiction.
    + destruct Hl as [Hxy Hin]. exists x, y. repeat split; auto.
      now apply Nat.lt_le_incl, depth_prop.
    + exists Store.RUndefined, VUndefined. repeat split; auto;
        [constructor|simpl; lia].
Qed.

(** A [map] in the store is the [map] on the trees, element by element. *)
Lemma mapM_refines (f : Store.rvalue -> Store.M Store.rvalue) (g : value -> result value)
      (items : list Store.rvalue) (ts : list value) :
  Forall (fun t => forall h v, Store.repr h v t ->
                               exists out fresh t',
                                 f v h = (Ok out, h ++ fresh) /\ g t = Ok t' /\
                                 Store.repr (h ++ fresh) out t') ts ->
  forall h, Forall2 (Store.repr h) items ts ->
    exists outs fresh ts',
      Store.mapM f items h = (Ok outs, h ++ fresh) /\ mapM g ts = Ok ts' /\
      Forall2 (Store.repr (h ++ fresh)) outs ts'.
Proof.
  intros Hf h H2. revert ts h H2 Hf.
  induction items as [|v items IH]; intros ts h H2 Hf;
    inversion H2 as [|? t ? ts0 Hvt Hrest]; subst.
  - exists [], [], []. rewrite app_nil_r. repeat split; auto.
  - inversion Hf as [|? ? Hy Hys]; subst.
    destruct (Hy h v Hvt) as [out [fresh1 [t' [E1 [E2 E3]]]]].
    destruct (IH ts0 (h ++ fresh1) (Forall2_repr_mono _ _ _ _ Hrest) Hys)
      as [outs [fresh2 [ts' [E4 [E5 E6]]]]].
    exists (out :: outs), (fresh1 ++ fresh2), (t' :: ts').
    cbn [Store.mapM mapM]. rewrite (bind_ok _ _ _ _ _ E1), (bind_ok _ _ _ _ _ E4).
    rewrite E2, E5. cbn [bind Store.ret]. rewrite app_assoc.
    repeat split; auto. constructor; auto. now apply repr_mono.
Qed.

(** [flat] in the store is [flat] on the trees. *)
Lemma flat_refines (h : Store.heap) (rs : list Store.rvalue) (ts : list value) :
  Forall2 (Store.repr h) rs ts ->
  Forall2 (Store.repr h) (List.concat (List.map (fun x => Store.spread x h) rs))
          (Val.flat ts).
Proof.
  induction 1 as [|r t rs ts Hrt _ IH]; [constructor|].
  cbn [List.map List.concat].
  inversion Hrt; subst; cbn [Store.spread Val.flat app]; try (constructor; assumption).
  - rewrite H0. now apply Forall2_app.
  - rewrite H0. constructor; assumption.
Qed.

Lemma nth_error_new {A : Type} (h : list A) (o : A) : nth_error (h ++ [o]) (List.length h) = Some o.
Proof. rewrite nth_error_app2, Nat.sub_diag; auto. Qed.

Lemma isArray_at (h : Store.heap) (l : nat) (o : Store.object) :
  nth_error h l = Some o ->
  Store.isArray (Store.RRef l) h
  = (Ok (match o with Store.OArr _ => true | Store.OObj _ => false end), h).
Proof. intros H. cbn [Store.isArray]. unfold Store.bind, Store.load. now rewrite H. Qed.

Lemma isArray_primitive (h : Store.heap) (v : Store.rvalue) :
  (forall l, v <> Store.RRef l) -> Store.isArray v h = (Ok false, h).
Proof. destruct v; try reflexivity. intros H. now contradiction (H l). Qed.

(** The array case of [traverse], given what the calls on the elements
    return. *)
Lemma traverse_array_step (fuel : nat) (keyLeft : list string) (l : nat)
      (items : list Store.rvalue) (ts : list value) (h : Store.heap) :
  nth_error h l = Some (Store.OArr items) ->
  Forall2 (Store.repr h) items ts ->
  Forall (fun t => forall h v, Store.repr h v t ->
                   exists out fresh t',
                     Store.traverse fuel v keyLeft h = (Ok out, h ++ fresh) /\
                     traverse t keyLeft = Ok t' /\
                     Store.repr (h ++ fresh) out t') ts ->
  exists out fresh t',
    Store.traverse (S fuel) (Store.RRef l) keyLeft h = (Ok out, h ++ fresh) /\
    traverse (VArr ts) keyLeft = Ok t' /\
    Store.repr (h ++ fresh) out t'.
Proof.
  intros Hl Hitems IH.
  destruct (mapM_refines (fun item => Store.traverse fuel item keyLeft)
                         (fun item => traverse item keyLeft) items ts IH h Hitems)
    as [outs [fresh1 [ts' [E1 [E2 E3]]]]].
  rewrite traverse_eq, E2. cbn [bind].
  cbn [Store.traverse Store.is_null Store.is_undefined orb].
  rewrite (bind_ok _ _ _ _ _ (isArray_at h l _ Hl)).
  assert (Eitems : Store.bind (Store.load l)
                     (fun o => Store.ret (match o with
                                          | Store.OArr items => items
                                          | Store.OObj _ => []
                                          end)) h = (Ok items, h)).
  { unfold Store.bind, Store.load. now rewrite Hl. }
  rewrite (bind_ok _ _ _ _ _ Eitems), (bind_ok _ _ _ _ _ E1).
  set (results := List.filter Store.truthy outs).
  set (tresults := List.filter Val.truthy ts').
  assert (Hres : Forall2 (Store.repr (h ++ fresh1)) results tresults).
  { apply Forall2_filter; auto. intros x y Hxy. eapply repr_truthy, Hxy. }
  unfold Store.bind at 1. cbn [Store.alloc]. unfold Store.bind at 1. cbn [Store.alloc].
  rewrite <- (Forall2_length Hres).
  set (h3 := ((h ++ fresh1) ++ [Store.OArr outs]) ++ [Store.OArr results]).
  assert (Hh3 : h3 = h ++ (fresh1 ++ [Store.OArr outs; Store.OArr results])).
  { unfold h3. now rewrite <- !app_assoc. }
  destruct (Nat.eqb (List.length results) 0) eqn:Elen.
  - exists Store.RUndefined, (fresh1 ++ [Store.OArr outs; Store.OArr results]), VUndefined.
    cbn [Store.ret]. rewrite <- Hh3. repeat split. constructor.
  - assert (Hres3 : Forall2 (Store.repr h3) results tresults).
    { unfold h3. now do 2 apply Forall2_repr_mono. }
    pose proof (flat_refines h3 _ _ Hres3) as Hflat.
    set (flattened := List.concat (List.map (fun x => Store.spread x h3) results)) in *.
    exists (Store.RRef (List.length h3)),
           (fresh1 ++ [Store.OArr outs; Store.OArr results; Store.OArr flattened]),
           (VArr (Val.flat tresults)).
    assert (Hh4 : h ++ fresh1 ++ [Store.OArr outs; Store.OArr results; Store.OArr flattened]
                  = h3 ++ [Store.OArr flattened]).
    { rewrite Hh3, <- !app_assoc. reflexivity. }
    rewrite Hh4. repeat split.
    eapply Store.repr_arr; [exact I|apply nth_error_new|].
    now apply Forall2_repr_mono.
Qed.

Lemma nil_length_eqb {A : Type} (xs : list A) :
  Nat.eqb (List.length xs) 0 = match xs with [] => true | _ => false end.
Proof. now destruct xs. Qed.

(** The property case of [traverse], given what the call on the value of
    the property returns. *)
Lemma traverse_prop_step (fuel : nat) (keyLeft : list string)
      (h : Store.heap) (current : Store.rvalue) (t : value) :
  Store.repr h current t ->
  Val.is_null t = false -> Val.is_undefined t = false -> Val.isArray t = false ->
  (forall firstKey restKeys tn h v,
      keyLeft = firstKey :: restKeys -> depth tn <= depth t ->
      Store.repr h v tn ->
      exists out fresh t',
        Store.traverse fuel v restKeys h = (Ok out, h ++ fresh) /\
        traverse tn restKeys = Ok t' /\
        Store.repr (h ++ fresh) out t') ->
  exists out fresh t',
    Store.traverse (S fuel) current keyLeft h = (Ok out, h ++ fresh) /\
    traverse t keyLeft = Ok t' /\
    Store.repr (h ++ fresh) out t'.
Proof.
  intros Hr Hn Hu Ha IH.
  assert (Hcur : (Store.is_null current || Store.is_undefined current)%bool = false).
  { now rewrite (repr_is_null _ _ _ _ Hr), (repr_is_undefined _ _ _ _ Hr), Hn, Hu. }
  assert (Harr : Store.isArray current h = (Ok false, h)).
  { inversion Hr; subst; try reflexivity; try discriminate.
    now rewrite (isArray_at h l _ H0). }
  assert (Hbody : traverse t keyLeft =
                  match keyLeft with
                  | firstKey :: restKeys =>
                      next <- Val.get t firstKey ;;
                      if Val.is_undefined next then Ok VUndefined
                      else if Nat.eqb (List.length restKeys) 0 then Ok next
                      else traverse next restKeys
                  | [] =>
                      next <- Val.get t "undefined" ;;
                      if Val.is_undefined next then Ok VUndefined else Ok next
                  end).
  { rewrite traverse_eq. destruct t; try discriminate; reflexivity. }
  rewrite Hbody. cbn [Store.traverse]. rewrite Hcur, (bind_ok _ _ _ _ _ Harr).
  destruct keyLeft as [|firstKey restKeys].
  - destruct (get_refines h current t "undefined" Hr Hn Hu) as [r [tn [G1 [G2 [G3 _]]]]].
    rewrite (bind_ok _ _ _ _ _ G1), G2. cbn [bind].
    rewrite (repr_is_undefined _ _ _ _ G3).
    destruct (Val.is_undefined tn).
    + exists Store.RUndefined, [], VUndefined. rewrite app_nil_r.
      repeat split. constructor.
    + exists r, [], tn. rewrite app_nil_r. repeat split. exact G3.
  - destruct (get_refines h current t firstKey Hr Hn Hu) as [r [tn [G1 [G2 [G3 G4]]]]].
    rewrite (bind_ok _ _ _ _ _ G1), G2. cbn [bind].
    rewrite (repr_is_undefined _ _ _ _ G3).
    destruct (Val.is_undefined tn).
    + exists Store.RUndefined, [], VUndefined. rewrite app_nil_r.
      repeat split. constructor.
    + destruct (Nat.eqb (List.length restKeys) 0).
      * exists r, [], tn. rewrite app_nil_r. repeat split. exact G3.
      * exact (IH firstKey restKeys tn h r eq_refl G4 G3).
Qed.

(** [traverse] in the store returns, in a store that only grew, the value
    that holds the tree [traverse] returns on the tree of its argument. *)
Lemma traverse_refines (keyLeft : list string) :
  forall t fuel h current,
    Store.repr h current t ->
    depth t + List.length keyLeft < fuel ->
    exists out fresh t',
      Store.traverse fuel current keyLeft h = (Ok out, h ++ fresh) /\
      traverse t keyLeft = Ok t' /\
      Store.repr (h ++ fresh) out t'.
Proof.
  induction keyLeft as [|firstKey restKeys IHk].
  - induction t as [| |b|x|s|ts IHt|tps _] using value_ind;
      intros fuel h current Hr Hfuel;
      (destruct fuel as [|fuel]; [lia|]).
    1,2: inversion Hr; subst; exists Store.RUndefined, [], VUndefined;
         rewrite app_nil_r; repeat split; constructor.
    1,2,3,5: apply (traverse_prop_step fuel [] h current _ Hr); auto; discriminate.
    inversion Hr as [| | | | |l items ts0 _ Hl Hitems|]; subst.
    apply (traverse_array_step fuel [] l items ts h Hl Hitems).
    rewrite Forall_forall in IHt |- *. intros t Hin h' v Hv.
    apply (IHt t Hin fuel h' v Hv).
    pose proof (depth_item ts t Hin). simpl in *. lia.
  - induction t as [| |b|x|s|ts IHt|tps _] using value_ind;
      intros fuel h current Hr Hfuel;
      (destruct fuel as [|fuel]; [lia|]).
    1,2: inversion Hr; subst; exists Store.RUndefined, [], VUndefined;
         rewrite app_nil_r; repeat split; constructor.
    1,2,3,5: apply (traverse_prop_step fuel (firstKey :: restKeys) h current _ Hr); auto;
             intros fk rk tn h' v [= _ <-] Hd Hv;
             apply (IHk tn fuel h' v Hv); simpl in *; lia.
    inversion Hr as [| | | | |l items ts0 _ Hl Hitems|]; subst.
    apply (traverse_array_step fuel (firstKey :: restKeys) l items ts h Hl Hitems).
    rewrite Forall_forall in IHt |- *. intros t Hin h' v Hv.
    apply (IHt t Hin fuel h' v Hv).
    pose proof (depth_item ts t Hin). simpl in *. lia.
Qed.

End TraverseFacts.

(* ================================================================== *)
(** * The store: transformEmptyValues returns what it returns on the tree *)
(* ================================================================== *)

Module TransformFacts.

Import ReprFacts.
Import TraverseFacts.

Lemma over_length (h0 h : Store.heap) : over h0 h -> List.length h0 <= List.length h.
Proof.
  intros H. unfold over in H. apply (f_equal (@List.length _)) in H.
  rewrite length_firstn in H. lia.
Qed.

Lemma over_nth (h0 h : Store.heap) (l : nat) :
  over h0 h -> l < List.length h0 -> nth_error h l = nth_error h0 l.
Proof.
  intros H Hl. unfold over in H.
  transitivity (nth_error (firstn (List.length h0) h) l); [|now rewrite H].
  now rewrite nth_error_firstn, (proj2 (Nat.ltb_lt _ _) Hl).
Qed.

Lemma over_app (h0 h fresh : Store.heap) : over h0 h -> over h0 (h ++ fresh).
Proof.
  intros H. pose proof (over_length _ _ H) as Hlen. unfold over in *.
  rewrite firstn_app, (proj2 (Nat.sub_0_le _ _) Hlen). cbn [firstn].
  now rewrite app_nil_r.
Qed.

Lemma over_set_nth (h0 h : Store.heap) (r : nat) (o : Store.object) :
  over h0 h -> List.length h0 <= r -> over h0 (Store.set_nth r o h).
Proof.
  intros H Hr. unfold over in *. now rewrite StoreFacts.firstn_set_nth.
Qed.

Lemma over_refl (h0 : Store.heap) : over h0 h0.
Proof. apply firstn_all. Qed.

Lemma nth_error_set_nth_eq (r : nat) (o : Store.object) (h : Store.heap) :
  r < List.length h -> nth_error (Store.set_nth r o h) r = Some o.
Proof.
  revert h; induction r as [|r IH]; intros [|x h] Hr; simpl in *; try lia; auto.
  apply IH. lia.
Qed.

Lemma nth_error_set_nth_neq (r l : nat) (o : Store.object) (h : Store.heap) :
  l <> r -> nth_error (Store.set_nth r o h) l = nth_error h l.
Proof.
  revert l h; induction r as [|r IH]; intros [|l] [|x h] Hl; simpl; auto; try lia.
Qed.

(** What is held in [h0] is held in every store over [h0]. *)
Lemma repr_over (h0 h : Store.heap) (v : Store.rvalue) (t : value) :
  Store.repr h0 v t -> over h0 h ->
  Store.repr_in (fun l => l < List.length h0) h v t.
Proof.
  intros Hr Ho. apply repr_below in Hr.
  eapply repr_in_agree; [| |exact Hr]; auto.
  intros l Hl _. now apply over_nth.
Qed.

Section Transform.

Variable h0 : Store.heap.
Variable oH : Store.ConversionOptions.
Variable o : ConversionOptions.

(** The options of the two calls say the same. *)
Hypothesis replacement_agrees :
  Store.repr h0 (Store.replaceWith_of oH) (replaceWith_of o).
Hypothesis trimStrings_agrees : Store.trimStrings oH = trimStrings o.
Hypothesis processEmptyArrays_agrees : Store.processEmptyArrays oH = processEmptyArrays o.
Hypothesis isEmptyFn_agrees :
  match Store.isEmptyFn oH, isEmptyFn o with
  | None, None => True
  | Some fH, Some f => forall h v t, Store.repr h v t -> fH h v = f t
  | _, _ => False
  end.

Let base : nat -> Prop := fun l => l < List.length h0.

Lemma isEmpty_refines (P : nat -> Prop) (h : Store.heap) (v : Store.rvalue) (t : value) :
  Store.repr_in P h v t -> Store.isEmpty oH v h = (Ok (isEmpty o t), h).
Proof.
  intros Hr. unfold Store.isEmpty, isEmpty.
  rewrite trimStrings_agrees, processEmptyArrays_agrees.
  destruct (Store.isEmptyFn oH) as [fH|], (isEmptyFn o) as [f|]; try contradiction.
  - f_equal. f_equal. eapply isEmptyFn_agrees, repr_in_repr, Hr.
  - inversion Hr; subst; try reflexivity.
    + destruct (default false (processEmptyArrays o)); [|reflexivity].
      unfold Store.bind, Store.load. rewrite H0. cbn [Store.ret].
      now rewrite (Forall2_length H1).
    + destruct (default false (processEmptyArrays o)); [|reflexivity].
      unfold Store.bind, Store.load. now rewrite H0.
Qed.

Lemma transform_item_refines (self : Store.rvalue -> Store.M Store.rvalue)
      (pure : value -> result value) (v : Store.rvalue) (t : value) :
  Store.repr h0 v t ->
  (is_object t = true -> returns_tree h0 (self v) (pure t)) ->
  returns_tree h0 (Store.transform_item self oH v) (transform_item pure o t).
Proof.
  intros Hr Hself h Ho. unfold Store.transform_item, transform_item.
  pose proof (repr_over _ _ _ _ Hr Ho) as Hv.
  rewrite (repr_is_object _ _ _ _ Hv).
  destruct (is_object t); [now apply Hself|].
  rewrite (bind_ok _ _ _ _ _ (isEmpty_refines _ _ _ _ Hv)).
  destruct (isEmpty o t).
  - exists (Store.replaceWith_of oH), [], (replaceWith_of o).
    rewrite app_nil_r. repeat split.
    eapply repr_in_agree; [| |exact (repr_over _ _ _ _ replacement_agrees Ho)];
      unfold base; auto.
  - exists v, [], t. rewrite app_nil_r. repeat split.
    eapply repr_in_agree; [| |exact Hv]; unfold base; auto.
Qed.

(** The array loop. *)
Lemma mapM_returns (f : Store.rvalue -> Store.M Store.rvalue) (g : value -> result value) :
  forall (items : list Store.rvalue) (ts : list value),
    Forall2 (fun v t => returns_tree h0 (f v) (g t)) items ts ->
    forall h, over h0 h ->
      exists outs fresh ts',
        Store.mapM f items h = (Ok outs, h ++ fresh) /\ mapM g ts = Ok ts' /\
        Forall2 (Store.repr_in (fun l => base l \/ List.length h <= l) (h ++ fresh))
                outs ts'.
Proof.
  induction 1 as [|v t items ts Hvt _ IH]; intros h Ho.
  - exists [], [], []. rewrite app_nil_r. repeat split; auto.
  - destruct (Hvt h Ho) as [out [fresh1 [t' [E1 [E2 E3]]]]].
    destruct (IH (h ++ fresh1) (over_app _ _ _ Ho)) as [outs [fresh2 [ts' [E4 [E5 E6]]]]].
    exists (out :: outs), (fresh1 ++ fresh2), (t' :: ts').
    cbn [Store.mapM mapM]. rewrite (bind_ok _ _ _ _ _ E1), (bind_ok _ _ _ _ _ E4).
    rewrite E2, E5. cbn [bind Store.ret]. rewrite app_assoc.
    repeat split; auto. constructor.
    + eapply repr_in_agree; [| |exact E3]; auto.
      intros l _ Hl. now apply nth_error_app1.
    + eapply Forall2_impl; [|exact E6]. intros x y.
      apply repr_in_agree; auto.
      intros l [Hl|Hl]; [now left|right]. rewrite length_app in Hl. lia.
Qed.

(** The loop over the properties, writing into the object at [r]. *)
Lemma assign_entries_returns (f : Store.rvalue -> Store.M Store.rvalue)
      (g : value -> result value) (r : nat) :
  List.length h0 <= r ->
  forall (props : list (string * Store.rvalue)) (tps : list (string * value)),
    Forall2 (fun p tp => fst p = fst tp /\ returns_tree h0 (f (snd p)) (g (snd tp)))
            props tps ->
    forall acc tacc h,
      over h0 h ->
      nth_error h r = Some (Store.OObj acc) ->
      Forall2 (fun p tp => fst p = fst tp /\
                           Store.repr_in (fun l => base l \/ r < l) h (snd p) (snd tp))
              acc tacc ->
      NoDup (List.map fst acc ++ List.map fst props) ->
      exists hf acc' tacc',
        Store.assign_entries f props r h = (Ok (Store.RRef r), hf) /\
        assign_entries g tps tacc = Ok (VObj tacc') /\
        List.length h <= List.length hf /\
        (forall l, l <> r -> l < List.length h -> nth_error hf l = nth_error h l) /\
        nth_error hf r = Some (Store.OObj acc') /\
        NoDup (List.map fst acc') /\
        Forall2 (fun p tp => fst p = fst tp /\
                             Store.repr_in (fun l => base l \/ r < l) hf (snd p) (snd tp))
                acc' tacc'.
Proof.
  intros Hr0.
  induction 1 as [|[key val] [key' t] props tps [Hkey Hvt] _ IH];
    intros acc tacc h Ho Hacc Hreprs Hnd.
  - exists h, acc, tacc. cbn [List.map] in Hnd. rewrite app_nil_r in Hnd.
    repeat split; auto.
  - cbn [fst snd] in Hkey, Hvt. subst key'.
    assert (Hr : r < List.length h) by (apply nth_error_Some; congruence).
    destruct (Hvt h Ho) as [v [fresh [t' [E1 [E2 E3]]]]].
    set (h2 := Store.set_nth r (Store.OObj (assign key v acc)) (h ++ fresh)).
    assert (Hfresh : ~ In key (List.map fst acc)).
    { intros Hin. cbn [List.map fst] in Hnd.
      apply NoDup_remove_2 in Hnd. apply Hnd, in_or_app. now left. }
    assert (Hlen2 : List.length h2 = List.length (h ++ fresh))
      by apply StoreFacts.length_set_nth.
    assert (Hlen : List.length h <= List.length h2)
      by (rewrite Hlen2, length_app; lia).
    assert (Hframe : forall l, l <> r -> nth_error h2 l = nth_error (h ++ fresh) l)
      by (intros l Hl; now apply nth_error_set_nth_neq).
    destruct (IH (acc ++ [(key, v)]) (tacc ++ [(key, t')]) h2)
      as [hf [acc' [tacc' [F1 [F2 [F3 [F4 [F5 [F6 F7]]]]]]]]].
    + apply over_set_nth; auto. now apply over_app.
    + unfold h2. rewrite nth_error_set_nth_eq by (rewrite length_app; lia).
      now rewrite assign_fresh.
    + apply Forall2_app.
      * eapply Forall2_impl; [|exact Hreprs]. intros p tp [Hk Hp]. split; auto.
        eapply repr_in_agree; [| |exact Hp]; auto.
        intros l [Hl|Hl] Hl'; (rewrite Hframe; [now apply nth_error_app1|]).
        -- unfold base in Hl. lia.
        -- lia.
      * constructor; [|constructor]. split; auto. cbn [snd].
        eapply repr_in_agree; [| |exact E3].
        -- intros l [Hl|Hl]; [now left|right; lia].
        -- intros l [Hl|Hl] _; apply Hframe.
           ++ unfold base in Hl. lia.
           ++ lia.
    + rewrite map_app, <- app_assoc. exact Hnd.
    + exists hf, acc', tacc'. cbn [Store.assign_entries assign_entries].
      rewrite (bind_ok _ _ _ _ _ E1), E2. cbn [bind].
      assert (Eset : Store.set_prop r key v (h ++ fresh) = (Ok tt, h2)).
      { unfold Store.set_prop, Store.bind, Store.load.
        rewrite nth_error_app1, Hacc by exact Hr. reflexivity. }
      rewrite (bind_ok _ _ _ _ _ Eset).
      repeat split; auto; try lia.
      intros l Hl Hl'. rewrite F4 by (auto; lia).
      rewrite Hframe by exact Hl. now apply nth_error_app1.
Qed.

Lemma Forall2_In_right {A B : Type} (R R' : A -> B -> Prop) (P : B -> Prop)
      (xs : list A) (ys : list B) :
  Forall2 R xs ys -> Forall P ys ->
  (forall x y, R x y -> P y -> In y ys -> R' x y) ->
  Forall2 R' xs ys.
Proof.
  induction 1 as [|x y xs ys Hxy _ IH]; intros HP Himp; constructor.
  - inversion HP; subst. apply Himp; auto. now left.
  - inversion HP; subst. apply IH; auto.
    intros x' y' HR HPy Hin. apply Himp; auto. now right.
Qed.

(** The call on a structure held in [h0] returns, from any store over [h0],
    the structure that the function on trees returns, newly built. *)
Lemma transformEmptyValues_returns :
  forall (t : value) (fuel : nat) (input : Store.rvalue),
    Store.repr h0 input t -> depth t < fuel -> is_object t = true ->
    returns_tree h0 (Store.transformEmptyValues fuel input oH) (transformEmptyValues t o).
Proof.
  induction t as [| |b|x|s|ts IH|tps IH] using value_ind;
    intros fuel input Hr Hfuel Hobj; try discriminate Hobj.
  - (* arrays *)
    destruct fuel as [|fuel]; [lia|].
    intros h Ho. pose proof (repr_over _ _ _ _ Hr Ho) as Hv.
    inversion Hr as [| | | | |l items ts' _ Hl Hitems|]; subst.
    rewrite transformEmptyValues_eq. cbn [is_object Val.typeof Val.type_eqb Val.is_null
      andb negb]. cbn [Store.transformEmptyValues].
    rewrite (bind_ok _ _ _ _ _ (isEmpty_refines _ _ _ _ Hv)).
    destruct (isEmpty o (VArr ts)).
    { exists (Store.replaceWith_of oH), [], (replaceWith_of o).
      rewrite app_nil_r. repeat split.
      eapply repr_in_agree; [| |exact (repr_over _ _ _ _ replacement_agrees Ho)];
        unfold base; auto. }
    assert (Hload : Store.load l h = (Ok (Store.OArr items), h)).
    { unfold Store.load. rewrite (over_nth h0 h l Ho), Hl; auto.
      apply nth_error_Some. congruence. }
    rewrite (bind_ok _ _ _ _ _ Hload).
    destruct (mapM_returns
                (Store.transform_item
                   (fun v => Store.transformEmptyValues fuel v oH) oH)
                (transform_item (fun v => transformEmptyValues v o) o)
                items ts) with (h := h)
      as [outs [fresh [ts' [E1 [E2 E3]]]]]; auto.
    { eapply Forall2_In_right; [exact Hitems|exact IH|].
      intros v t Hvt IHt Hin. apply transform_item_refines; auto.
      intros Hobj'. apply IHt; auto.
      pose proof (depth_item _ _ Hin). lia. }
    rewrite (bind_ok _ _ _ _ _ E1), E2. cbn [bind].
    exists (Store.RRef (List.length (h ++ fresh))), (fresh ++ [Store.OArr outs]), (VArr ts').
    unfold Store.alloc. rewrite app_assoc. repeat split.
    eapply Store.repr_arr.
    + right. rewrite length_app. lia.
    + rewrite nth_error_app2, Nat.sub_diag by lia. reflexivity.
    + eapply Forall2_impl; [|exact E3]. intros v t.
      apply repr_in_agree; auto. intros l' _ Hl'. now apply nth_error_app1.
  - (* objects *)
    destruct fuel as [|fuel]; [lia|].
    intros h Ho. pose proof (repr_over _ _ _ _ Hr Ho) as Hv.
    inversion Hr as [| | | | | |l props tps' _ Hl Hnd Hprops]; subst.
    rewrite transformEmptyValues_eq. cbn [is_object Val.typeof Val.type_eqb Val.is_null
      andb negb]. cbn [Store.transformEmptyValues].
    rewrite (bind_ok _ _ _ _ _ (isEmpty_refines _ _ _ _ Hv)).
    destruct (isEmpty o (VObj tps)).
    { exists (Store.replaceWith_of oH), [], (replaceWith_of o).
      rewrite app_nil_r. repeat split.
      eapply repr_in_agree; [| |exact (repr_over _ _ _ _ replacement_agrees Ho)];
        unfold base; auto. }
    assert (Hload : Store.load l h = (Ok (Store.OObj props), h)).
    { unfold Store.load. rewrite (over_nth h0 h l Ho), Hl; auto.
      apply nth_error_Some. congruence. }
    rewrite (bind_ok _ _ _ _ _ Hload).
    unfold Store.bind at 1. unfold Store.alloc at 1.
    pose proof (over_length _ _ Ho) as Hlen.
    destruct (assign_entries_returns
                (Store.transform_item
                   (fun v => Store.transformEmptyValues fuel v oH) oH)
                (transform_item (fun v => transformEmptyValues v o) o)
                (List.length h) Hlen props tps) with (acc := @nil (string * Store.rvalue))
                (tacc := @nil (string * value)) (h := h ++ [Store.OObj []])
      as [hf [acc' [tacc' [F1 [F2 [F3 [F4 [F5 [F6 F7]]]]]]]]]; auto.
    { assert (Hdepth : forall t, In t (List.map snd tps) -> depth t < fuel)
        by (intros t Hin; pose proof (depth_prop _ _ Hin); lia).
      clear Hnd Hl Hv Hr Hfuel Hobj Hload.
      induction Hprops as [|p tp props tps [Hk Hp] _ IHp];
        constructor; inversion IH as [|? ? IH1 IH2]; subst.
      - split; auto. apply transform_item_refines; auto.
        intros Hobj'. apply IH1; auto.
        apply Hdepth. now left.
      - apply IHp; auto.
        intros t Hin. apply Hdepth. now right. }
    { now apply over_app. }
    { rewrite nth_error_app2, Nat.sub_diag by lia. reflexivity. }
    rewrite F1, F2.
    exists (Store.RRef (List.length h)), (skipn (List.length h) hf), (VObj tacc').
    assert (Hhf : hf = h ++ skipn (List.length h) hf).
    { rewrite <- (firstn_skipn (List.length h) hf) at 1. f_equal.
      apply nth_error_ext. intros i.
      rewrite nth_error_firstn.
      destruct (Nat.ltb_spec i (List.length h)) as [Hi|Hi].
      - rewrite F4; [now apply nth_error_app1|lia|rewrite length_app; lia].
      - symmetry. now apply nth_error_None. }
    rewrite <- Hhf. repeat split.
    eapply Store.repr_obj; [right; apply Nat.le_refl|exact F5|exact F6|].
    eapply Forall2_impl; [|exact F7]. intros p tp [Hk Hp]. split; auto.
    eapply repr_in_agree; [| |exact Hp]; auto.
    intros l' [Hl'|Hl']; [now left|right; lia].
Qed.

End Transform.

End TransformFacts.

(* ================================================================== *)
(** * The store: replaceString returns what it returns on the tree *)
(* ================================================================== *)

Module ReplaceFacts.

Import ReprFacts.
Import TraverseFacts.

Lemma indexed_Forall2 {A B : Type} (R : A -> B -> Prop) (xs : list A) (ys : list B) :
  Forall2 R xs ys ->
  forall i, Forall2 (fun p tp => fst p = fst tp /\ R (snd p) (snd tp))
                    (Val.indexed i xs) (Val.indexed i ys).
Proof.
  induction 1 as [|x y xs ys Hxy _ IH]; intros i; simpl; constructor; auto.
Qed.

(** [Object.entries] reads the entries of the tree. *)
Lemma entries_refines (h : Store.heap) (o : Store.rvalue) (t : value) :
  Store.repr h o t ->
  exists es,
    Store.entries o h = (Ok es, h) /\
    Forall2 (fun p tp => fst p = fst tp /\ Store.repr h (snd p) (snd tp))
            es (Val.entries t).
Proof.
  intros Hr. inversion Hr; subst; cbn [Store.entries Val.entries].
  - exists []. split; [reflexivity|constructor].
  - exists []. split; [reflexivity|constructor].
  - exists []. split; [reflexivity|constructor].
  - exists []. split; [reflexivity|constructor].
  - eexists. split; [reflexivity|]. apply indexed_Forall2.
    induction (list_ascii_of_string s) as [|c cs IH]; simpl; constructor; auto.
    constructor.
  - exists (Val.indexed 0 items). unfold Store.bind, Store.load. rewrite H0.
    split; [reflexivity|]. now apply indexed_Forall2.
  - exists props. unfold Store.bind, Store.load. rewrite H0.
    split; [reflexivity|]. exact H2.
Qed.

(** [String(v)] of a primitive value, in any store. *)
Lemma toString_refines (h h' : Store.heap) (v : Store.rvalue) (t : value) :
  Store.repr h v t -> primitive t = true ->
  Store.toString v h' = (Ok (Val.toString t), h').
Proof.
  intros Hr Hp. inversion Hr; subst; try reflexivity; discriminate Hp.
Qed.

Lemma strings_of_assign (key s : string) (acc : list (string * Store.rvalue)) :
  Store.strings_of (assign key (Store.RStr s) acc) = assign key s (Store.strings_of acc).
Proof.
  induction acc as [|[k x] acc IH]; simpl; auto.
  destruct (String.eqb k key); simpl; [reflexivity|now rewrite IH].
Qed.

(** The [reduce]: the object of every step is new, and the last one has the
    strings of the tree. *)
Lemma stringReplacements_refines (h : Store.heap) :
  forall (es : list (string * Store.rvalue)) (tes : list (string * value)),
    Forall2 (fun p tp => fst p = fst tp /\ Store.repr h (snd p) (snd tp)) es tes ->
    forallb primitive (List.map snd tes) = true ->
    forall acc h',
      exists acc' fresh,
        Store.stringReplacements es acc h' = (Ok acc', h' ++ fresh) /\
        Store.strings_of acc' =
        fold_left (fun acc '(key, v) => assign key (Val.toString v) acc) tes
                  (Store.strings_of acc).
Proof.
  induction 1 as [|[key v] [key' t] es tes [Hk Hv] _ IH]; intros Hp acc h'.
  - exists acc, []. rewrite app_nil_r. split; reflexivity.
  - cbn [fst snd] in Hk, Hv. subst key'.
    cbn [List.map snd forallb] in Hp. apply andb_prop in Hp as [Hp1 Hp2].
    destruct (IH Hp2 (assign key (Store.RStr (Val.toString t)) acc)
                 (h' ++ [Store.OObj (assign key (Store.RStr (Val.toString t)) acc)]))
      as [acc' [fresh [E1 E2]]].
    exists acc', (Store.OObj (assign key (Store.RStr (Val.toString t)) acc) :: fresh).
    cbn [Store.stringReplacements fold_left].
    rewrite (bind_ok _ _ _ _ _ (toString_refines h h' v t Hv Hp1)).
    unfold Store.bind at 1, Store.alloc at 1. cbn [fst snd].
    rewrite E1, E2, strings_of_assign, <- app_assoc. split; reflexivity.
Qed.

Lemma replaceString_refines (h : Store.heap) (text replacements : Store.rvalue)
      (ttext t : value) (options : ReplaceOptions) :
  Store.repr h text ttext -> Store.repr h replacements t ->
  forallb primitive (List.map snd (Val.entries t)) = true ->
  fst (Store.replaceString text replacements options h) = replaceString ttext t options.
Proof.
  intros Htext Hrep Hprim. unfold Store.replaceString, replaceString.
  inversion Htext; subst; try reflexivity.
  rewrite (repr_truthy _ _ _ _ Hrep), (repr_typeof _ _ _ _ Hrep).
  destruct (_ || _)%bool; [reflexivity|].
  destruct (entries_refines _ _ _ Hrep) as [es [E1 E2]].
  rewrite (bind_ok _ _ _ _ _ E1).
  unfold Val.keys. rewrite length_map, <- (Forall2_length E2).
  change (Store.truthy (Store.RStr s)) with (Val.truthy (VStr s)).
  destruct (_ || _)%bool; [reflexivity|].
  unfold Store.bind at 1, Store.alloc at 1.
  destruct (stringReplacements_refines h es (Val.entries t) E2 Hprim []
              (h ++ [Store.OObj []])) as [acc' [fresh [F1 F2]]].
  rewrite (bind_ok _ _ _ _ _ F1), F2.
  change (Store.strings_of []) with (@nil (string * string)).
  fold (stringReplacements t).
  destruct (Pattern.RegExp_new _ _); reflexivity.
Qed.

End ReplaceFacts.

(* ================================================================== *)
(** * Repeated calls *)
(* ================================================================== *)

Module CallFacts.

Import ReprFacts.
Import TraverseFacts.
Import TransformFacts.
Import ReplaceFacts.

Lemma resolveObjectPath_refines (h : Store.heap) (fuel : nat) (data : Store.rvalue)
      (path : string) (t : value) :
  Store.repr h data t ->
  depth t + List.length (Str.split "." path) < fuel ->
  exists out fresh t',
    Store.resolveObjectPath fuel data path h = (Ok out, h ++ fresh) /\
    resolveObjectPath t path = Ok t' /\
    Store.repr (h ++ fresh) out t'.
Proof.
  intros Hr Hfuel. unfold Store.resolveObjectPath, resolveObjectPath.
  rewrite (repr_truthy _ _ _ _ Hr).
  change (Store.truthy (Store.RStr path)) with (Val.truthy (VStr path)).
  destruct (negb (Val.truthy t)).
  { exists Store.RUndefined, [], VUndefined. rewrite app_nil_r.
    repeat split. constructor. }
  destruct (negb (Val.truthy (VStr path))).
  { exists data, [], t. rewrite app_nil_r. repeat split. exact Hr. }
  cbv zeta.
  replace (existsb (fun key => negb (Store.truthy (Store.RStr key))) (Str.split "." path))
    with (existsb (fun key => negb (Val.truthy (VStr key))) (Str.split "." path))
    by reflexivity.
  destruct (existsb _ _).
  { exists Store.RUndefined, [], VUndefined. rewrite app_nil_r.
    repeat split. constructor. }
  now apply traverse_refines.
Qed.

Lemma returned_ok (out : Store.rvalue) (h : Store.heap) (t : value) (r : result value) :
  r = Ok t -> Store.repr h out t -> returned (Ok out, h) r.
Proof. intros -> H. exact H. Qed.

Lemma same_options_replacement (h : Store.heap) (oH : Store.ConversionOptions)
      (o : ConversionOptions) :
  same_options h oH o -> Store.repr h (Store.replaceWith_of oH) (replaceWith_of o).
Proof.
  intros [H _]. unfold Store.replaceWith_of, replaceWith_of.
  destruct (Store.replaceWith oH) as [v|], (replaceWith o) as [t|];
    try contradiction; [|constructor].
  inversion H; subst; try constructor; assumption.
Qed.

(** A value that is no object is refused, in the store and on the tree. *)
Lemma transformEmptyValues_refuses (h h' : Store.heap) (fuel : nat) (input : Store.rvalue)
      (t : value) (oH : Store.ConversionOptions) (o : ConversionOptions) :
  Store.repr h input t -> is_object t = false ->
  Store.transformEmptyValues (S fuel) input oH h'
  = (Throw (TypeError "Input must be an object or array"), h') /\
  transformEmptyValues t o = Throw (TypeError "Input must be an object or array").
Proof.
  intros Hr Hobj. rewrite transformEmptyValues_eq, Hobj.
  inversion Hr; subst; try discriminate Hobj; split; reflexivity.
Qed.

Lemma transformEmptyValues_refines (h : Store.heap) (fuel : nat) (input : Store.rvalue)
      (t : value) (oH : Store.ConversionOptions) (o : ConversionOptions) :
  Store.repr h input t -> same_options h oH o -> depth t < fuel ->
  forall h', over h h' ->
    exists fresh,
      snd (Store.transformEmptyValues fuel input oH h') = h' ++ fresh /\
      returned (Store.transformEmptyValues fuel input oH h') (transformEmptyValues t o).
Proof.
  intros Hr Hopt Hfuel h' Ho.
  destruct (is_object t) eqn:Hobj.
  - pose proof (same_options_replacement _ _ _ Hopt) as Hrw.
    destruct Hopt as [_ [Htrim [Harr Hfn]]].
    destruct (transformEmptyValues_returns h oH o Hrw Htrim Harr Hfn t fuel input
                Hr Hfuel Hobj h' Ho) as [out [fresh [t' [E1 [E2 E3]]]]].
    exists fresh. rewrite E1. split; [reflexivity|].
    eapply returned_ok; [exact E2|]. eapply repr_in_repr, E3.
  - destruct fuel as [|fuel]; [lia|].
    destruct (transformEmptyValues_refuses h h' fuel input t oH o Hr Hobj) as [E1 E2].
    exists []. rewrite E1, E2, app_nil_r. split; reflexivity.
Qed.

End CallFacts.

(** C8: every one of the five functions is deterministic and no call
    changes its arguments.  In the store, where arrays and objects are held
    at addresses and a call may read them, write them and add new ones:
    - a call of any of the five functions, on any arguments, leaves every
      object that the store held before the call as it was (the store
      after the call is the store before it, with new objects added);
    - [slugify] and [extractNumber], which are given strings and options by
      value, return the same again when the call is made again;
    - when [data] is held as the tree [t] and the call stack suffices for
      the depth of [t] and the segments of [path], [resolveObjectPath]
      returns the value of [t] at [path], and returns it again when the
      call is made again in the store that the first call left;
    - when [input] is held as the tree [t], the options are those of [o]
      and the call stack suffices for the depth of [t],
      [transformEmptyValues] returns the transformed tree, or throws the
      TypeError, and does so again when the call is made again;
    - when [text] and [replacements] are held as trees and the values of
      the replacements are no arrays or objects, [replaceString] has the
      outcome it has on the trees, and has it again when the call is made
      again. *)
Theorem calls_repeat_and_keep_their_arguments :
  (forall h text,
      Store.extends h (snd (Store.slugify text h))) /\
  (forall h str options,
      Store.extends h (snd (Store.extractNumber str options h))) /\
  (forall h fuel data path,
      Store.extends h (snd (Store.resolveObjectPath fuel data path h))) /\
  (forall h fuel input options,
      Store.extends h (snd (Store.transformEmptyValues fuel input options h))) /\
  (forall h text replacements options,
      Store.extends h (snd (Store.replaceString text replacements options h))) /\
  (forall h text,
      fst (second (Store.slugify text) h) = fst (Store.slugify text h)) /\
  (forall h str options,
      fst (second (Store.extractNumber str options) h)
      = fst (Store.extractNumber str options h)) /\
  (forall h fuel data path t,
      Store.repr h data t ->
      depth t + List.length (Str.split "." path) < fuel ->
      returned (Store.resolveObjectPath fuel data path h) (resolveObjectPath t path) /\
      returned (second (Store.resolveObjectPath fuel data path) h)
               (resolveObjectPath t path)) /\
  (forall h fuel input options t o,
      Store.repr h input t ->
      same_options h options o ->
      depth t < fuel ->
      returned (Store.transformEmptyValues fuel input options h)
               (transformEmptyValues t o) /\
      returned (second (Store.transformEmptyValues fuel input options) h)
               (transformEmptyValues t o)) /\
  (forall h text replacements options ttext t,
      Store.repr h text ttext ->
      Store.repr h replacements t ->
      forallb primitive (List.map snd (Val.entries t)) = true ->
      fst (Store.replaceString text replacements options h)
      = replaceString ttext t options /\
      fst (second (Store.replaceString text replacements options) h)
      = replaceString ttext t options).
Proof.
  repeat match goal with |- _ /\ _ => split end.
  - intros h text. exists []. now rewrite app_nil_r.
  - intros h str options. exists []. rewrite app_nil_r.
    unfold Store.extractNumber. destruct str; try reflexivity.
    destruct (extractNumber (VStr s) options); reflexivity.
  - intros h fuel data path.
    apply StoreFacts.keeps_extends, StoreFacts.keeps_resolveObjectPath.
  - intros h fuel input options.
    apply StoreFacts.keeps_extends, StoreFacts.keeps_transformEmptyValues.
  - intros h text replacements options.
    apply StoreFacts.keeps_extends, StoreFacts.keeps_replaceString.
  - reflexivity.
  - intros h str options. unfold second, Store.extractNumber.
    destruct str; try reflexivity.
    destruct (extractNumber (VStr s) options); reflexivity.
  - intros h fuel data path t Hr Hfuel. unfold second.
    destruct (CallFacts.resolveObjectPath_refines h fuel data path t Hr Hfuel)
      as [out [fresh [t' [E1 [E2 E3]]]]].
    rewrite E1. cbn [snd].
    destruct (CallFacts.resolveObjectPath_refines (h ++ fresh) fuel data path t
                (ReprFacts.repr_mono _ _ _ _ Hr) Hfuel)
      as [out2 [fresh2 [t2 [F1 [F2 F3]]]]].
    rewrite F1. assert (t2 = t') by congruence. subst t2.
    split; eapply CallFacts.returned_ok; eassumption.
  - intros h fuel input options t o Hr Hopt Hfuel. unfold second.
    destruct (CallFacts.transformEmptyValues_refines h fuel input t options o
                Hr Hopt Hfuel h (TransformFacts.over_refl h)) as [fresh [E1 E2]].
    split; [exact E2|]. rewrite E1.
    destruct (CallFacts.transformEmptyValues_refines h fuel input t options o
                Hr Hopt Hfuel (h ++ fresh)
                (TransformFacts.over_app _ _ _ (TransformFacts.over_refl h)))
      as [fresh2 [_ F2]].
    exact F2.
  - intros h text replacements options ttext t Htext Hrep Hprim. unfold second.
    split; [now apply ReplaceFacts.replaceString_refines|].
    destruct (StoreFacts.keeps_extends _ h
                (StoreFacts.keeps_replaceString _ text replacements options))
      as [fresh ->].
    apply ReplaceFacts.replaceString_refines; auto; now apply ReprFacts.repr_mono.
Qed.

(** The theorem at a store of three objects,
    [{a: ["", "y", {d: "  "}], b: "", c: "x"}] with its array and its inner
    object, and the default options. *)
Lemma calls_repeat_and_keep_their_arguments_witness :
  let h := [Store.OObj [("a", Store.RRef 1); ("b", Store.RStr ""); ("c", Store.RStr "x")];
            Store.OArr [Store.RStr ""; Store.RStr "y"; Store.RRef 2];
            Store.OObj [("d", Store.RStr "  ")]] in
  let options := Store.mkConversionOptions None None None None in
  let o := mkConversionOptions None None None None in
  let t := VObj [("a", VArr [VStr ""; VStr "y"; VObj [("d", VStr "  ")]]);
                 ("b", VStr ""); ("c", VStr "x")] in
  Store.repr h (Store.RRef 0) t /\
  same_options h options o /\
  depth t < 5 /\
  transformEmptyValues t o
  = Ok (VObj [("a", VArr [VNull; VStr "y"; VObj [("d", VNull)]]);
              ("b", VNull); ("c", VStr "x")]) /\
  returned (Store.transformEmptyValues 5 (Store.RRef 0) options h)
           (transformEmptyValues t o) /\
  returned (second (Store.transformEmptyValues 5 (Store.RRef 0) options) h)
           (transformEmptyValues t o).
Proof.
  intros h options o t.
  assert (Hd : NoDup (List.map fst [("d", Store.RStr "  ")])).
  { repeat constructor. simpl. tauto. }
  assert (Ha : NoDup (List.map fst [("a", Store.RRef 1); ("b", Store.RStr "");
                                    ("c", Store.RStr "x")])).
  { repeat constructor; simpl; intuition discriminate. }
  assert (Hr : Store.repr h (Store.RRef 0) t).
  { eapply Store.repr_obj; [exact I|reflexivity|exact Ha|].
    repeat constructor.
    eapply Store.repr_arr; [exact I|reflexivity|].
    repeat constructor.
    eapply Store.repr_obj; [exact I|reflexivity|exact Hd|].
    repeat constructor. }
  assert (Ho : same_options h options o) by (repeat split).
  assert (Hdepth : depth t < 5) by (vm_compute; lia).
  split; [exact Hr|]. split; [exact Ho|]. split; [exact Hdepth|].
  split; [reflexivity|].
  destruct calls_repeat_and_keep_their_arguments
    as [_ [_ [_ [_ [_ [_ [_ [_ [Htransform _]]]]]]]]].
  exact (Htransform h 5 (Store.RRef 0) options t o Hr Ho Hdepth).
Defined.

Local Open Scope string_scope.

(* ================================================================== *)
(** * slugify, said without patterns *)
(* ================================================================== *)

Module SlugFacts.

Import RegexFacts.

Lemma squeeze_run (p : ascii -> bool) (t s : string) :
  squeeze p t true s = squeeze p t false (Str.drop (Str.span p s) s).
Proof.
  induction s as [|c s IH]; [reflexivity|].
  cbn [squeeze Str.span]. destruct (p c) eqn:E; cbn [Str.drop squeeze]; auto.
  now rewrite E.
Qed.

(** Replacing every match of [r+], where [r] consumes one character that
    satisfies [p], by a fixed text replaces the maximal runs. *)
Lemma replace_plus_one_squeeze (p : ascii -> bool) (x : regex) (ic : bool) (t : string) :
  rmatch ic x = one p ->
  forall s, replace (mkRegExp (RPlus true x) true ic) (fun _ => t) s = squeeze p t false s.
Proof.
  intros Hx s. unfold replace.
  remember (String.length s) as n eqn:Hn.
  assert (Hlen : String.length s <= n) by lia. clear Hn.
  revert s Hlen. induction n as [|n IH]; intros s Hlen.
  - destruct s; simpl in Hlen; [|lia].
    rewrite scan_nil, (match_here_plus_one p x true ic "" Hx). reflexivity.
  - destruct s as [|c s].
    + rewrite scan_nil, (match_here_plus_one p x true ic "" Hx). reflexivity.
    + simpl in Hlen.
      rewrite scan_cons, (match_here_plus_one p x true ic _ Hx).
      cbn [Str.span global squeeze]. destruct (p c) eqn:Hp.
      * cbn [splice]. rewrite scan_skip by apply span_le.
        rewrite IH by (rewrite length_drop; lia).
        now rewrite squeeze_run.
      * cbn [splice String.append]. rewrite IH by lia. reflexivity.
Qed.

Lemma squeeze_ext (p q : ascii -> bool) (t : string) :
  (forall c, p c = q c) -> forall b s, squeeze p t b s = squeeze q t b s.
Proof.
  intros H b s. revert b. induction s as [|c s IH]; intros b; cbn [squeeze]; auto.
  rewrite <- H. destruct (p c); now rewrite ?IH.
Qed.

Lemma squeeze_nothing (p : ascii -> bool) (b : bool) (s : string) :
  squeeze p "" b s = keep (fun c => negb (p c)) s.
Proof.
  revert b. induction s as [|c s IH]; intros b; cbn [squeeze keep]; auto.
  destruct (p c); cbn [negb]; [destruct b|]; now rewrite ?IH.
Qed.

Lemma keep_ext (p q : ascii -> bool) (s : string) :
  (forall c, p c = q c) -> keep p s = keep q s.
Proof.
  intros H. induction s as [|c s IH]; cbn [keep]; auto. now rewrite H, IH.
Qed.

Lemma slugify_direct (text : string) :
  slugify text = hyphenate (keep word_or_space (Str.toLowerCase text)).
Proof.
  unfold slugify, re_spaces, re_not_word_or_space, hyphenate.
  rewrite (replace_plus_one_squeeze
             (fun a => xorb true (set_mem false [CWord; CChar " "] a)) _ false "")
    by reflexivity.
  rewrite (replace_plus_one_squeeze
             (fun a => N.eqb (Char.code " ") (Char.code a)) _ false "-")
    by reflexivity.
  rewrite squeeze_nothing.
  rewrite (keep_ext _ word_or_space).
  - apply squeeze_ext.
    intros c. destruct c as [[] [] [] [] [] [] [] []]; reflexivity.
  - intros c. unfold set_mem, word_or_space. cbn [existsb item_mem].
    rewrite orb_false_r, (Ascii.eqb_sym c " ").
    now destruct (Char.is_word c || Ascii.eqb " " c)%bool.
Qed.

Lemma map_append (f : ascii -> ascii) (a b : string) :
  Str.map f (a ++ b) = Str.map f a ++ Str.map f b.
Proof. induction a as [|c a IH]; simpl; auto. now rewrite IH. Qed.

Lemma keep_append (p : ascii -> bool) (a b : string) :
  keep p (a ++ b) = keep p a ++ keep p b.
Proof.
  induction a as [|c a IH]; simpl; auto. destruct (p c); simpl; now rewrite IH.
Qed.

Lemma keep_all (p : ascii -> bool) (s : string) :
  Str.all p s = true -> keep p s = s.
Proof.
  induction s as [|c s IH]; simpl; auto.
  intros H. apply andb_prop in H. destruct H as [-> H]. now rewrite IH.
Qed.

Lemma all_keep (p q : ascii -> bool) (s : string) :
  Str.all q s = true -> Str.all q (keep p s) = true.
Proof.
  induction s as [|c s IH]; simpl; auto.
  intros H. apply andb_prop in H. destruct H as [Hc H].
  destruct (p c); simpl; [rewrite Hc|]; auto.
Qed.

Lemma all_kept (p : ascii -> bool) (s : string) : Str.all p (keep p s) = true.
Proof.
  induction s as [|c s IH]; simpl; auto.
  destruct (p c) eqn:E; simpl; [rewrite E|]; auto.
Qed.

Lemma all_weaken (p q : ascii -> bool) (s : string) :
  (forall c, p c = true -> q c = true) -> Str.all p s = true -> Str.all q s = true.
Proof.
  intros H. induction s as [|c s IH]; simpl; auto.
  intros Hs. apply andb_prop in Hs. destruct Hs as [Hc Hs].
  now rewrite (H c Hc), IH.
Qed.

Lemma all_and (p q : ascii -> bool) (s : string) :
  Str.all p s = true -> Str.all q s = true ->
  Str.all (fun c => (p c && q c)%bool) s = true.
Proof.
  induction s as [|c s IH]; simpl; auto.
  intros Hp Hq. apply andb_prop in Hp, Hq. destruct Hp as [-> Hp], Hq as [-> Hq].
  now rewrite IH.
Qed.

(** Where no character is in a run, nothing is replaced. *)
Lemma squeeze_none (p : ascii -> bool) (t : string) (b : bool) (s : string) :
  Str.all (fun c => negb (p c)) s = true -> squeeze p t b s = s.
Proof.
  revert b. induction s as [|c s IH]; intros b; simpl; auto.
  intros H. apply andb_prop in H. destruct H as [Hc H].
  destruct (p c); [discriminate|]. now rewrite IH.
Qed.

Lemma squeeze_app_clean (p : ascii -> bool) (t w r : string) :
  Str.all (fun c => negb (p c)) w = true ->
  squeeze p t false (w ++ r) = w ++ squeeze p t false r.
Proof.
  induction w as [|c w IH]; simpl; auto.
  intros H. apply andb_prop in H. destruct H as [Hc H].
  destruct (p c); [discriminate|]. now rewrite IH.
Qed.

(** Before a character that is in no run, it does not matter whether a run
    was going on. *)
Lemma squeeze_fresh_start (p : ascii -> bool) (t : string) (b : bool) (c : ascii) (s : string) :
  p c = false -> squeeze p t b (String c s) = squeeze p t false (String c s).
Proof. intros H. cbn [squeeze]. now rewrite H. Qed.

Lemma word_not_space (c : ascii) : Char.is_word c = true -> Ascii.eqb c " " = false.
Proof. destruct c as [[] [] [] [] [] [] [] []]; cbv; congruence. Qed.

Lemma word_lower (c : ascii) :
  Char.is_word c = true -> Char.is_word (Char.toLowerCase c) = true.
Proof. destruct c as [[] [] [] [] [] [] [] []]; cbv; congruence. Qed.

Lemma word_or_space_not_hyphen (c : ascii) :
  word_or_space c = true -> Ascii.eqb c "-" = false.
Proof. destruct c as [[] [] [] [] [] [] [] []]; cbv; congruence. Qed.

Lemma slug_char_lower (c : ascii) : slug_char c = true -> Char.toLowerCase c = c.
Proof. destruct c as [[] [] [] [] [] [] [] []]; cbv; congruence. Qed.

Lemma slug_char_kept (c : ascii) :
  slug_char c = true -> word_or_space c = negb (Ascii.eqb c "-").
Proof. destruct c as [[] [] [] [] [] [] [] []]; cbv; congruence. Qed.

Lemma slug_char_no_space (c : ascii) : slug_char c = true -> Ascii.eqb c " " = false.
Proof. destruct c as [[] [] [] [] [] [] [] []]; cbv; congruence. Qed.

Lemma lowered_word_or_space_slug (c : ascii) :
  (word_or_space c && negb (Char.is_upper c))%bool = true ->
  Ascii.eqb c " " = false -> slug_char c = true.
Proof. destruct c as [[] [] [] [] [] [] [] []]; cbv; congruence. Qed.

Lemma all_words_lower (w : string) :
  Str.all Char.is_word w = true -> Str.all Char.is_word (Str.toLowerCase w) = true.
Proof.
  induction w as [|c w IH]; auto.
  cbn [Str.toLowerCase Str.map Str.all].
  intros H. apply andb_prop in H. destruct H as [Hc H].
  rewrite (word_lower c Hc). now apply IH.
Qed.

Lemma toLowerCase_join (ws : list string) :
  Str.toLowerCase (Str.join " " ws) = Str.join " " (List.map Str.toLowerCase ws).
Proof.
  induction ws as [|w [|w' ws] IH]; auto.
  change (Str.join " " (w :: w' :: ws)) with (w ++ " " ++ Str.join " " (w' :: ws)).
  cbn [List.map].
  change (Str.join " " (Str.toLowerCase w :: Str.toLowerCase w' :: List.map Str.toLowerCase ws))
    with (Str.toLowerCase w ++ " " ++
          Str.join " " (List.map Str.toLowerCase (w' :: ws))).
  rewrite <- IH. unfold Str.toLowerCase. now rewrite !map_append.
Qed.

Lemma all_join_words (ws : list string) :
  Forall (fun w => Str.all Char.is_word w = true) ws ->
  Str.all word_or_space (Str.join " " ws) = true.
Proof.
  assert (Hw : forall w, Str.all Char.is_word w = true -> Str.all word_or_space w = true).
  { intros w. apply all_weaken. intros c Hc. unfold word_or_space. now rewrite Hc. }
  induction ws as [|w [|w' ws] IH]; intros H; auto.
  - inversion H; subst. cbn. now apply Hw.
  - inversion H; subst.
    change (Str.join " " (w :: w' :: ws)) with (w ++ " " ++ Str.join " " (w' :: ws)).
    rewrite !all_append, (Hw w), IH; auto.
Qed.

(** Words that are not empty, joined by one space each, are joined by one
    hyphen each. *)
Lemma hyphenate_join (ws : list string) :
  Forall (fun w => w <> "" /\ Str.all Char.is_word w = true) ws ->
  hyphenate (Str.join " " ws) = Str.join "-" ws.
Proof.
  assert (Hclean : forall w, Str.all Char.is_word w = true ->
                             Str.all (fun c => negb (Ascii.eqb c " ")) w = true).
  { intros w. apply all_weaken. intros c Hc. now rewrite (word_not_space c Hc). }
  unfold hyphenate.
  induction ws as [|w [|w' ws] IH]; intros H; auto.
  - inversion H as [|? ? [_ Hw] _]; subst. cbn [Str.join String.concat].
    apply squeeze_none. now apply Hclean.
  - inversion H as [|? ? [_ Hw] Hrest]; subst.
    change (Str.join " " (w :: w' :: ws)) with (w ++ " " ++ Str.join " " (w' :: ws)).
    change (Str.join "-" (w :: w' :: ws)) with (w ++ "-" ++ Str.join "-" (w' :: ws)).
    rewrite squeeze_app_clean by now apply Hclean.
    f_equal. cbn [String.append squeeze Ascii.eqb Bool.eqb]. f_equal.
    rewrite <- (IH Hrest).
    inversion Hrest as [|? ? [Hne Hw'] _]; subst.
    destruct w' as [|c w']; [contradiction|].
    assert (Hc : Ascii.eqb c " " = false).
    { cbn [Str.all] in Hw'. apply andb_prop in Hw'. now apply word_not_space. }
    destruct ws as [|w'' ws].
    + cbn [Str.join String.concat]. now apply squeeze_fresh_start.
    + change (Str.join " " (String c w' :: w'' :: ws))
        with (String c (w' ++ " " ++ Str.join " " (w'' :: ws))).
      now apply squeeze_fresh_start.
Qed.

Lemma doubled_cons (c a : ascii) (s : string) :
  doubled c (String a s) = ((Ascii.eqb a c && starts c s) || doubled c s)%bool.
Proof. destruct s; cbn [doubled starts]; now rewrite ?andb_false_r. Qed.

(** Hyphens put in for runs of spaces never meet, when the text has no
    hyphen of its own. *)
Lemma squeeze_hyphens_apart (s : string) :
  Str.all (fun c => negb (Ascii.eqb c "-")) s = true ->
  forall b,
    doubled "-" (squeeze (fun c => Ascii.eqb c " ") "-" b s) = false /\
    (b = true -> starts "-" (squeeze (fun c => Ascii.eqb c " ") "-" b s) = false).
Proof.
  induction s as [|c s IH]; intros H b; [now split|].
  cbn [Str.all] in H. apply andb_prop in H. destruct H as [Hc H].
  apply negb_true_iff in Hc.
  cbn [squeeze]. destruct (Ascii.eqb c " ") eqn:Esp.
  - destruct (IH H true) as [H1 H2]. destruct b; [now split|].
    split; [|discriminate].
    change ("-" ++ ?x) with (String "-" x).
    now rewrite doubled_cons, H1, (H2 eq_refl).
  - destruct (IH H false) as [H1 _].
    rewrite doubled_cons, Hc, H1. cbn [starts]. now rewrite Hc.
Qed.

Lemma all_squeezed (p q r : ascii -> bool) (t : string) :
  Str.all q t = true ->
  (forall c, r c = true -> p c = false -> q c = true) ->
  forall s b, Str.all r s = true -> Str.all q (squeeze p t b s) = true.
Proof.
  intros Ht Hq. induction s as [|c s IH]; intros b H; auto.
  cbn [Str.all] in H. apply andb_prop in H. destruct H as [Hc H].
  cbn [squeeze]. destruct (p c) eqn:E.
  - destruct b; [now apply IH|]. rewrite all_append, Ht. now apply IH.
  - cbn [Str.all]. rewrite (Hq c Hc E). now apply IH.
Qed.

(** The characters of a slug, from what [slugify] computes. *)
Lemma slugify_slug_chars (text : string) : Str.all slug_char (slugify text) = true.
Proof.
  rewrite slugify_direct. unfold hyphenate.
  apply (all_squeezed _ _ (fun c => (word_or_space c && negb (Char.is_upper c))%bool)).
  - reflexivity.
  - intros c. apply lowered_word_or_space_slug.
  - apply all_and; [apply all_kept|apply all_keep, all_toLowerCase].
Qed.

Lemma toLowerCase_slug (s : string) :
  Str.all slug_char s = true -> Str.toLowerCase s = s.
Proof.
  induction s as [|c s IH]; auto. cbn [Str.all Str.toLowerCase Str.map].
  intros H. apply andb_prop in H. destruct H as [Hc H].
  rewrite (slug_char_lower c Hc). f_equal. now apply IH.
Qed.

Lemma keep_slug (s : string) :
  Str.all slug_char s = true ->
  keep word_or_space s = keep (fun c => negb (Ascii.eqb c "-")) s.
Proof.
  induction s as [|c s IH]; auto. cbn [Str.all keep].
  intros H. apply andb_prop in H. destruct H as [Hc H].
  now rewrite (slug_char_kept c Hc), IH.
Qed.

Lemma slugify_slug (s : string) :
  Str.all slug_char s = true ->
  slugify s = keep (fun c => negb (Ascii.eqb c "-")) s.
Proof.
  intros H. rewrite slugify_direct, (toLowerCase_slug s H), (keep_slug s H).
  apply squeeze_none. apply all_keep.
  revert H. apply all_weaken. intros c Hc. now rewrite (slug_char_no_space c Hc).
Qed.

(** Whether the end of [s] is inside a run of [p]-characters, [b] saying
    whether its start is. *)
Lemma squeeze_then_space (p : ascii -> bool) (c : ascii) (s : string) :
  p c = true ->
  forall b, exists r,
    squeeze p "-" b (s ++ String c "") = r ++ "-" \/
    (b = true /\ squeeze p "-" b (s ++ String c "") = "").
Proof.
  intros Hc. induction s as [|a s IH]; intros b.
  - cbn [String.append squeeze]. rewrite Hc. destruct b.
    + exists "". now right.
    + exists "". now left.
  - cbn [String.append squeeze]. destruct (p a).
    + destruct (IH true) as [r [H|[_ H]]]; destruct b.
      * exists r. now left.
      * exists ("-" ++ r). left. now rewrite H.
      * exists "". right. now split.
      * exists "". left. now rewrite H.
    + destruct (IH false) as [r [H|[H _]]]; [|discriminate].
      exists (String a r). left. now rewrite H.
Qed.

End SlugFacts.

(** X1: [slugify] lower-cases the text, drops every character that is not
    a letter, a digit, an underscore or a space, and puts one hyphen for
    every run of spaces that is left. *)
Theorem slugify_is_hyphenate (text : string) :
  slugify text = hyphenate (keep word_or_space (Str.toLowerCase text)).
Proof. apply SlugFacts.slugify_direct. Qed.

(** X2: words of letters, digits and underscores, none empty, joined by one
    space each, give the lower-cased words joined by one hyphen each. *)
Theorem slugify_words (ws : list string) :
  Forall (fun w => w <> "" /\ Str.all Char.is_word w = true) ws ->
  slugify (Str.join " " ws) = Str.join "-" (List.map Str.toLowerCase ws).
Proof.
  intros H. rewrite SlugFacts.slugify_direct, SlugFacts.toLowerCase_join.
  assert (Hl : Forall (fun w => w <> "" /\ Str.all Char.is_word w = true)
                      (List.map Str.toLowerCase ws)).
  { apply Forall_map. eapply Forall_impl; [|exact H].
    intros w [Hne Hw]. split; [|now apply SlugFacts.all_words_lower].
    destruct w; [contradiction|discriminate]. }
  rewrite SlugFacts.keep_all.
  - now apply SlugFacts.hyphenate_join.
  - apply SlugFacts.all_join_words. eapply Forall_impl; [|exact Hl]. now intros w [_ Hw].
Qed.

Lemma slugify_words_witness :
  slugify "Hello big World_2" = "hello-big-world_2".
Proof.
  apply (slugify_words ["Hello"; "big"; "World_2"]).
  repeat constructor; discriminate.
Defined.

(** X3: a slug never has two hyphens in a row: the hyphens of the text are
    dropped before the runs of spaces become hyphens. *)
Theorem slugify_no_double_hyphen (text : string) :
  doubled "-" (slugify text) = false.
Proof.
  rewrite SlugFacts.slugify_direct. unfold hyphenate.
  apply SlugFacts.squeeze_hyphens_apart.
  apply (SlugFacts.all_weaken word_or_space); [|apply SlugFacts.all_kept].
  intros c Hc. now rewrite (SlugFacts.word_or_space_not_hyphen c Hc).
Qed.

(** X4: [slugify] does not leave a slug as it is: on a text of the
    characters of a slug it drops the hyphens and keeps the rest, so a
    second [slugify] takes out the hyphens the first one put in, and only
    a slug without hyphens stays the same. *)
Theorem slugify_of_slug :
  (forall s, Str.all slug_char s = true ->
             slugify s = keep (fun c => negb (Ascii.eqb c "-")) s) /\
  (forall text, slugify (slugify text)
                = keep (fun c => negb (Ascii.eqb c "-")) (slugify text)) /\
  (forall s, Str.all (fun c => (slug_char c && negb (Ascii.eqb c "-"))%bool) s = true ->
             slugify s = s).
Proof.
  split; [exact SlugFacts.slugify_slug|]. split.
  - intros text. apply SlugFacts.slugify_slug, SlugFacts.slugify_slug_chars.
  - intros s H. rewrite SlugFacts.slugify_slug.
    + apply SlugFacts.keep_all. revert H. apply SlugFacts.all_weaken.
      intros c Hc. now apply andb_prop in Hc.
    + revert H. apply SlugFacts.all_weaken.
      intros c Hc. now apply andb_prop in Hc.
Qed.

(** X5: [slugify] does not trim: a text that starts with a space gives a
    slug that starts with a hyphen, and a text that ends with a space gives
    a slug that ends with one. *)
Theorem slugify_keeps_outer_spaces (text : string) :
  (exists rest, slugify (String " " text) = String "-" rest) /\
  (exists rest, slugify (text ++ " ") = rest ++ "-").
Proof.
  split.
  - rewrite SlugFacts.slugify_direct. eexists. reflexivity.
  - rewrite SlugFacts.slugify_direct. unfold Str.toLowerCase.
    rewrite SlugFacts.map_append, SlugFacts.keep_append.
    change (keep word_or_space (Str.map Char.toLowerCase " ")) with (String " " "").
    unfold hyphenate.
    destruct (SlugFacts.squeeze_then_space (fun c => Ascii.eqb c " ") " "
                (keep word_or_space (Str.map Char.toLowerCase text)) eq_refl false)
      as [r [H|[H _]]]; [|discriminate].
    exists r. exact H.
Qed.

(* ================================================================== *)
(** * resolveObjectPath: paths through objects *)
(* ================================================================== *)

Module PathFacts.

Lemma split_segment (key : string) :
  Str.all (fun c => negb (Ascii.eqb c ".")) key = true -> Str.split "." key = [key].
Proof.
  induction key as [|c key IH]; [reflexivity|].
  cbn [Str.all]. intros H. apply andb_prop in H. destruct H as [Hc H].
  rewrite split_cons. apply negb_true_iff in Hc. rewrite Hc, (IH H). reflexivity.
Qed.

(** Splitting the joined segments gives the segments back. *)
Lemma split_join (keys : list string) :
  keys <> [] -> forallb segment keys = true ->
  Str.split "." (Str.join "." keys) = keys.
Proof.
  induction keys as [|key [|key' keys] IH]; intros Hne H; [contradiction| |].
  - cbn [forallb] in H. apply andb_prop in H. destruct H as [H _].
    apply andb_prop in H. destruct H as [_ H].
    cbn [Str.join String.concat]. now apply split_segment.
  - cbn [forallb] in H. apply andb_prop in H. destruct H as [Hk H].
    apply andb_prop in Hk. destruct Hk as [_ Hk].
    change (Str.join "." (key :: key' :: keys))
      with (key ++ String "." (Str.join "." (key' :: keys))).
    rewrite split_app, (split_segment key Hk), IH; auto. discriminate.
Qed.

Lemma join_not_empty (keys : list string) :
  keys <> [] -> forallb segment keys = true -> Str.is_empty (Str.join "." keys) = false.
Proof.
  destruct keys as [|key keys]; [contradiction|]. intros _ H.
  cbn [forallb] in H. apply andb_prop in H. destruct H as [Hk _].
  apply andb_prop in Hk. destruct Hk as [Hk _].
  destruct key as [|c key]; [discriminate|]. now destruct keys.
Qed.

Lemma no_empty_segment (keys : list string) :
  forallb segment keys = true ->
  existsb (fun key => negb (Val.truthy (VStr key))) keys = false.
Proof.
  induction keys as [|key keys IH]; auto.
  cbn [forallb existsb]. intros H. apply andb_prop in H. destruct H as [Hk H].
  apply andb_prop in Hk. destruct Hk as [Hk _].
  rewrite (IH H). cbn [Val.truthy]. now rewrite Hk.
Qed.

(** [traverse] on nested objects reads the keys one after the other. *)
Lemma traverse_follows (keys : list string) :
  forall data v, keys <> [] -> follow data keys = Some v -> traverse data keys = Ok v.
Proof.
  induction keys as [|key keys IH]; intros data v Hne H; [contradiction|].
  cbn [follow] in H. destruct data; try discriminate.
  destruct (Val.lookup key props) as [next|] eqn:E; [|discriminate].
  rewrite traverse_eq. cbn [Val.get bind]. rewrite E. cbn [Val.or_undefined].
  destruct keys as [|key' keys].
  - cbn [follow] in H. injection H as <-.
    now destruct next.
  - cbn [List.length Nat.eqb].
    destruct next; try discriminate. cbn [Val.is_undefined].
    apply IH; [discriminate|exact H].
Qed.

Lemma flat_plain (rs : list value) :
  forallb (fun r => negb (Val.isArray r)) rs = true -> Val.flat rs = rs.
Proof.
  induction rs as [|r rs IH]; auto. cbn [forallb].
  intros H. apply andb_prop in H. destruct H as [Hr H].
  destruct r; try discriminate; cbn [Val.flat]; now rewrite IH.
Qed.

Lemma filter_plain (p : value -> bool) (rs : list value) :
  forallb (fun r => negb (Val.isArray r)) rs = true ->
  forallb (fun r => negb (Val.isArray r)) (List.filter p rs) = true.
Proof.
  induction rs as [|r rs IH]; auto. cbn [forallb List.filter].
  intros H. apply andb_prop in H. destruct H as [Hr H].
  destruct (p r); cbn [forallb]; [rewrite Hr|]; auto.
Qed.

End PathFacts.

(** X6: a path of segments that leads through own properties of nested
    objects returns what the last property holds, whatever that is: an
    array, [null], a falsy value or [undefined] alike. *)
Theorem resolveObjectPath_follows_keys (data : value) (keys : list string) (v : value) :
  keys <> [] ->
  forallb segment keys = true ->
  follow data keys = Some v ->
  resolveObjectPath data (Str.join "." keys) = Ok v.
Proof.
  intros Hne Hseg Hv. unfold resolveObjectPath.
  assert (Hdata : Val.truthy data = true).
  { destruct keys; [contradiction|]. destruct data; try discriminate. reflexivity. }
  assert (Hpath : Val.truthy (VStr (Str.join "." keys)) = true)
    by (cbn [Val.truthy]; now rewrite PathFacts.join_not_empty).
  rewrite Hdata, Hpath. cbn [negb]. cbv zeta.
  rewrite (PathFacts.split_join keys Hne Hseg), (PathFacts.no_empty_segment keys Hseg).
  now apply PathFacts.traverse_follows.
Qed.

Lemma resolveObjectPath_follows_keys_witness :
  resolveObjectPath
    (VObj [("user", VObj [("name", VStr "John"); ("age", VNum (Num.of_Z 0))])])
    "user.age"
  = Ok (VNum (Num.of_Z 0)).
Proof.
  apply (resolveObjectPath_follows_keys _ ["user"; "age"]).
  - discriminate.
  - reflexivity.
  - reflexivity.
Defined.

(** X7: on an array of objects that all have the key, a one-segment path
    returns the values the key has in them, in order, but without the
    falsy ones (0, the empty string, [false], [null], [undefined], NaN),
    and [undefined] when none is left; the values here are no arrays. *)
Theorem resolveObjectPath_plucks_truthy (items : list (list (string * value)))
        (key : string) (vals : list value) :
  segment key = true ->
  Forall2 (fun props v => Val.lookup key props = Some v /\ Val.isArray v = false)
          items vals ->
  resolveObjectPath (VArr (List.map VObj items)) key
  = Ok (match List.filter Val.truthy vals with
        | [] => VUndefined
        | found => VArr found
        end).
Proof.
  intros Hseg Hvals. unfold resolveObjectPath.
  pose proof Hseg as Hseg'. apply andb_prop in Hseg'. destruct Hseg' as [Hne Hdot].
  assert (Hkey : Val.truthy (VStr key) = true) by exact Hne.
  change (Val.truthy (VArr (List.map VObj items))) with true.
  rewrite Hkey. cbn [negb]. cbv zeta. rewrite (PathFacts.split_segment key Hdot).
  cbn [existsb]. rewrite Hkey. cbn [orb negb].
  rewrite traverse_eq.
  assert (Hm : mapM (fun item => traverse item [key]) (List.map VObj items) = Ok vals).
  { apply mapM_Forall2. clear -Hvals.
    induction Hvals as [|props v items vals [Hv _] _ IH]; cbn [List.map]; constructor; auto.
    rewrite traverse_eq. cbn [Val.get bind]. rewrite Hv. cbn [Val.or_undefined].
    now destruct v. }
  rewrite Hm. cbn [bind].
  assert (Hplain : forallb (fun r => negb (Val.isArray r)) vals = true).
  { clear -Hvals. induction Hvals as [|props v items vals [_ Hv] _ IH]; auto.
    cbn [forallb]. now rewrite Hv, IH. }
  rewrite (PathFacts.flat_plain _ (PathFacts.filter_plain Val.truthy vals Hplain)).
  now destruct (List.filter Val.truthy vals).
Qed.

Lemma resolveObjectPath_plucks_truthy_witness :
  resolveObjectPath
    (VArr [VObj [("n", VNum (Num.of_Z 0))]; VObj [("n", VNum (Num.of_Z 7))];
           VObj [("n", VStr "")]; VObj [("n", VStr "x")]])
    "n"
  = Ok (VArr [VNum (Num.of_Z 7); VStr "x"]).
Proof.
  apply (resolveObjectPath_plucks_truthy
           [[("n", VNum (Num.of_Z 0))]; [("n", VNum (Num.of_Z 7))];
            [("n", VStr "")]; [("n", VStr "x")]]
           "n"
           [VNum (Num.of_Z 0); VNum (Num.of_Z 7); VStr ""; VStr "x"]).
  - reflexivity.
  - repeat constructor.
Defined.

Module StorePathFacts.

Lemma traverse_follows_in (h : Store.heap) (keys : list string) :
  forall fuel data v,
    keys <> [] -> List.length keys <= fuel ->
    follow_in h data keys = Some v ->
    Store.traverse fuel data keys h = (Ok v, h).
Proof.
  induction keys as [|key keys IH]; intros fuel data v Hne Hfuel H; [contradiction|].
  destruct fuel as [|fuel]; [simpl in Hfuel; lia|].
  cbn [follow_in] in H. destruct data as [| | | | |l]; try discriminate.
  destruct (nth_error h l) as [[items|props]|] eqn:El; try discriminate.
  destruct (Store.lookup key props) as [next|] eqn:E; [|discriminate].
  cbn [Store.traverse Store.is_null Store.is_undefined orb Store.isArray Store.get].
  unfold Store.bind, Store.load. rewrite El. cbn [Store.ret].
  rewrite El, E. cbn [Store.or_undefined].
  destruct keys as [|key' keys].
  - cbn [follow_in] in H. injection H as <-. now destruct next.
  - cbn [List.length Nat.eqb].
    destruct next; try discriminate. cbn [Store.is_undefined].
    apply IH; [discriminate|simpl in Hfuel |- *; lia|exact H].
Qed.

End StorePathFacts.

(** X8: in the store, a path of segments that leads through own properties
    of nested objects returns what the last property holds itself: for an
    array or an object the very reference that the parent holds, not a
    copy; the call adds no object to the store and changes none.  A call
    stack of one frame for every segment is enough. *)
Theorem resolveObjectPath_returns_the_stored (h : Store.heap) (fuel : nat)
        (data : Store.rvalue) (keys : list string) (v : Store.rvalue) :
  keys <> [] ->
  forallb segment keys = true ->
  follow_in h data keys = Some v ->
  List.length keys <= fuel ->
  Store.resolveObjectPath fuel data (Str.join "." keys) h = (Ok v, h).
Proof.
  intros Hne Hseg Hv Hfuel. unfold Store.resolveObjectPath.
  assert (Hdata : Store.truthy data = true).
  { destruct keys; [contradiction|]. destruct data; try discriminate. reflexivity. }
  assert (Hpath : Store.truthy (Store.RStr (Str.join "." keys)) = true)
    by (cbn [Store.truthy]; now rewrite PathFacts.join_not_empty).
  rewrite Hdata, Hpath. cbn [negb]. cbv zeta.
  rewrite (PathFacts.split_join keys Hne Hseg).
  change (existsb (fun key => negb (Store.truthy (Store.RStr key))) keys)
    with (existsb (fun key => negb (Val.truthy (VStr key))) keys).
  rewrite (PathFacts.no_empty_segment keys Hseg).
  now apply StorePathFacts.traverse_follows_in.
Qed.

Lemma resolveObjectPath_returns_the_stored_witness :
  let h := [Store.OObj [("user", Store.RRef 1)];
            Store.OObj [("tags", Store.RRef 2); ("self", Store.RRef 0)];
            Store.OArr [Store.RStr "a"]] in
  Store.resolveObjectPath 4 (Store.RRef 0) "user.self.user.tags" h
  = (Ok (Store.RRef 2), h).
Proof.
  intros h.
  apply (resolveObjectPath_returns_the_stored h 4 (Store.RRef 0)
           ["user"; "self"; "user"; "tags"]).
  - discriminate.
  - reflexivity.
  - reflexivity.
  - simpl. lia.
Defined.

(* ================================================================== *)
(** * extractNumber: digits, numerals and signs *)
(* ================================================================== *)

Module ExtractFacts.

Import RegexFacts.

Lemma keep_span (p : ascii -> bool) (s : string) :
  keep p s = Str.take (Str.span p s) s ++ keep p (Str.drop (Str.span p s) s).
Proof.
  induction s as [|c s IH]; [reflexivity|].
  cbn [keep Str.span]. destruct (p c) eqn:E; cbn [Str.take Str.drop String.append keep].
  - now rewrite <- IH.
  - now rewrite E.
Qed.

Lemma number_length_plain (s : string) :
  number_length false false s =
  match Str.span Char.is_digit s with
  | O => None
  | S d => Some (S d)
  end.
Proof.
  unfold number_length. cbn [andb].
  replace (let '(sign, body) :=
             match s with
             | String _ _ => (0, s)
             | EmptyString => (0, s)
             end in
           match Str.span Char.is_digit body with
           | O => None
           | S d => Some (sign + S d + 0)
           end)
    with (match Str.span Char.is_digit s with
          | O => None
          | S d => Some (0 + S d + 0)
          end) by (now destruct s).
  destruct (Str.span Char.is_digit s); [reflexivity|].
  f_equal. lia.
Qed.

(** With neither switch the texts found are the runs of digits: joined,
    they are the digits of the string. *)
Lemma plain_texts_digits (fuel : nat) :
  forall s, String.length s <= fuel ->
    String.concat "" (occurrences (number_length false false) fuel s)
    = keep Char.is_digit s.
Proof.
  induction fuel as [|fuel IH]; intros s Hlen.
  - destruct s; [reflexivity|simpl in Hlen; lia].
  - cbn [occurrences]. rewrite number_length_plain.
    destruct (Str.span Char.is_digit s) as [|d] eqn:Ed.
    + destruct s as [|c s]; [reflexivity|].
      cbn [Str.span] in Ed. cbn [keep].
      destruct (Char.is_digit c); [discriminate|].
      apply IH. simpl in Hlen. lia.
    + rewrite concat_cons, IH.
      * rewrite (keep_span Char.is_digit s), Ed. reflexivity.
      * rewrite length_drop. destruct s; [discriminate|]. simpl in Hlen |- *. lia.
Qed.

Lemma trimEnd_empty (s : string) :
  Str.trimEnd s = "" -> Str.all Char.is_space s = true.
Proof.
  induction s as [|c s IH]; [reflexivity|].
  cbn [Str.trimEnd Str.all].
  destruct (Str.trimEnd s) eqn:E; [|discriminate].
  destruct (Char.is_space c); [|discriminate].
  intros _. now apply IH.
Qed.

Lemma trimStart_spaces (s : string) :
  Str.all Char.is_space (Str.trimStart s) = true -> Str.all Char.is_space s = true.
Proof.
  induction s as [|c s IH]; [reflexivity|].
  cbn [Str.trimStart Str.all].
  destruct (Char.is_space c) eqn:E; cbn [Str.all andb]; auto.
  rewrite E. discriminate.
Qed.

(** Only white space trims to nothing. *)
Lemma trim_empty (s : string) : Str.trim s = "" -> Str.all Char.is_space s = true.
Proof. intros H. apply trimStart_spaces, trimEnd_empty, H. Qed.

Lemma digit_no_space (c : ascii) : Char.is_digit c = true -> Char.is_space c = false.
Proof. destruct c as [[] [] [] [] [] [] [] []]; cbv; congruence. Qed.

Lemma digit_no_plus (c : ascii) : Char.is_digit c = true -> Ascii.eqb c "+" = false.
Proof. destruct c as [[] [] [] [] [] [] [] []]; cbv; congruence. Qed.

Lemma keep_spaces (s : string) :
  Str.all Char.is_space s = true -> keep Char.is_digit s = "".
Proof.
  induction s as [|c s IH]; [reflexivity|]. cbn [Str.all keep].
  intros H. apply andb_prop in H. destruct H as [Hc H].
  destruct (Char.is_digit c) eqn:E; [|now apply IH].
  apply digit_no_space in E. congruence.
Qed.

(** [parseInt] of a text of digits. *)
Lemma parseInt10_digits (c : ascii) (ds : string) :
  Str.all Char.is_digit (String c ds) = true ->
  Num.parseInt10 (String c ds) = Num.of_decimal false (Num.digits_value 0 (String c ds)) 0.
Proof.
  intros H. pose proof H as H'. cbn [Str.all] in H'.
  apply andb_prop in H'. destruct H' as [Hc _].
  unfold Num.parseInt10. cbn [Str.trimStart]. rewrite (digit_no_space c Hc).
  unfold Num.read_sign.
  destruct (digit_plain c Hc) as [-> _]. rewrite (digit_no_plus c Hc).
  unfold Num.integer_literal.
  rewrite take_while_span, (span_all _ _ H), take_all. reflexivity.
Qed.

(** [parseFloat] of a text of digits. *)
Lemma parseFloat_digits (c : ascii) (ds : string) :
  Str.all Char.is_digit (String c ds) = true ->
  Num.parseFloat (String c ds) = Num.of_decimal false (Num.digits_value 0 (String c ds)) 0.
Proof.
  intros H. pose proof H as H'. cbn [Str.all] in H'.
  apply andb_prop in H'. destruct H' as [Hc _].
  unfold Num.parseFloat. cbn [Str.trimStart]. rewrite (digit_no_space c Hc).
  unfold Num.read_sign.
  destruct (digit_plain c Hc) as [-> _]. rewrite (digit_no_plus c Hc).
  unfold Num.unsigned_literal.
  assert (Hspan : Str.span Char.is_digit (String c ds) = S (String.length ds))
    by (now rewrite (span_all _ _ H)).
  rewrite (starts_with_digit _ _ Hspan).
  unfold Num.decimal_literal.
  rewrite take_while_span, drop_while_span, (span_all _ _ H), take_all, drop_all.
  cbn [Str.drop]. rewrite append_nil_r. reflexivity.
Qed.

End ExtractFacts.

(** X9: with neither [allowDecimals] nor [allowNegative] the result is the
    number that all the digits of the string write, read in their order
    as one decimal numeral and rounded to a Number; everything between the
    digits is skipped, signs and dots too.  Without a digit the result is
    the default. *)
Theorem extractNumber_reads_all_digits (str : string) (options : ExtractNumberOptions) :
  default false (allowDecimals options) = false ->
  default false (allowNegative options) = false ->
  extractNumber (VStr str) options
  = Ok (match keep Char.is_digit str with
        | EmptyString => default Num.zero (defaultValue options)
        | digits => Num.of_decimal false (Num.digits_value 0 digits) 0
        end).
Proof.
  intros Had Han. rewrite extractNumber_steps. f_equal.
  unfold extractNumber_spec, number_texts. rewrite Had, Han.
  pose proof (ExtractFacts.plain_texts_digits (String.length str) str (le_n _)) as Hd.
  destruct (String.eqb_spec (Str.trim str) "") as [Ht|_].
  { now rewrite (ExtractFacts.keep_spaces str (ExtractFacts.trim_empty str Ht)). }
  destruct (occurrences _ _ str) as [|m ms] eqn:E.
  { cbn in Hd. now rewrite <- Hd. }
  assert (Hall : Str.all Char.is_digit (keep Char.is_digit str) = true)
    by apply SlugFacts.all_kept.
  rewrite Hd.
  destruct (keep Char.is_digit str) as [|c ds] eqn:Ek.
  - exfalso.
    pose proof (occurrences_found (number_length false false) (String.length str) str) as Hf.
    rewrite E in Hf. inversion Hf as [|? ? [s' [n [Hn Hm]]] _]; subst.
    rewrite ExtractFacts.number_length_plain in Hn.
    destruct s' as [|a s']; [discriminate|]. cbn [Str.span] in Hn.
    destruct (Char.is_digit a); [|discriminate].
    injection Hn as <-. rewrite concat_cons in Hd. discriminate.
  - rewrite (ExtractFacts.parseInt10_digits c ds Hall), of_decimal_number. reflexivity.
Qed.

Lemma extractNumber_reads_all_digits_witness :
  extractNumber (VStr "v1.2 (build -30)") (mkExtractNumberOptions None None None)
  = Ok (Num.of_Z 1230).
Proof.
  apply (extractNumber_reads_all_digits "v1.2 (build -30)"
           (mkExtractNumberOptions None None None)); reflexivity.
Defined.

Module NumeralFacts.

Import RegexFacts.

Lemma string_of_uint_digits (d : Decimal.uint) :
  Str.all Char.is_digit (NilEmpty.string_of_uint d) = true.
Proof. induction d; cbn [NilEmpty.string_of_uint Str.all]; auto. Qed.

Lemma digits_value_uint (d : Decimal.uint) :
  forall acc,
    Num.digits_value acc (NilEmpty.string_of_uint d)
    = N.of_nat (Nat.of_uint_acc d (N.to_nat acc)).
Proof.
  induction d; intros acc; cbn [NilEmpty.string_of_uint Num.digits_value Nat.of_uint_acc];
    [now rewrite N2Nat.id|..];
    rewrite IHd; f_equal; f_equal; rewrite Nat.tail_mul_spec;
    match goal with
    | |- context [Num.digit_value ?c] =>
        let v := eval vm_compute in (Num.digit_value c) in
        change (Num.digit_value c) with v
    end; lia.
Qed.

Lemma to_uint_not_nil (n : nat) : Nat.to_uint n <> Decimal.Nil.
Proof.
  rewrite <- (DecimalNat.Unsigned.of_to n) at 1.
  rewrite DecimalNat.Unsigned.to_of. unfold Decimal.unorm.
  destruct (Decimal.nzhead (Nat.to_uint n)); discriminate.
Qed.

(** The numeral of a natural number is a text of digits, not empty, that
    writes the number. *)
Lemma numeral_digits (n : nat) :
  exists c ds,
    Val.nat_to_string n = String c ds /\
    Str.all Char.is_digit (String c ds) = true /\
    Num.digits_value 0 (String c ds) = N.of_nat n.
Proof.
  unfold Val.nat_to_string.
  pose proof (string_of_uint_digits (Nat.to_uint n)) as Hall.
  pose proof (digits_value_uint (Nat.to_uint n) 0) as Hval.
  change (Nat.of_uint_acc (Nat.to_uint n) (N.to_nat 0)) with (Nat.of_uint (Nat.to_uint n))
    in Hval.
  rewrite DecimalNat.Unsigned.of_to in Hval.
  pose proof (to_uint_not_nil n) as Hne.
  destruct (NilEmpty.string_of_uint (Nat.to_uint n)) as [|c ds] eqn:E.
  - exfalso. destruct (Nat.to_uint n); try discriminate. now apply Hne.
  - exists c, ds. auto.
Qed.

(** A text of digits is one number-looking text, whatever the switches. *)
Lemma digits_one_text (an ad : bool) (c : ascii) (ds : string) :
  Str.all Char.is_digit (String c ds) = true ->
  number_texts an ad (String c ds) = [String c ds].
Proof.
  intros H. pose proof H as H'. cbn [Str.all] in H'.
  apply andb_prop in H'. destruct H' as [Hc _].
  unfold number_texts. cbn [String.length occurrences].
  assert (Hn : number_length an ad (String c ds) = Some (S (String.length ds))).
  { unfold number_length. destruct (digit_plain c Hc) as [-> _].
    rewrite andb_false_r, (span_all _ _ H). cbn [String.length].
    change (Str.drop (S (String.length ds)) (String c ds))
      with (Str.drop (String.length ds) ds).
    rewrite drop_all. cbn [fraction_length]. f_equal. destruct ad; lia. }
  rewrite Hn.
  change (Str.take (S (String.length ds)) (String c ds))
    with (String c (Str.take (String.length ds) ds)).
  change (Str.drop (S (String.length ds)) (String c ds))
    with (Str.drop (String.length ds) ds).
  rewrite take_all, drop_all. f_equal.
  destruct (String.length ds); reflexivity.
Qed.

Lemma digits_not_blank (c : ascii) (ds : string) :
  Char.is_digit c = true -> String.eqb (Str.trim (String c ds)) "" = false.
Proof.
  intros Hc. destruct (String.eqb_spec (Str.trim (String c ds)) "") as [H|]; auto.
  apply ExtractFacts.trim_empty in H. cbn [Str.all] in H.
  apply andb_prop in H. destruct H as [H _].
  rewrite (ExtractFacts.digit_no_space c Hc) in H. discriminate.
Qed.

End NumeralFacts.

(** X10: the decimal numeral of a natural number (its digits, without a
    sign and without leading zeros) reads back as that number, whatever the
    options; what is returned is the Number nearest to it, which is the
    number itself up to 2^53. *)
Theorem extractNumber_reads_numeral (n : nat) (options : ExtractNumberOptions) :
  extractNumber (VStr (Val.nat_to_string n)) options = Ok (Num.of_Z (Z.of_nat n)).
Proof.
  destruct (NumeralFacts.numeral_digits n) as [c [ds [-> [Hall Hval]]]].
  pose proof Hall as H'. cbn [Str.all] in H'. apply andb_prop in H'. destruct H' as [Hc _].
  rewrite extractNumber_steps. f_equal. unfold extractNumber_spec.
  rewrite (NumeralFacts.digits_not_blank c ds Hc), (NumeralFacts.digits_one_text _ _ c ds Hall).
  cbn [String.concat].
  assert (Hparse : (if default false (allowDecimals options)
                    then Num.parseFloat (String c ds)
                    else Num.parseInt10 (String c ds))
                   = Num.of_decimal false (N.of_nat n) 0).
  { rewrite <- Hval.
    destruct (default false (allowDecimals options));
      [now apply ExtractFacts.parseFloat_digits|now apply ExtractFacts.parseInt10_digits]. }
  rewrite Hparse, of_decimal_number. unfold Num.of_Z.
  replace (Z.of_nat n <? 0)%Z with false by (symmetry; apply Z.ltb_ge; lia).
  now rewrite <- (nat_N_Z n), Zabs2N.id.
Qed.

Module SignFacts.

Lemma binary_round_aux_sign (sx : bool) (mx ex : Z) (lx : location) :
  is_negative (binary_round_aux Num.prec Num.emax sx mx ex lx) = true -> sx = true.
Proof.
  unfold binary_round_aux.
  destruct (shr_fexp Num.prec Num.emax mx ex lx) as [mrs' e'].
  destruct (shr_fexp Num.prec Num.emax _ e' loc_Exact) as [mrs'' e''].
  destruct (shr_m mrs'') as [|m|m]; cbn [is_negative]; auto; [|discriminate].
  now destruct (e'' <=? Num.emax - Num.prec)%Z.
Qed.

(** A numeral read without a minus sign has no sign bit. *)
Lemma of_decimal_not_negative (m : N) (e : Z) :
  is_negative (Num.of_decimal false m e) = false.
Proof.
  apply not_true_is_false. intros H.
  unfold Num.of_decimal in H. destruct m as [|p]; [discriminate|].
  destruct e as [|d|d].
  - unfold binary_normalize, binary_round in H. cbn [cond_Zopp] in H.
    destruct (Z.pos p * 10 ^ 0)%Z as [|q|q] eqn:E; try discriminate; try lia.
    destruct (shl_align q 0 _) as [mz ez].
    apply binary_round_aux_sign in H. discriminate.
  - unfold binary_normalize, binary_round in H. cbn [cond_Zopp] in H.
    destruct (Z.pos p * 10 ^ Z.pos d)%Z as [|q|q] eqn:E; try discriminate.
    + destruct (shl_align q 0 _) as [mz ez].
      apply binary_round_aux_sign in H. discriminate.
    + assert (0 < Z.pos p * 10 ^ Z.pos d)%Z by (apply Z.mul_pos_pos; lia). lia.
  - destruct (SFdiv_core_binary Num.prec Num.emax (Z.pos p) 0 (Z.pow_pos 10 d) 0)
      as [[q e'] l].
    apply binary_round_aux_sign in H. discriminate.
Qed.

(** What is parsed from a text that starts with a digit has no sign bit. *)
Lemma parse_digit_first (ad : bool) (c : ascii) (rest : string) :
  Char.is_digit c = true ->
  is_negative ((if ad then Num.parseFloat else Num.parseInt10) (String c rest)) = false.
Proof.
  intros Hc.
  assert (Hs : Num.read_sign (Str.trimStart (String c rest)) = (false, String c rest)).
  { cbn [Str.trimStart]. rewrite (ExtractFacts.digit_no_space c Hc).
    unfold Num.read_sign. destruct (digit_plain c Hc) as [-> _].
    now rewrite (ExtractFacts.digit_no_plus c Hc). }
  destruct ad.
  - unfold Num.parseFloat. rewrite Hs. unfold Num.unsigned_literal.
    destruct (Num.starts_with "Infinity" (String c rest)); [reflexivity|].
    unfold Num.decimal_literal.
    destruct (_ ++ _); [reflexivity|apply of_decimal_not_negative].
  - unfold Num.parseInt10. rewrite Hs. unfold Num.integer_literal.
    destruct (Num.take_while _ _); [reflexivity|apply of_decimal_not_negative].
Qed.

End SignFacts.

(** X11: without [allowNegative] no minus sign of the string reaches the
    result: a result with the sign bit set (a negative number or [-0]) is
    the default value that the caller gave. *)
Theorem extractNumber_sign_needs_allowNegative (str : string)
        (options : ExtractNumberOptions) (x : Num.number) :
  default false (allowNegative options) = false ->
  extractNumber (VStr str) options = Ok x ->
  is_negative x = true ->
  x = default Num.zero (defaultValue options).
Proof.
  intros Han Hx Hneg. rewrite extractNumber_steps in Hx. injection Hx as <-.
  unfold extractNumber_spec in *. rewrite Han in *.
  destruct (String.eqb (Str.trim str) ""); [reflexivity|].
  unfold number_texts in *.
  pose proof (occurrences_found
                (number_length false (default false (allowDecimals options)))
                (String.length str) str) as Hf.
  destruct (occurrences _ _ str) as [|m ms]; [reflexivity|].
  inversion Hf as [|? ? [s' [n [Hn Hm]]] _]; subst.
  assert (Hfirst : exists c rest,
             String.concat "" (Str.take n s' :: ms) = String c rest /\
             Char.is_digit c = true).
  { unfold number_length in Hn. destruct s' as [|a s']; [discriminate|].
    cbn [andb] in Hn. cbn [Str.span] in Hn.
    destruct (Char.is_digit a) eqn:Ea; [|discriminate].
    rewrite concat_cons. destruct n as [|n]; [discriminate|].
    cbn [Str.take String.append]. eauto. }
  destruct Hfirst as [c [rest [Ht Hc]]]. rewrite Ht in *.
  pose proof (SignFacts.parse_digit_first (default false (allowDecimals options))
                c rest Hc) as Hsign.
  destruct (default false (allowDecimals options));
    match type of Hneg with
    | is_negative (if Num.isNaN ?p then _ else _) = true =>
        destruct (Num.isNaN p); [reflexivity|congruence]
    end.
Qed.

Lemma extractNumber_sign_needs_allowNegative_witness :
  extractNumber (VStr "no number")
                (mkExtractNumberOptions None None (Some (Num.of_Z (-1))))
  = Ok (Num.of_Z (-1)) /\
  Num.of_Z (-1) = default Num.zero (Some (Num.of_Z (-1))).
Proof.
  split; [reflexivity|].
  apply (extractNumber_sign_needs_allowNegative "no number"
           (mkExtractNumberOptions None None (Some (Num.of_Z (-1))))); reflexivity.
Defined.

(* ================================================================== *)
(** * transformEmptyValues: what is kept and what is left *)
(* ================================================================== *)

Module TransformMore.

Section Steps.

Variable o : ConversionOptions.

Let step : value -> result value :=
  transform_item (fun v => transformEmptyValues v o) o.

Lemma step_total (v : value) : exists w, step v = Ok w.
Proof.
  unfold step, transform_item. destruct (is_object v) eqn:E.
  - now apply transformEmptyValues_total.
  - destruct (isEmpty o v); eauto.
Qed.

(** An array that is not empty gives an array of the results of its
    elements. *)
Lemma array_steps (items : list value) :
  isEmpty o (VArr items) = false ->
  exists mapped,
    transformEmptyValues (VArr items) o = Ok (VArr mapped) /\
    Forall2 (fun v w => step v = Ok w) items mapped.
Proof.
  intros He. rewrite transformEmptyValues_eq, He.
  cbn [is_object Val.typeof Val.type_eqb Val.is_null andb negb].
  destruct (mapM_total step items) as [mapped [Hm HF]].
  { apply Forall_forall. intros v _. apply step_total. }
  exists mapped. fold step. now rewrite Hm.
Qed.

(** An object that is not empty gives an object with the same keys in the
    same order and the results of its values. *)
Lemma object_steps (props : list (string * value)) :
  isEmpty o (VObj props) = false ->
  exists vs,
    transformEmptyValues (VObj props) o = Ok (VObj vs) /\
    Forall2 (fun kv kw => fst kw = fst kv /\ step (snd kv) = Ok (snd kw)) props vs.
Proof.
  intros He. rewrite transformEmptyValues_eq, He.
  cbn [is_object Val.typeof Val.type_eqb Val.is_null andb negb].
  rewrite assign_entries_map. fold step.
  destruct (mapM_total (fun kv => v <- step (snd kv) ;; Ok (fst kv, v)) props)
    as [vs [Hm HF]].
  { apply Forall_forall. intros [k v] _. cbn [fst snd].
    destruct (step_total v) as [w ->]. cbn [bind]. eauto. }
  exists vs. rewrite Hm. split; [reflexivity|].
  eapply Forall2_impl; [|exact HF].
  intros [k v] [k' w]. cbn [fst snd].
  destruct (step v) as [w'| |]; cbn [bind]; try discriminate.
  now intros [= <- <-].
Qed.

Lemma no_empty_eq (t : value) :
  no_empty o t =
  (negb (isEmpty o t) &&
   match t with
   | VArr items => forallb (no_empty o) items
   | VObj props => forallb (fun kv => no_empty o (snd kv)) props
   | _ => true
   end)%bool.
Proof. destruct t; reflexivity. Qed.

(** A value in which nothing is empty goes through a step as it is. *)
Lemma step_keeps (v : value) :
  (is_object v = true -> no_empty o v = true -> transformEmptyValues v o = Ok v) ->
  no_empty o v = true -> step v = Ok v.
Proof.
  intros IH Hv. unfold step, transform_item.
  destruct (is_object v); [now apply IH|].
  rewrite no_empty_eq in Hv. apply andb_prop in Hv. destruct Hv as [Hv _].
  apply negb_true_iff in Hv. now rewrite Hv.
Qed.

Lemma keeps_clean (t : value) :
  is_object t = true -> no_empty o t = true -> transformEmptyValues t o = Ok t.
Proof.
  induction t as [| |b|x|s|items IH|props IH] using value_ind;
    intros Hobj Hclean; try discriminate;
    rewrite no_empty_eq in Hclean; apply andb_prop in Hclean;
    destruct Hclean as [He Hall]; apply negb_true_iff in He.
  - destruct (array_steps items He) as [mapped [-> HF]]. do 2 f_equal.
    rewrite forallb_forall in Hall. rewrite Forall_forall in IH.
    clear He Hobj. induction HF as [|v w items mapped Hvw _ IHF]; auto.
    rewrite (step_keeps v) in Hvw.
    + injection Hvw as <-. f_equal. apply IHF.
      * intros x Hx. apply IH. now right.
      * intros x Hx. apply Hall. now right.
    + apply IH. now left.
    + apply Hall. now left.
  - destruct (object_steps props He) as [vs [-> HF]]. do 2 f_equal.
    rewrite forallb_forall in Hall. rewrite Forall_forall in IH.
    clear He Hobj. induction HF as [|[k v] [k' w] props vs [Hk Hvw] _ IHF]; auto.
    cbn [fst snd] in Hk, Hvw. subst k'.
    rewrite (step_keeps v) in Hvw.
    + injection Hvw as <-. f_equal. apply IHF.
      * intros x Hx. apply IH. now right.
      * intros x Hx. apply Hall. now right.
    + apply (IH (k, v)). now left.
    + apply (Hall (k, v)). now left.
Qed.

(** Emptiness is decided by the built-in rule, or by a function that finds
    no array and no object empty; the replacement has nothing empty. *)
Hypothesis structures_stay :
  isEmptyFn o = None \/ (forall v, is_object v = true -> isEmpty o v = false).
Hypothesis replacement_clean : no_empty o (replaceWith_of o) = true.

Lemma array_stays (items mapped : list value) :
  List.length items = List.length mapped ->
  isEmpty o (VArr items) = false -> isEmpty o (VArr mapped) = false.
Proof.
  intros Hlen He. destruct structures_stay as [Hnone|Hf]; [|now apply Hf].
  unfold isEmpty in *. rewrite Hnone in *. now rewrite <- Hlen.
Qed.

Lemma object_stays (props vs : list (string * value)) :
  isEmpty o (VObj props) = false -> isEmpty o (VObj vs) = false.
Proof.
  intros He. destruct structures_stay as [Hnone|Hf]; [|now apply Hf].
  unfold isEmpty. now rewrite Hnone.
Qed.

Lemma step_cleans (v w : value) :
  (is_object v = true -> isEmpty o v = false ->
   forall out, transformEmptyValues v o = Ok out -> no_empty o out = true) ->
  step v = Ok w -> no_empty o w = true.
Proof.
  intros IH. unfold step, transform_item. destruct (is_object v) eqn:Hobj.
  - destruct (isEmpty o v) eqn:He.
    + rewrite transformEmptyValues_eq, Hobj, He. cbn [negb]. now intros [= <-].
    + now apply IH.
  - destruct (isEmpty o v) eqn:He.
    + now intros [= <-].
    + intros [= <-]. rewrite no_empty_eq, He.
      destruct v; try reflexivity; discriminate.
Qed.

Lemma leaves_clean (t : value) :
  is_object t = true -> isEmpty o t = false ->
  forall out, transformEmptyValues t o = Ok out -> no_empty o out = true.
Proof.
  induction t as [| |b|x|s|items IH|props IH] using value_ind;
    intros Hobj He out Hout; try discriminate.
  - destruct (array_steps items He) as [mapped [Hm HF]].
    rewrite Hm in Hout. injection Hout as <-.
    rewrite no_empty_eq, (array_stays items mapped (Forall2_length HF) He).
    cbn [negb andb]. apply forallb_forall. rewrite Forall_forall in IH.
    clear Hm He Hobj. induction HF as [|v w items mapped Hvw _ IHF]; [contradiction|].
    intros x [<-|Hx].
    + apply (step_cleans v); auto. apply IH. now left.
    + apply IHF; auto. intros y Hy. apply IH. now right.
  - destruct (object_steps props He) as [vs [Hm HF]].
    rewrite Hm in Hout. injection Hout as <-.
    rewrite no_empty_eq, (object_stays props vs He).
    cbn [negb andb]. apply forallb_forall. rewrite Forall_forall in IH.
    clear Hm He Hobj. induction HF as [|kv kw props vs [_ Hvw] _ IHF]; [contradiction|].
    intros x [<-|Hx].
    + apply (step_cleans (snd kv)); auto. apply (IH kv). now left.
    + apply IHF; auto. intros y Hy. apply IH. now right.
Qed.

End Steps.

(** The call depends on its options by the replacement and by what is
    judged empty. *)
Lemma same_rule (o1 o2 : ConversionOptions) :
  replaceWith_of o1 = replaceWith_of o2 ->
  (forall v, isEmpty o1 v = isEmpty o2 v) ->
  forall input, transformEmptyValues input o1 = transformEmptyValues input o2.
Proof.
  intros Hr HE.
  induction input as [| |b|x|s|items IH|props IH] using value_ind;
    rewrite !transformEmptyValues_eq; auto;
    cbn [is_object Val.typeof Val.type_eqb Val.is_null andb negb];
    rewrite HE, Hr; destruct (isEmpty o2 _); auto.
  - rewrite (mapM_ext _ (transform_item (fun v => transformEmptyValues v o2) o2)); auto.
    eapply Forall_impl; [|exact IH]. intros v Hv. unfold transform_item.
    now rewrite Hv, HE, Hr.
  - rewrite !assign_entries_map.
    rewrite (mapM_ext _ (fun kv => v <- transform_item (fun v => transformEmptyValues v o2) o2 (snd kv) ;;
                                   Ok (fst kv, v))); auto.
    eapply Forall_impl; [|exact IH]. intros [k v] Hv. unfold transform_item. simpl in *.
    now rewrite Hv, HE, Hr.
Qed.

End TransformMore.


(** X13: after the call nothing in the result is judged empty, at any
    depth, when the input itself is not empty, the replacement has nothing
    empty in it, and emptiness is decided by the built-in rule or by an
    [isEmptyFn] that finds no array and no object empty. *)
Theorem transformEmptyValues_leaves_nothing_empty (input : value)
        (options : ConversionOptions) :
  is_object input = true ->
  isEmpty options input = false ->
  no_empty options (replaceWith_of options) = true ->
  (isEmptyFn options = None \/
   (forall v, is_object v = true -> isEmpty options v = false)) ->
  exists out, transformEmptyValues input options = Ok out /\
              no_empty options out = true.
Proof.
  intros Hobj He Hrw Hs.
  destruct (transformEmptyValues_total options input Hobj) as [out Hout].
  exists out. split; auto.
  now apply (TransformMore.leaves_clean options Hs Hrw input Hobj He).
Qed.

Lemma transformEmptyValues_leaves_nothing_empty_witness :
  exists out,
    transformEmptyValues
      (VObj [("name", VStr "  "); ("tags", VArr [VStr ""; VArr []; VStr "x"])])
      (mkConversionOptions None None (Some true) None) = Ok out /\
    no_empty (mkConversionOptions None None (Some true) None) out = true.
Proof.
  apply transformEmptyValues_leaves_nothing_empty.
  - reflexivity.
  - reflexivity.
  - reflexivity.
  - left. reflexivity.
Defined.


(** X15: [replaceWith: undefined] is the same as no [replaceWith]: the
    default [null] takes its place, so an empty value becomes [null] and
    not [undefined]. *)
Theorem transformEmptyValues_undefined_is_null (input : value)
        (trim arrays : option bool) (fn : option (value -> bool)) :
  transformEmptyValues input (mkConversionOptions (Some VUndefined) trim arrays fn)
  = transformEmptyValues input (mkConversionOptions None trim arrays fn) /\
  transformEmptyValues input (mkConversionOptions (Some VUndefined) trim arrays fn)
  = transformEmptyValues input (mkConversionOptions (Some VNull) trim arrays fn) /\
  transformEmptyValues (VObj [("name", VStr "")])
                       (mkConversionOptions (Some VUndefined) None None None)
  = Ok (VObj [("name", VNull)]).
Proof.
  split; [|split]; try reflexivity; apply TransformMore.same_rule; reflexivity.
Qed.


(* ================================================================== *)
(** * replaceString: texts without a key, keys without a special character *)
(* ================================================================== *)

Module ReplaceMore.

Import RegexFacts.

Section Unchanged.

Variables (g ic : bool) (key0 : string) (keys : list string).
Variable f : string -> string.
Hypothesis f_empty : f "" = "".

Let re : RegExp := mkRegExp (alternation (key0 :: keys)) g ic.

(** Where only the empty key is at the front, nothing is replaced there. *)
Lemma replace_step_empty (c : ascii) (text : string) :
  first_key ic (key0 :: keys) (String c text) = Some "" ->
  Regex.replace re f (String c text) =
  if g then String c (Regex.replace re f text) else String c text.
Proof.
  intros Hkey. unfold Regex.replace.
  rewrite scan_cons. unfold re at 1. rewrite match_here_alternation, Hkey.
  cbn [option_map String.length Str.take Str.drop global splice].
  unfold re at 1. cbn [global]. rewrite f_empty.
  destruct g; cbn [splice String.append]; [reflexivity|].
  now rewrite append_nil_r.
Qed.

Lemma replace_unchanged (text : string) :
  (forall n key, first_key ic (key0 :: keys) (Str.drop n text) = Some key -> key = "") ->
  Regex.replace re f text = text.
Proof.
  induction text as [|c text IH]; intros H.
  - now apply replace_empty.
  - assert (IH' : Regex.replace re f text = text).
    { apply IH. intros n key Hk. apply (H (S n) key). exact Hk. }
    destruct (first_key ic (key0 :: keys) (String c text)) as [key|] eqn:E.
    + pose proof (H 0 key E) as ->.
      rewrite (replace_step_empty c text E), IH'. now destruct g.
    + unfold re. rewrite (replace_step_none g ic key0 keys f c text E).
      fold re. now rewrite IH'.
Qed.

End Unchanged.

Lemma assign_keys {A : Type} (key k : string) (v : A) (acc : list (string * A)) :
  In k (List.map fst (assign key v acc)) -> k = key \/ In k (List.map fst acc).
Proof.
  induction acc as [|[k' x] acc IH]; cbn [assign List.map fst In].
  - intros [<-|[]]. now left.
  - destruct (String.eqb_spec k' key) as [->|Hne]; cbn [List.map fst In].
    + intros [<-|H]; auto.
    + intros [<-|H]; auto. destruct (IH H); auto.
Qed.

(** The keys of the string replacements are keys of the replacements. *)
Lemma fold_assign_keys (props : list (string * value)) :
  forall (acc : list (string * string)) (k : string),
    In k (List.map fst (fold_left (fun acc '(key, v) => assign key (Val.toString v) acc)
                                  props acc)) ->
    In k (List.map fst acc) \/ In k (List.map fst props).
Proof.
  induction props as [|[key v] props IH]; intros acc k H; cbn [fold_left] in H; auto.
  destruct (IH _ _ H) as [H1|H1].
  - destruct (assign_keys _ _ _ _ H1) as [->|H2]; auto. right. now left.
  - right. now right.
Qed.

Lemma escaped_plain (key : string) :
  Str.all (fun c => negb (special c)) key = true -> escaped key = key.
Proof.
  induction key as [|c key IH]; [reflexivity|]. cbn [Str.all escaped].
  intros H. apply andb_prop in H. destruct H as [Hc H].
  apply negb_true_iff in Hc. now rewrite Hc, IH.
Qed.

(** Escaping changes nothing in a pattern of keys without a special
    character. *)
Lemma pattern_of_plain (keys : list string) (esc : bool) :
  Forall (fun k => Str.all (fun c => negb (special c)) k = true) keys ->
  pattern_of esc keys = pattern_of false keys.
Proof.
  intros H. unfold pattern_of. f_equal.
  destruct esc; [|reflexivity].
  apply List.map_ext_in. intros k Hk. rewrite Forall_forall in H.
  rewrite escapeRegexStr_escaped. cbn [escapeRegexStr]. apply escaped_plain, H, Hk.
Qed.

End ReplaceMore.

(** X17: with escaping on, a text in which no key of at least one
    character stands at any place comes back as it is; an empty key, which
    stands at every place, replaces nothing and hides the keys after it. *)
Theorem replaceString_without_key (text : string) (props : list (string * value))
        (options : ReplaceOptions) :
  NoDup (List.map fst props) ->
  escapeRegex options <> Some false ->
  (forall n key,
      first_key (default true (opt_ignoreCase options)) (List.map fst props)
                (Str.drop n text) = Some key ->
      key = "") ->
  replaceString (VStr text) (VObj props) options = Ok text.
Proof.
  intros Hnd Hesc Hfree.
  destruct props as [|[key0 v0] props']; [now destruct text|].
  rewrite (replaceString_scan options key0 v0 props' text Hnd Hesc). f_equal.
  apply ReplaceMore.replace_unchanged; [apply replacer_empty|exact Hfree].
Qed.

Lemma replaceString_without_key_witness :
  replaceString (VStr "ab") (VObj [("", VStr "X"); ("a", VStr "Y")])
                (mkReplaceOptions None None None) = Ok "ab".
Proof.
  apply replaceString_without_key.
  - repeat constructor; simpl; intuition discriminate.
  - discriminate.
  - intros [|[|[|n]]] key; cbn; intros [= <-]; reflexivity.
Defined.

(** X18: for keys without a special character [escapeRegex] plays no
    part: the call gives the same with it on, off or left out. *)
Theorem replaceString_escape_plain_keys (text replacements : value)
        (ignoreCase all escape : option bool) :
  Forall (fun k => Str.all (fun c => negb (special c)) k = true) (Val.keys replacements) ->
  replaceString text replacements (mkReplaceOptions ignoreCase all escape)
  = replaceString text replacements (mkReplaceOptions ignoreCase all (Some false)).
Proof.
  intros Hplain. unfold replaceString. destruct text; try reflexivity.
  destruct (_ || _)%bool; [reflexivity|].
  destruct (_ || _)%bool; [reflexivity|].
  cbn [escapeRegex opt_ignoreCase replaceAll default].
  rewrite (ReplaceMore.pattern_of_plain _ (default true escape)); [reflexivity|].
  apply Forall_forall. intros k Hk. rewrite Forall_forall in Hplain. apply Hplain.
  unfold stringReplacements in Hk.
  destruct (ReplaceMore.fold_assign_keys _ _ _ Hk) as [[]|H]. exact H.
Qed.

Lemma replaceString_escape_plain_keys_witness :
  replaceString (VStr "Hello :name!") (VObj [(":name", VStr "John")])
                (mkReplaceOptions None None None)
  = replaceString (VStr "Hello :name!") (VObj [(":name", VStr "John")])
                  (mkReplaceOptions None None (Some false)).
Proof.
  apply replaceString_escape_plain_keys. repeat constructor.
Defined.

(* ================================================================== *)
(** * The store: the result of transformEmptyValues is built anew *)
(* ================================================================== *)

Local Open Scope list_scope.

Module CopyFacts.

Import ReprFacts.
Import TraverseFacts.
Import TransformFacts.

(** A value that is no array and no object is held the same everywhere. *)
Lemma repr_primitive (P P' : nat -> Prop) (h h' : Store.heap) (v : Store.rvalue) (t : value) :
  Store.repr_in P h v t -> is_object t = false -> Store.repr_in P' h' v t.
Proof. intros Hr Hobj. inversion Hr; subst; try constructor; discriminate. Qed.

Section Copy.

Variable h0 : Store.heap.
Variable oH : Store.ConversionOptions.
Variable o : ConversionOptions.

(** The objects of the replacement. *)
Variable Q : nat -> Prop.
Hypothesis Q_below : forall l, Q l -> l < List.length h0.
Hypothesis replacement_in :
  Store.repr_in Q h0 (Store.replaceWith_of oH) (replaceWith_of o).

Hypothesis trimStrings_agrees : Store.trimStrings oH = trimStrings o.
Hypothesis processEmptyArrays_agrees : Store.processEmptyArrays oH = processEmptyArrays o.
Hypothesis isEmptyFn_agrees :
  match Store.isEmptyFn oH, isEmptyFn o with
  | None, None => True
  | Some fH, Some f => forall h v t, Store.repr h v t -> fH h v = f t
  | _, _ => False
  end.

Lemma replacement_over (h fresh : Store.heap) :
  over h0 h ->
  Store.repr_in (fun l => Q l \/ List.length h <= l) (h ++ fresh)
                (Store.replaceWith_of oH) (replaceWith_of o).
Proof.
  intros Ho. eapply repr_in_agree; [| |exact replacement_in].
  - intros l Hl. now left.
  - intros l Hl _. pose proof (Q_below l Hl) as Hb.
    pose proof (over_length _ _ Ho) as Hlen.
    rewrite nth_error_app1 by lia. now apply over_nth.
Qed.

Lemma isEmpty_in (P : nat -> Prop) (h : Store.heap) (v : Store.rvalue) (t : value) :
  Store.repr_in P h v t -> Store.isEmpty oH v h = (Ok (isEmpty o t), h).
Proof.
  exact (isEmpty_refines oH o trimStrings_agrees processEmptyArrays_agrees
                         isEmptyFn_agrees P h v t).
Qed.

Lemma transform_item_new (self : Store.rvalue -> Store.M Store.rvalue)
      (pure : value -> result value) (v : Store.rvalue) (t : value) :
  Store.repr h0 v t ->
  (is_object t = true -> returns_new h0 Q (self v) (pure t)) ->
  returns_new h0 Q (Store.transform_item self oH v) (transform_item pure o t).
Proof.
  intros Hr Hself h Ho. unfold Store.transform_item, transform_item.
  pose proof (repr_over _ _ _ _ Hr Ho) as Hv.
  rewrite (repr_is_object _ _ _ _ Hv).
  destruct (is_object t) eqn:Hobj; [now apply Hself|].
  rewrite (bind_ok _ _ _ _ _ (isEmpty_in _ _ _ _ Hv)).
  destruct (isEmpty o t).
  - exists (Store.replaceWith_of oH), [], (replaceWith_of o).
    split; [unfold Store.ret; now rewrite app_nil_r|].
      split; [reflexivity|]. now apply replacement_over.
  - exists v, [], t. rewrite app_nil_r. repeat split.
    exact (repr_primitive _ _ _ _ _ _ Hv Hobj).
Qed.

(** The array loop. *)
Lemma mapM_new (f : Store.rvalue -> Store.M Store.rvalue) (g : value -> result value) :
  forall (items : list Store.rvalue) (ts : list value),
    Forall2 (fun v t => returns_new h0 Q (f v) (g t)) items ts ->
    forall h, over h0 h ->
      exists outs fresh ts',
        Store.mapM f items h = (Ok outs, h ++ fresh) /\ mapM g ts = Ok ts' /\
        Forall2 (Store.repr_in (fun l => Q l \/ List.length h <= l) (h ++ fresh))
                outs ts'.
Proof.
  induction 1 as [|v t items ts Hvt _ IH]; intros h Ho.
  - exists [], [], []. rewrite app_nil_r. repeat split; auto.
  - destruct (Hvt h Ho) as [out [fresh1 [t' [E1 [E2 E3]]]]].
    destruct (IH (h ++ fresh1) (over_app _ _ _ Ho)) as [outs [fresh2 [ts' [E4 [E5 E6]]]]].
    exists (out :: outs), (fresh1 ++ fresh2), (t' :: ts').
    cbn [Store.mapM mapM]. rewrite (bind_ok _ _ _ _ _ E1), (bind_ok _ _ _ _ _ E4).
    rewrite E2, E5. cbn [bind Store.ret]. rewrite app_assoc.
    repeat split; auto. constructor.
    + eapply repr_in_agree; [| |exact E3]; auto.
      intros l _ Hl. now apply nth_error_app1.
    + eapply Forall2_impl; [|exact E6]. intros x y.
      apply repr_in_agree; auto.
      intros l [Hl|Hl]; [now left|right]. rewrite length_app in Hl. lia.
Qed.

(** The loop over the properties, writing into the object at [r]. *)
Lemma assign_entries_new (f : Store.rvalue -> Store.M Store.rvalue)
      (g : value -> result value) (r : nat) :
  List.length h0 <= r ->
  forall (props : list (string * Store.rvalue)) (tps : list (string * value)),
    Forall2 (fun p tp => fst p = fst tp /\ returns_new h0 Q (f (snd p)) (g (snd tp)))
            props tps ->
    forall acc tacc h,
      over h0 h ->
      nth_error h r = Some (Store.OObj acc) ->
      Forall2 (fun p tp => fst p = fst tp /\
                           Store.repr_in (fun l => Q l \/ r < l) h (snd p) (snd tp))
              acc tacc ->
      NoDup (List.map fst acc ++ List.map fst props) ->
      exists hf acc' tacc',
        Store.assign_entries f props r h = (Ok (Store.RRef r), hf) /\
        assign_entries g tps tacc = Ok (VObj tacc') /\
        List.length h <= List.length hf /\
        (forall l, l <> r -> l < List.length h -> nth_error hf l = nth_error h l) /\
        nth_error hf r = Some (Store.OObj acc') /\
        NoDup (List.map fst acc') /\
        Forall2 (fun p tp => fst p = fst tp /\
                             Store.repr_in (fun l => Q l \/ r < l) hf (snd p) (snd tp))
                acc' tacc'.
Proof.
  intros Hr0.
  induction 1 as [|[key val] [key' t] props tps [Hkey Hvt] _ IH];
    intros acc tacc h Ho Hacc Hreprs Hnd.
  - exists h, acc, tacc. cbn [List.map] in Hnd. rewrite app_nil_r in Hnd.
    repeat split; auto.
  - cbn [fst snd] in Hkey, Hvt. subst key'.
    assert (Hr : r < List.length h) by (apply nth_error_Some; congruence).
    destruct (Hvt h Ho) as [v [fresh [t' [E1 [E2 E3]]]]].
    set (h2 := Store.set_nth r (Store.OObj (assign key v acc)) (h ++ fresh)).
    assert (Hfresh : ~ In key (List.map fst acc)).
    { intros Hin. cbn [List.map fst] in Hnd.
      apply NoDup_remove_2 in Hnd. apply Hnd, in_or_app. now left. }
    assert (Hlen2 : List.length h2 = List.length (h ++ fresh))
      by apply StoreFacts.length_set_nth.
    assert (Hlen : List.length h <= List.length h2)
      by (rewrite Hlen2, length_app; lia).
    assert (Hframe : forall l, l <> r -> nth_error h2 l = nth_error (h ++ fresh) l)
      by (intros l Hl; now apply nth_error_set_nth_neq).
    destruct (IH (acc ++ [(key, v)]) (tacc ++ [(key, t')]) h2)
      as [hf [acc' [tacc' [F1 [F2 [F3 [F4 [F5 [F6 F7]]]]]]]]].
    + apply over_set_nth; auto. now apply over_app.
    + unfold h2. rewrite nth_error_set_nth_eq by (rewrite length_app; lia).
      now rewrite assign_fresh.
    + apply Forall2_app.
      * eapply Forall2_impl; [|exact Hreprs]. intros p tp [Hk Hp]. split; auto.
        eapply repr_in_agree; [| |exact Hp]; auto.
        intros l [Hl|Hl] Hl'; (rewrite Hframe; [now apply nth_error_app1|]).
        -- apply Q_below in Hl. lia.
        -- lia.
      * constructor; [|constructor]. split; auto. cbn [snd].
        eapply repr_in_agree; [| |exact E3].
        -- intros l [Hl|Hl]; [now left|right; lia].
        -- intros l [Hl|Hl] _; apply Hframe.
           ++ apply Q_below in Hl. lia.
           ++ lia.
    + rewrite map_app, <- app_assoc. exact Hnd.
    + exists hf, acc', tacc'. cbn [Store.assign_entries assign_entries].
      rewrite (bind_ok _ _ _ _ _ E1), E2. cbn [bind].
      assert (Eset : Store.set_prop r key v (h ++ fresh) = (Ok tt, h2)).
      { unfold Store.set_prop, Store.bind, Store.load.
        rewrite nth_error_app1, Hacc by exact Hr. reflexivity. }
      rewrite (bind_ok _ _ _ _ _ Eset).
      repeat split; auto; try lia.
      intros l Hl Hl'. rewrite F4 by (auto; lia).
      rewrite Hframe by exact Hl. now apply nth_error_app1.
Qed.

(** The call on a structure held in [h0] returns, from any store over [h0],
    a structure whose objects are new or objects of the replacement. *)
Lemma transformEmptyValues_new :
  forall (t : value) (fuel : nat) (input : Store.rvalue),
    Store.repr h0 input t -> depth t < fuel -> is_object t = true ->
    returns_new h0 Q (Store.transformEmptyValues fuel input oH) (transformEmptyValues t o).
Proof.
  induction t as [| |b|x|s|ts IH|tps IH] using value_ind;
    intros fuel input Hr Hfuel Hobj; try discriminate Hobj.
  - (* arrays *)
    destruct fuel as [|fuel]; [lia|].
    intros h Ho. pose proof (repr_over _ _ _ _ Hr Ho) as Hv.
    inversion Hr as [| | | | |l items ts' _ Hl Hitems|]; subst.
    rewrite transformEmptyValues_eq. cbn [is_object Val.typeof Val.type_eqb Val.is_null
      andb negb]. cbn [Store.transformEmptyValues].
    rewrite (bind_ok _ _ _ _ _ (isEmpty_in _ _ _ _ Hv)).
    destruct (isEmpty o (VArr ts)).
    { exists (Store.replaceWith_of oH), [], (replaceWith_of o).
      split; [unfold Store.ret; now rewrite app_nil_r|].
      split; [reflexivity|]. now apply replacement_over. }
    assert (Hload : Store.load l h = (Ok (Store.OArr items), h)).
    { unfold Store.load. rewrite (over_nth h0 h l Ho), Hl; auto.
      apply nth_error_Some. congruence. }
    rewrite (bind_ok _ _ _ _ _ Hload).
    destruct (mapM_new
                (Store.transform_item
                   (fun v => Store.transformEmptyValues fuel v oH) oH)
                (transform_item (fun v => transformEmptyValues v o) o)
                items ts) with (h := h)
      as [outs [fresh [ts' [E1 [E2 E3]]]]]; auto.
    { eapply Forall2_In_right; [exact Hitems|exact IH|].
      intros v t Hvt IHt Hin. apply transform_item_new; auto.
      intros Hobj'. apply IHt; auto.
      pose proof (depth_item _ _ Hin). lia. }
    rewrite (bind_ok _ _ _ _ _ E1), E2. cbn [bind].
    exists (Store.RRef (List.length (h ++ fresh))), (fresh ++ [Store.OArr outs]), (VArr ts').
    unfold Store.alloc. rewrite app_assoc. repeat split.
    eapply Store.repr_arr.
    + right. rewrite length_app. lia.
    + rewrite nth_error_app2, Nat.sub_diag by lia. reflexivity.
    + eapply Forall2_impl; [|exact E3]. intros v t.
      apply repr_in_agree; auto. intros l' _ Hl'. now apply nth_error_app1.
  - (* objects *)
    destruct fuel as [|fuel]; [lia|].
    intros h Ho. pose proof (repr_over _ _ _ _ Hr Ho) as Hv.
    inversion Hr as [| | | | | |l props tps' _ Hl Hnd Hprops]; subst.
    rewrite transformEmptyValues_eq. cbn [is_object Val.typeof Val.type_eqb Val.is_null
      andb negb]. cbn [Store.transformEmptyValues].
    rewrite (bind_ok _ _ _ _ _ (isEmpty_in _ _ _ _ Hv)).
    destruct (isEmpty o (VObj tps)).
    { exists (Store.replaceWith_of oH), [], (replaceWith_of o).
      split; [unfold Store.ret; now rewrite app_nil_r|].
      split; [reflexivity|]. now apply replacement_over. }
    assert (Hload : Store.load l h = (Ok (Store.OObj props), h)).
    { unfold Store.load. rewrite (over_nth h0 h l Ho), Hl; auto.
      apply nth_error_Some. congruence. }
    rewrite (bind_ok _ _ _ _ _ Hload).
    unfold Store.bind at 1. unfold Store.alloc at 1.
    pose proof (over_length _ _ Ho) as Hlen.
    destruct (assign_entries_new
                (Store.transform_item
                   (fun v => Store.transformEmptyValues fuel v oH) oH)
                (transform_item (fun v => transformEmptyValues v o) o)
                (List.length h) Hlen props tps) with (acc := @nil (string * Store.rvalue))
                (tacc := @nil (string * value)) (h := h ++ [Store.OObj []])
      as [hf [acc' [tacc' [F1 [F2 [F3 [F4 [F5 [F6 F7]]]]]]]]]; auto.
    { assert (Hdepth : forall t, In t (List.map snd tps) -> depth t < fuel)
        by (intros t Hin; pose proof (depth_prop _ _ Hin); lia).
      clear Hnd Hl Hv Hr Hfuel Hobj Hload.
      induction Hprops as [|p tp props tps [Hk Hp] _ IHp];
        constructor; inversion IH as [|? ? IH1 IH2]; subst.
      - split; auto. apply transform_item_new; auto.
        intros Hobj'. apply IH1; auto.
        apply Hdepth. now left.
      - apply IHp; auto.
        intros t Hin. apply Hdepth. now right. }
    { now apply over_app. }
    { rewrite nth_error_app2, Nat.sub_diag by lia. reflexivity. }
    rewrite F1, F2.
    exists (Store.RRef (List.length h)), (skipn (List.length h) hf), (VObj tacc').
    assert (Hhf : hf = h ++ skipn (List.length h) hf).
    { rewrite <- (firstn_skipn (List.length h) hf) at 1. f_equal.
      apply nth_error_ext. intros i.
      rewrite nth_error_firstn.
      destruct (Nat.ltb_spec i (List.length h)) as [Hi|Hi].
      - rewrite F4; [now apply nth_error_app1|lia|rewrite length_app; lia].
      - symmetry. now apply nth_error_None. }
    rewrite <- Hhf. repeat split.
    eapply Store.repr_obj; [right; apply Nat.le_refl|exact F5|exact F6|].
    eapply Forall2_impl; [|exact F7]. intros p tp [Hk Hp]. split; auto.
    eapply repr_in_agree; [| |exact Hp]; auto.
    intros l' [Hl'|Hl']; [now left|right; lia].
Qed.

End Copy.

End CopyFacts.

(** X19: in the store, the result of [transformEmptyValues] on an array or
    object is built anew: every array and object in it, at any depth, is
    one that the call added to the store or one of the replacement (the
    objects [Q] that [replaceWith] is made of).  So with a [replaceWith]
    that is no array and no object the result shares no object with the
    input, and with one that is, every replaced place holds that same
    object. *)
Theorem transformEmptyValues_builds_anew (h : Store.heap) (fuel : nat)
        (input : Store.rvalue) (options : Store.ConversionOptions)
        (t : value) (o : ConversionOptions) (Q : nat -> Prop) :
  Store.repr h input t ->
  is_object t = true ->
  depth t < fuel ->
  same_options h options o ->
  (forall l, Q l -> l < List.length h) ->
  Store.repr_in Q h (Store.replaceWith_of options) (replaceWith_of o) ->
  exists out fresh t',
    Store.transformEmptyValues fuel input options h = (Ok out, h ++ fresh) /\
    transformEmptyValues t o = Ok t' /\
    Store.repr_in (fun l => Q l \/ List.length h <= l) (h ++ fresh) out t'.
Proof.
  intros Hr Hobj Hfuel [_ [Htrim [Harr Hfn]]] HQ Hrw.
  exact (CopyFacts.transformEmptyValues_new h options o Q HQ Hrw Htrim Harr Hfn
           t fuel input Hr Hfuel Hobj h (TransformFacts.over_refl h)).
Qed.

Lemma transformEmptyValues_builds_anew_witness :
  let h := [Store.OObj [("a", Store.RRef 1); ("b", Store.RStr ""); ("c", Store.RStr "x")];
            Store.OArr [Store.RStr ""; Store.RStr "y"; Store.RRef 2];
            Store.OObj [("d", Store.RStr "  ")]] in
  let options := Store.mkConversionOptions None None None None in
  let o := mkConversionOptions None None None None in
  let t := VObj [("a", VArr [VStr ""; VStr "y"; VObj [("d", VStr "  ")]]);
                 ("b", VStr ""); ("c", VStr "x")] in
  exists out fresh t',
    Store.transformEmptyValues 5 (Store.RRef 0) options h = (Ok out, h ++ fresh) /\
    transformEmptyValues t o = Ok t' /\
    Store.repr_in (fun l => False \/ 3 <= l) (h ++ fresh) out t'.
Proof.
  intros h options o t.
  assert (Hd : NoDup (List.map fst [("d", Store.RStr "  ")])).
  { repeat constructor. simpl. tauto. }
  assert (Ha : NoDup (List.map fst [("a", Store.RRef 1); ("b", Store.RStr "");
                                    ("c", Store.RStr "x")])).
  { repeat constructor; simpl; intuition discriminate. }
  assert (Hr : Store.repr h (Store.RRef 0) t).
  { eapply Store.repr_obj; [exact I|reflexivity|exact Ha|].
    repeat constructor.
    eapply Store.repr_arr; [exact I|reflexivity|].
    repeat constructor.
    eapply Store.repr_obj; [exact I|reflexivity|exact Hd|].
    repeat constructor. }
  apply (transformEmptyValues_builds_anew h 5 (Store.RRef 0) options t o (fun _ => False)).
  - exact Hr.
  - reflexivity.
  - vm_compute. lia.
  - repeat split.
  - intros l [].
  - constructor.
Defined.

Local Open Scope string_scope.

Module LengthFacts.

Lemma length_keep (p : ascii -> bool) (s : string) :
  String.length (keep p s) <= String.length s.
Proof. induction s as [|c s IH]; simpl; auto. destruct (p c); simpl; lia. Qed.

Lemma length_squeeze (p : ascii -> bool) (c : ascii) (b : bool) (s : string) :
  String.length (squeeze p (String c "") b s) <= String.length s.
Proof.
  revert b. induction s as [|a s IH]; intros b; simpl; auto.
  destruct (p a); [destruct b|]; simpl.
  - specialize (IH true). lia.
  - specialize (IH true). lia.
  - specialize (IH false). lia.
Qed.

End LengthFacts.

(** X20: a slug is never longer than the text it is made from. *)
Theorem slugify_not_longer (text : string) :
  String.length (slugify text) <= String.length text.
Proof.
  rewrite SlugFacts.slugify_direct. unfold hyphenate.
  etransitivity; [apply LengthFacts.length_squeeze|].
  etransitivity; [apply LengthFacts.length_keep|].
  now rewrite toLowerCase_length.
Qed.

(** X21: [extractNumber] throws the TypeError for every value that is not
    a string and for nothing else; for a string it returns a Number, and
    this is NaN only when the caller gave NaN as the default value. *)
Theorem extractNumber_throws_and_NaN :
  (forall (v : value) (options : ExtractNumberOptions),
      Val.typeof v <> Val.TString ->
      extractNumber v options = Throw (TypeError "Input must be a string")) /\
  (forall (str : string) (options : ExtractNumberOptions),
      exists x, extractNumber (VStr str) options = Ok x /\
                (Num.isNaN x = true -> defaultValue options = Some Num.NaN)).
Proof.
  split.
  - intros v options Hv. destruct v; try reflexivity. now contradiction Hv.
  - intros str options. rewrite extractNumber_steps. eexists. split; [reflexivity|].
    assert (Hd : Num.isNaN (default Num.zero (defaultValue options)) = true ->
                 defaultValue options = Some Num.NaN).
    { destruct (defaultValue options) as [[]|]; cbn; try discriminate. reflexivity. }
    unfold extractNumber_spec.
    destruct (String.eqb (Str.trim str) ""); auto.
    destruct (number_texts _ _ str); auto.
    destruct (default false (allowDecimals options));
      match goal with
      | |- Num.isNaN (if Num.isNaN ?p then _ else _) = true -> _ =>
          destruct (Num.isNaN p) eqn:E; auto; rewrite E; discriminate
      end.
Qed.


(* ================================================================== *)
(** * The call stack: data that is too deep *)
(* ================================================================== *)

Local Open Scope list_scope.

Module StackFacts.




Lemma depth_nest (n : nat) : depth (nest n) = S n.
Proof. induction n as [|n IH]; [reflexivity|]. cbn [nest depth fold_right]. rewrite IH. lia. Qed.






End StackFacts.

(* ================================================================== *)
(** * resolveObjectPath and transformEmptyValues within the call stack *)
(* ================================================================== *)

Module WithinStack.






(** On an array or object held as a tree, with stack for its depth, the
    call returns the transformed tree. *)
Lemma transform_returns (h : Store.heap) (fuel : nat) (input : Store.rvalue)
      (options : Store.ConversionOptions) (t : value) (o : ConversionOptions) :
  Store.repr h input t -> is_object t = true ->
  same_options h options o -> depth t < fuel ->
  exists out fresh t',
    Store.transformEmptyValues fuel input options h = (Ok out, h ++ fresh) /\
    transformEmptyValues t o = Ok t' /\
    Store.repr (h ++ fresh) out t'.
Proof.
  intros Hr Hobj Hopt Hfuel.
  pose proof (CallFacts.same_options_replacement _ _ _ Hopt) as Hrw.
  destruct Hopt as [_ [Htrim [Harr Hfn]]].
  destruct (TransformFacts.transformEmptyValues_returns h options o Hrw Htrim Harr Hfn
              t fuel input Hr Hfuel Hobj h (TransformFacts.over_refl h))
    as [out [fresh [t' [E1 [E2 E3]]]]].
  exists out, fresh, t'. repeat split; auto.
  eapply ReprFacts.repr_in_repr, E3.
Qed.

Lemma object_keys (o : ConversionOptions) (props : list (string * value)) (t' : value) :
  isEmpty o (VObj props) = false ->
  transformEmptyValues (VObj props) o = Ok t' ->
  exists props', t' = VObj props' /\ List.map fst props' = List.map fst props.
Proof.
  intros He Ht.
  destruct (TransformMore.object_steps o props He) as [vs [Hm HF]].
  rewrite Hm in Ht. injection Ht as <-. exists vs. split; auto.
  clear Hm He. induction HF as [|kv kw props vs [Hk _] _ IH]; auto.
  cbn [List.map]. now rewrite Hk, IH.
Qed.

Lemma array_length (o : ConversionOptions) (items : list value) (t' : value) :
  isEmpty o (VArr items) = false ->
  transformEmptyValues (VArr items) o = Ok t' ->
  exists items', t' = VArr items' /\ List.length items' = List.length items.
Proof.
  intros He Ht.
  destruct (TransformMore.array_steps o items He) as [mapped [Hm HF]].
  rewrite Hm in Ht. injection Ht as <-. exists mapped. split; auto.
  symmetry. exact (Forall2_length HF).
Qed.

Lemma object_field (o : ConversionOptions) (props : list (string * value))
      (key : string) (v t' : value) :
  isEmpty o (VObj props) = false ->
  Val.lookup key props = Some v ->
  is_object v = false ->
  transformEmptyValues (VObj props) o = Ok t' ->
  exists props',
    t' = VObj props' /\
    Val.lookup key props' = Some (if isEmpty o v then replaceWith_of o else v).
Proof.
  intros He Hv Hobj Ht.
  destruct (TransformMore.object_steps o props He) as [vs [Hm HF]].
  rewrite Hm in Ht. injection Ht as <-. exists vs. split; auto. clear Hm He.
  induction HF as [|[k x] [k' w] props vs [Hk Hw] _ IH]; [discriminate|].
  cbn [fst snd] in Hk, Hw. subst k'. cbn [Val.lookup] in Hv |- *.
  destruct (String.eqb k key); [|now apply IH].
  injection Hv as ->. unfold transform_item in Hw. rewrite Hobj in Hw.
  destruct (isEmpty o v); now injection Hw as <-.
Qed.

End WithinStack.




(** X12: an array or object in which nothing is judged empty, at any
    depth, and no object has a [__proto__] key, comes back with the same
    content (same keys, same order, same values), when the call stack
    suffices for its depth. *)
Theorem transformEmptyValues_keeps_clean_input (h : Store.heap) (fuel : nat)
        (input : Store.rvalue) (options : Store.ConversionOptions)
        (t : value) (o : ConversionOptions) :
  Store.repr h input t ->
  is_object t = true ->
  same_options h options o ->
  depth t < fuel ->
  plain_keys t = true ->
  no_empty o t = true ->
  exists out fresh,
    Store.transformEmptyValues fuel input options h = (Ok out, h ++ fresh) /\
    Store.repr (h ++ fresh) out t.
Proof.
  intros Hr Hobj Hopt Hfuel _ Hclean.
  destruct (WithinStack.transform_returns h fuel input options t o Hr Hobj Hopt Hfuel)
    as [out [fresh [t' [E1 [E2 E3]]]]].
  rewrite (TransformMore.keeps_clean o t Hobj Hclean) in E2. injection E2 as <-.
  exists out, fresh. split; assumption.
Qed.

Lemma transformEmptyValues_keeps_clean_input_witness :
  let h := [Store.OObj [("name", Store.RStr "Ann"); ("tags", Store.RRef 1)];
            Store.OArr [Store.RStr "a"; Store.RNull; Store.RNum (Num.of_Z 0)]] in
  exists out fresh,
    Store.transformEmptyValues 4 (Store.RRef 0)
      (Store.mkConversionOptions None None None None) h = (Ok out, h ++ fresh) /\
    Store.repr (h ++ fresh) out
      (VObj [("name", VStr "Ann"); ("tags", VArr [VStr "a"; VNull; VNum (Num.of_Z 0)])]).
Proof.
  intros h.
  apply (transformEmptyValues_keeps_clean_input h 4 (Store.RRef 0)
           (Store.mkConversionOptions None None None None)
           (VObj [("name", VStr "Ann"); ("tags", VArr [VStr "a"; VNull; VNum (Num.of_Z 0)])])
           (mkConversionOptions None None None None)).
  - eapply Store.repr_obj; [exact I|reflexivity| |].
    + repeat constructor; simpl; intuition discriminate.
    + repeat constructor.
      eapply Store.repr_arr; [exact I|reflexivity|]. repeat constructor.
  - reflexivity.
  - repeat split.
  - vm_compute. lia.
  - reflexivity.
  - reflexivity.
Defined.

(** X14: the structure at the top is kept, when the call stack suffices
    and no object has a [__proto__] key: an object that is not judged
    empty gives an object with the same keys in the same order, and an
    array that is not judged empty gives an array of the same length. *)
Theorem transformEmptyValues_keeps_keys_and_length :
  (forall h fuel input options props o,
      Store.repr h input (VObj props) ->
      same_options h options o ->
      depth (VObj props) < fuel ->
      plain_keys (VObj props) = true ->
      isEmpty o (VObj props) = false ->
      exists out fresh props',
        Store.transformEmptyValues fuel input options h = (Ok out, h ++ fresh) /\
        Store.repr (h ++ fresh) out (VObj props') /\
        List.map fst props' = List.map fst props) /\
  (forall h fuel input options items o,
      Store.repr h input (VArr items) ->
      same_options h options o ->
      depth (VArr items) < fuel ->
      plain_keys (VArr items) = true ->
      isEmpty o (VArr items) = false ->
      exists out fresh items',
        Store.transformEmptyValues fuel input options h = (Ok out, h ++ fresh) /\
        Store.repr (h ++ fresh) out (VArr items') /\
        List.length items' = List.length items).
Proof.
  split.
  - intros h fuel input options props o Hr Hopt Hfuel _ He.
    destruct (WithinStack.transform_returns h fuel input options _ o Hr eq_refl Hopt Hfuel)
      as [out [fresh [t' [E1 [E2 E3]]]]].
    destruct (WithinStack.object_keys o props t' He E2) as [props' [-> Hk]].
    exists out, fresh, props'. auto.
  - intros h fuel input options items o Hr Hopt Hfuel _ He.
    destruct (WithinStack.transform_returns h fuel input options _ o Hr eq_refl Hopt Hfuel)
      as [out [fresh [t' [E1 [E2 E3]]]]].
    destruct (WithinStack.array_length o items t' He E2) as [items' [-> Hl]].
    exists out, fresh, items'. auto.
Qed.


(** X22: field by field, when the call stack suffices and no object has a
    [__proto__] key: in an object that is not judged empty, a property
    value that is no array and no object is kept when it is not judged
    empty and is the replacement when it is; the property keeps its
    key. *)
Theorem transformEmptyValues_field (h : Store.heap) (fuel : nat)
        (input : Store.rvalue) (options : Store.ConversionOptions)
        (props : list (string * value)) (o : ConversionOptions)
        (key : string) (v : value) :
  Store.repr h input (VObj props) ->
  same_options h options o ->
  depth (VObj props) < fuel ->
  plain_keys (VObj props) = true ->
  isEmpty o (VObj props) = false ->
  Val.lookup key props = Some v ->
  is_object v = false ->
  exists out fresh props',
    Store.transformEmptyValues fuel input options h = (Ok out, h ++ fresh) /\
    Store.repr (h ++ fresh) out (VObj props') /\
    Val.lookup key props' = Some (if isEmpty o v then replaceWith_of o else v).
Proof.
  intros Hr Hopt Hfuel _ He Hv Hobj.
  destruct (WithinStack.transform_returns h fuel input options _ o Hr eq_refl Hopt Hfuel)
    as [out [fresh [t' [E1 [E2 E3]]]]].
  destruct (WithinStack.object_field o props key v t' He Hv Hobj E2) as [props' [-> Hk]].
  exists out, fresh, props'. auto.
Qed.

Lemma transformEmptyValues_field_witness :
  let h := [Store.OObj [("name", Store.RStr " "); ("age", Store.RNum (Num.of_Z 0))]] in
  exists out fresh props',
    Store.transformEmptyValues 3 (Store.RRef 0)
      (Store.mkConversionOptions None None None None) h = (Ok out, h ++ fresh) /\
    Store.repr (h ++ fresh) out (VObj props') /\
    Val.lookup "name" props' = Some VNull.
Proof.
  intros h.
  apply (transformEmptyValues_field h 3 (Store.RRef 0)
           (Store.mkConversionOptions None None None None)
           [("name", VStr " "); ("age", VNum (Num.of_Z 0))]
           (mkConversionOptions None None None None) "name"%string (VStr " ")).
  - eapply Store.repr_obj; [exact I|reflexivity| |].
    + repeat constructor; simpl; intuition discriminate.
    + repeat constructor.
  - repeat split.
  - vm_compute. lia.
  - reflexivity.
  - reflexivity.
  - reflexivity.
  - reflexivity.
Defined.
